(** * Ingestion orchestration core: chunker, extraction poll loop,
      chunk persistence and the two S3-triggered handlers.

    Shallow embedding of
      - [lambda_pdf_processor/lambda_pdf_function.py]
      - [lambda_structured_processor/lambda_structured_function.py]

    Python [str] values are lists of Unicode code points, Python [int]s are
    [Z], raised exceptions are values of [exn] carried by [Result]. *)

From Stdlib Require Import ZArith NArith Bool Lia String Ascii DecimalString List.
Import ListNotations.
Local Open Scope Z_scope.

(* ===================================================================== *)
(** ** Python primitives used by the handlers *)
(* ===================================================================== *)

Module Py.

(** A [str] is a sequence of code points; [len] is the number of them. *)
Definition str := list N.

Definition lit (s : string) : str :=
  map N_of_ascii (list_ascii_of_string s).

Definition len {A} (s : list A) : Z := Z.of_nat (List.length s).

(** Truthiness of a sequence: [if s:]. *)
Definition truthy {A} (s : list A) : bool :=
  match s with [] => false | _ => true end.

(** Index normalisation of a slice bound against a sequence of [n]
    elements: negative bounds count from the end, everything is clamped
    to [0..n]. *)
Definition clamp (n i : Z) : Z :=
  if i <? 0 then Z.max 0 (i + n) else Z.min i n.

(** [s[lo:hi]]; [None] is an omitted bound. *)
Definition slice {A} (s : list A) (lo hi : option Z) : list A :=
  let n := len s in
  let a := match lo with Some i => clamp n i | None => 0 end in
  let b := match hi with Some j => clamp n j | None => n end in
  firstn (Z.to_nat (b - a)) (skipn (Z.to_nat a) s).

(** [range(start, stop, step)]; [None] is the [ValueError] of a zero step. *)
Definition range (start stop step : Z) : option (list Z) :=
  if step =? 0 then None
  else
    let count :=
      if 0 <? step
      then (if start <? stop then (stop - start - 1) / step + 1 else 0)
      else (if stop <? start then (start - stop - 1) / (- step) + 1 else 0) in
    Some (map (fun k => start + Z.of_nat k * step) (seq 0 (Z.to_nat count))).

(** [c.isspace()] for a single code point, as used by [str.strip()]. *)
Definition isspace (c : N) : bool :=
  (((9 <=? c) && (c <=? 13)) || ((28 <=? c) && (c <=? 32))
   || (c =? 133) || (c =? 160) || (c =? 5760)
   || ((8192 <=? c) && (c <=? 8202))
   || (c =? 8232) || (c =? 8233) || (c =? 8239) || (c =? 8287)
   || (c =? 12288))%N.

Fixpoint lstrip (s : str) : str :=
  match s with
  | c :: s' => if isspace c then lstrip s' else s
  | [] => []
  end.

Definition rstrip (s : str) : str := rev (lstrip (rev s)).

Definition strip (s : str) : str := rstrip (lstrip s).

(** *** More of [str], [os.path] *)

Fixpoint str_eqb (a b : str) : bool :=
  match a, b with
  | [], [] => true
  | x :: a', y :: b' => (x =? y)%N && str_eqb a' b'
  | _, _ => false
  end.

Definition startswith (s prefix : str) : bool :=
  str_eqb (firstn (List.length prefix) s) prefix.

Definition endswith (s suffix : str) : bool :=
  (List.length suffix <=? List.length s)%nat
  && str_eqb (skipn (List.length s - List.length suffix) s) suffix.

Fixpoint drop_while (f : N -> bool) (s : str) : str :=
  match s with
  | c :: s' => if f c then drop_while f s' else s
  | [] => []
  end.

(** [s.rstrip(chars)] for a single character. *)
Definition rstrip_char (c : N) (s : str) : str :=
  rev (drop_while (N.eqb c) (rev s)).

(** [s.rfind(c)]: the last index of [c], or [-1]. *)
Fixpoint rfind_from (c : N) (s : str) (i last : Z) : Z :=
  match s with
  | [] => last
  | x :: s' => rfind_from c s' (i + 1) (if (x =? c)%N then i else last)
  end.

Definition rfind (c : N) (s : str) : Z := rfind_from c s 0 (-1).

Definition SLASH : N := 47%N.
Definition DOT : N := 46%N.

(** [posixpath.basename]: [i = p.rfind('/') + 1; return p[i:]]. *)
Definition basename (p : str) : str :=
  slice p (Some (rfind SLASH p + 1)) None.

(** [posixpath.splitext]: the extension starts at the last dot of the
    last path component, unless only dots come before it there. *)
Definition splitext (p : str) : str * str :=
  let sepIndex := rfind SLASH p in
  let dotIndex := rfind DOT p in
  if (sepIndex <? dotIndex)
     && existsb (fun c => negb (c =? DOT)%N)
                (slice p (Some (sepIndex + 1)) (Some dotIndex))
  then (slice p None (Some dotIndex), slice p (Some dotIndex) None)
  else (p, []).

(** [str.lower()]. An ASCII letter is mapped on its own; what a code
    point above 127 becomes is given by the Unicode tables (it may be
    several code points and may depend on the neighbours), here a
    function [lower_wide s i] of the whole string and the position. *)
Definition ascii_lower (c : N) : N :=
  if ((65 <=? c) && (c <=? 90))%N then (c + 32)%N else c.

Fixpoint lower_from (lower_wide : str -> nat -> str)
                    (whole : str) (i : nat) (s : str) : str :=
  match s with
  | [] => []
  | c :: s' =>
      (if (c <? 128)%N then [ascii_lower c] else lower_wide whole i)
        ++ lower_from lower_wide whole (S i) s'
  end.

Definition lower (lower_wide : str -> nat -> str) (s : str) : str :=
  lower_from lower_wide s 0 s.

(** Exceptions: the class and [str(e)]. Classes created by botocore for a
    service error code are [ClientError] with that code. *)
Inductive exn_class :=
| ValueError | KeyError | IndexError | RuntimeError | TimeoutError
| ClientError (code : str)
| OtherError (name : str).

Record exn := mkExn { exn_cls : exn_class; exn_str : str }.

Inductive Result (A : Type) :=
| Ok (a : A)
| Raise (e : exn).
Arguments Ok {A} a.
Arguments Raise {A} e.

End Py.

Import Py.

Definition NL : N := 10%N.

(* ===================================================================== *)
(** ** Chunker ([_split_paragraphs], [_chunk_text]) *)
(* ===================================================================== *)

Module Chunker.

(** [re.split(r"\n{2,}", s)]: [cur] is the part being read, [nl] the
    number of newlines seen since its last other character. *)
Fixpoint re_split_blank (s cur : str) (nl : nat) : list str :=
  match s with
  | [] => if (2 <=? nl)%nat then [cur; []] else [cur ++ repeat NL nl]
  | c :: s' =>
      if (c =? NL)%N then re_split_blank s' cur (S nl)
      else if (2 <=? nl)%nat then cur :: re_split_blank s' [c] 0
      else re_split_blank s' (cur ++ repeat NL nl ++ [c]) 0
  end.

Definition _split_paragraphs (text : str) : list str :=
  let parts := re_split_blank (strip text) [] 0 in
  map strip (filter (fun p => truthy (strip p)) parts).

Section Params.
Variables target_chars max_chars overlap_chars : Z.

(** Loop state: the list [chunks] and the buffer [cur]. *)
Definition state := (list str * str)%type.

(** One iteration of [for i in range(0, len(p), target_chars)]. *)
Definition hard_split_step (p : str) (st : state) (i : Z) : state :=
  let '(chunks, cur) := st in
  let piece := slice p (Some i) (Some (i + target_chars)) in
  let '(chunks, cur) :=
    if truthy cur then (chunks ++ [cur], []) else (chunks, cur) in
  (chunks ++ [piece], cur).

(** One iteration of [for p in paras]. *)
Definition para_step (st : state) (p0 : str) : Result state :=
  let '(chunks, cur) := st in
  let p := p0 ++ [NL] in
  if len cur + len p <=? target_chars then Ok (chunks, cur ++ p)
  else if max_chars <? len p then
    match range 0 (len p) target_chars with
    | None => Raise (mkExn ValueError (lit "range() arg 3 must not be zero"))
    | Some idx => Ok (fold_left (hard_split_step p) idx (chunks, cur))
    end
  else
    let '(chunks, cur) :=
      if truthy cur
      then (chunks ++ [cur],
            slice cur (Some (Z.max 0 (len cur - overlap_chars))) None)
      else (chunks, cur) in
    Ok (chunks, cur ++ p).

Fixpoint para_loop (paras : list str) (st : state) : Result state :=
  match paras with
  | [] => Ok st
  | p :: rest =>
      match para_step st p with
      | Ok st' => para_loop rest st'
      | Raise e => Raise e
      end
  end.

(** The final flush after the loop. *)
Definition flush (st : state) : list str :=
  let '(chunks, cur) := st in
  if truthy cur then chunks ++ [slice cur None (Some max_chars)] else chunks.

Definition chunk_paras (paras : list str) : Result (list str) :=
  match para_loop paras ([], []) with
  | Ok st => Ok (flush st)
  | Raise e => Raise e
  end.

Definition _chunk_text (text : str) : Result (list str) :=
  chunk_paras (_split_paragraphs text).

(** What [chunks.append(cur)] under [if cur:] adds to the list. *)
Definition emit (cur : str) : list str :=
  if truthy cur then [cur] else [].

(** The slices the hard-split loop takes of [p]. *)
Definition hard_pieces (p : str) : list str :=
  match range 0 (len p) target_chars with
  | Some idx => map (fun i => slice p (Some i) (Some (i + target_chars))) idx
  | None => []
  end.

(** No chunk and no buffer is longer than [max_chars + overlap_chars]. *)
Definition bounded (st : state) : Prop :=
  Forall (fun c => len c <= max_chars + overlap_chars) (fst st)
  /\ len (snd st) <= max_chars + overlap_chars.

(** Chunks already emitted stay in front of whatever the loop adds. *)
Definition shift (pre : list str) (r : Result state) : Result state :=
  match r with
  | Ok (chunks, cur) => Ok (pre ++ chunks, cur)
  | Raise e => Raise e
  end.

End Params.

(** [q] is what remains of [r] after the chunks in [pre]. *)
Definition prepend (pre : list str) (r : Result (list str)) : Result (list str) :=
  match r with
  | Ok chunks => Ok (pre ++ chunks)
  | Raise e => Raise e
  end.

(** ["\n\n".join(paras)]. *)
Fixpoint join_blank (paras : list str) : str :=
  match paras with
  | [] => []
  | p :: rest =>
      match rest with
      | [] => p
      | _ :: _ => p ++ [NL; NL] ++ join_blank rest
      end
  end.

(** Two newlines in a row somewhere in [s]. *)
Fixpoint has_blank_line (s : str) : bool :=
  match s with
  | [] => false
  | c :: s' =>
      match s' with
      | [] => false
      | d :: _ => ((c =? NL) && (d =? NL))%N || has_blank_line s'
      end
  end.

(** A paragraph as [_split_paragraphs] returns them: not empty, no white
    space at either end, no blank line inside. *)
Definition clean (p : str) : Prop :=
  p <> []
  /\ isspace (hd 0%N p) = false
  /\ isspace (last p 0%N) = false
  /\ has_blank_line p = false.

(** The lengths of the chunks returned (none when the call raised). *)
Definition chunk_lengths (r : Result (list str)) : list Z :=
  match r with
  | Ok chunks => map len chunks
  | Raise _ => []
  end.

(** Ceiling of [n / d] for a positive [d]. *)
Definition ceil_div (n d : Z) : Z := (n + d - 1) / d.

(** [cur[:k]] and [cur[len(cur)-k:]]: the first and the last [k]
    characters. *)
Definition head_chars (k : Z) (c : str) : str := slice c None (Some k).
Definition tail_chars (k : Z) (c : str) : str := slice c (Some (len c - k)) None.

(** One paragraph of 6400 characters, twice the default target. *)
Definition long_paragraph : str := repeat 97%N (64 * 100).

(** A paragraph of 3000 characters, one of 3999 and a short one. *)
Definition overlong_text : str :=
  repeat 97%N 3000 ++ [NL; NL] ++ repeat 98%N 3999 ++ [NL; NL] ++ [99%N].

(** The defaults of [_chunk_text]'s signature. *)
Definition _chunk_text_default (text : str) : Result (list str) :=
  _chunk_text 3200 4000 200 text.

End Chunker.

(* ===================================================================== *)
(** ** The S3 notification both handlers receive *)
(* ===================================================================== *)

Module S3Event.

(** One entry of [event["Records"]]. A field holds what the subscript
    chain evaluates to: the string, or the exception ([KeyError],
    [TypeError]) raised on a record that lacks it. *)
Record S3Rec := mkRec {
  bucket_name : Result str;   (* rec["s3"]["bucket"]["name"] *)
  object_key : Result str     (* rec["s3"]["object"]["key"] *)
}.

(** The event; [None] is an event without the ["Records"] key. *)
Record Event := mkEvent { Records : option (list S3Rec) }.

End S3Event.

(* ===================================================================== *)
(** ** Structured router ([lambda_structured_function.py]) *)
(* ===================================================================== *)

Module StructuredFn.
Import S3Event.

(** *** Dataset classifier *)

Definition is_sep (c : N) : bool := ((c =? 95) || (c =? 45) || (c =? 46))%N.

(** [re.split(r"[_\-.]", base, maxsplit=1)]. *)
Fixpoint re_split_sep1 (s acc : str) : list str :=
  match s with
  | [] => [acc]
  | c :: s' => if is_sep c then [acc; s'] else re_split_sep1 s' (acc ++ [c])
  end.

(** The class [[a-z0-9_]]. *)
Definition allowed (c : N) : bool :=
  (((97 <=? c) && (c <=? 122)) || ((48 <=? c) && (c <=? 57)) || (c =? 95))%N.

(** [re.sub(r"[^a-z0-9_]+", "_", s)]; [in_run] says that the previous
    character was outside the class. *)
Fixpoint re_sub_disallowed (s : str) (in_run : bool) : str :=
  match s with
  | [] => []
  | c :: s' =>
      if allowed c then c :: re_sub_disallowed s' false
      else if in_run then re_sub_disallowed s' true
      else 95%N :: re_sub_disallowed s' true
  end.

Section Classifier.
Variable lower_wide : str -> nat -> str.

Definition _dataset_from_key (key : str) : str :=
  let base := basename key in
  let m := re_split_sep1 base [] in
  let m0 :=
    match m with
    | first :: _ => if truthy first then first else fst (splitext base)
    | [] => fst (splitext base)
    end in
  let ds := lower lower_wide (strip m0) in
  let ds := re_sub_disallowed ds false in
  if truthy ds then ds else lit "dataset".
End Classifier.

(** *** Environment of the function *)

(** Module-level configuration read from the process environment. *)
Record Config := mkConfig {
  GLUE_JOB_NAME : str;
  GLUE_CRAWLER_NAME : str;
  BUCKET : str;
  OUTPUT_ROOT : str;
  STAGING_ROOT : str;
  ERROR_ROOT : str;
  ENABLE_CRAWLER : bool
}.

(** Requests sent to S3 and Glue, and lines printed. *)
Inductive Call :=
| CopyObject (Bucket : str) (CopySource : str * str) (Key : str)
             (Metadata : option (list (str * str)))
    (* [Metadata] present: MetadataDirective="REPLACE" *)
| DeleteObject (Bucket Key : str)
| StartCrawler (Name : str)
| StartJobRun (JobName : str) (Arguments : list (str * str))
| PrintEvent (event : Event)        (* print("[DEBUG] event:", json.dumps(event)) *)
| PrintSummary (dataset staged_key glue_job glue_run_id : str)
| Print (line : str).

Section Handler.
(** State of S3, Glue and the clock, and how they answer. *)
Variable Ext : Type.

Record Services := mkServices {
  s3_copy_object : str -> str * str -> str -> option (list (str * str)) ->
                   Ext -> Result unit * Ext;
  s3_delete_object : str -> str -> Ext -> Result unit * Ext;
  glue_start_crawler : str -> Ext -> Result unit * Ext;
  glue_start_job_run : str -> list (str * str) -> Ext -> Result str * Ext;
  date_today : Ext -> str   (* datetime.date.today().isoformat() *)
}.

Variable svc : Services.
Variable cfg : Config.
Variable unquote : str -> str.            (* urllib.parse.unquote *)
Variable lower_wide : str -> nat -> str.

(** A run of a piece of the handler from a state of the services: how
    it ends, the state it leaves and the calls it made, in order. *)
Record Run (A : Type) := mkRun {
  outcome : Result A;
  final : Ext;
  calls : list Call
}.
Arguments mkRun {A} outcome final calls.
Arguments outcome {A} r.
Arguments final {A} r.
Arguments calls {A} r.

Definition M (A : Type) : Type := Ext -> Run A.

Definition ret {A} (a : A) : M A := fun x => mkRun (Ok a) x [].

Definition raise {A} (e : exn) : M A := fun x => mkRun (Raise e) x [].

Definition bind {A B} (m : M A) (k : A -> M B) : M B :=
  fun x =>
    let r := m x in
    match outcome r with
    | Ok a =>
        let r' := k a (final r) in
        mkRun (outcome r') (final r') (calls r ++ calls r')
    | Raise e => mkRun (Raise e) (final r) (calls r)
    end.

(** [try: m  except Exception as e: h e]. *)
Definition try_except {A} (m : M A) (h : exn -> M A) : M A :=
  fun x =>
    let r := m x in
    match outcome r with
    | Ok a => r
    | Raise e =>
        let r' := h e (final r) in
        mkRun (outcome r') (final r') (calls r ++ calls r')
    end.

(** A request: recorded, and answered by the service. *)
Definition request {A} (c : Call) (answer : Ext -> Result A * Ext) : M A :=
  fun x => let '(r, x') := answer x in mkRun r x' [c].

Definition emit_line (c : Call) : M unit :=
  fun x => mkRun (Ok tt) x [c].

Definition print (line : str) : M unit := emit_line (Print line).

Definition copy_object Bucket CopySource Key Metadata : M unit :=
  request (CopyObject Bucket CopySource Key Metadata)
          (s3_copy_object svc Bucket CopySource Key Metadata).

Definition delete_object Bucket Key : M unit :=
  request (DeleteObject Bucket Key) (s3_delete_object svc Bucket Key).

Definition start_crawler Name : M unit :=
  request (StartCrawler Name) (glue_start_crawler svc Name).

Definition start_job_run JobName Arguments : M str :=
  request (StartJobRun JobName Arguments)
          (glue_start_job_run svc JobName Arguments).

Definition _today_yyyy_mm_dd : M str :=
  fun x => mkRun (Ok (date_today svc x)) x [].

Definition _copy_then_delete (src_bucket src_key dest_bucket dest_key : str)
  : M unit :=
  bind (copy_object dest_bucket (src_bucket, src_key) dest_key None) (fun _ =>
  delete_object src_bucket src_key).

Definition _move_to_errors (src_bucket src_key reason : str) : M unit :=
  let base := basename src_key in
  bind _today_yyyy_mm_dd (fun today =>
  let err_key := ERROR_ROOT cfg ++ lit "/" ++ today ++ lit "/" ++ base in
  bind (copy_object src_bucket (src_bucket, src_key) err_key
          (Some [(lit "ingest_error", slice reason None (Some 255))])) (fun _ =>
  bind (delete_object src_bucket src_key) (fun _ =>
  print (lit "[ERROR] moved to " ++ err_key ++ lit " because: " ++ reason)))).

Definition is_client_error (e : exn) : bool :=
  match exn_cls e with ClientError _ => true | _ => false end.

Definition _start_crawler (dataset : str) : M unit :=
  let name := if truthy (GLUE_CRAWLER_NAME cfg) then GLUE_CRAWLER_NAME cfg
              else lit "crawler-" ++ dataset in
  try_except
    (bind (start_crawler name) (fun _ =>
     print (lit "[INFO] started crawler: " ++ name)))
    (fun e =>
       match exn_cls e with
       | ClientError code =>
           if str_eqb code (lit "CrawlerRunningException")
           then print (lit "[INFO] crawler already running: " ++ name)
           else if str_eqb code (lit "EntityNotFoundException")
           then print (lit "[WARN] crawler not found: " ++ name ++ lit " (skipping)")
           else print (lit "[WARN] start_crawler failed: " ++ exn_str e)
       | _ => raise e
       end).

Definition _start_glue_job (dataset staging_prefix output_prefix : str) : M str :=
  let args :=
    [ (lit "--dataset", dataset);
      (lit "--staging_path", lit "s3://" ++ BUCKET cfg ++ lit "/" ++ staging_prefix);
      (lit "--output_path", lit "s3://" ++ BUCKET cfg ++ lit "/" ++ output_prefix);
      (lit "--redshift_table", dataset);
      (lit "--load_mode", lit "append") ] in
  bind (start_job_run (GLUE_JOB_NAME cfg) args) (fun run_id =>
  bind (print (lit "[INFO] started glue job " ++ GLUE_JOB_NAME cfg
                 ++ lit ", runId=" ++ run_id)) (fun _ =>
  ret run_id)).

Definition valid_ext (ext : str) : bool :=
  str_eqb ext (lit ".csv") || str_eqb ext (lit ".json").

(** The [try] body from the extension test on, [src_bucket] and
    [src_key] being assigned. *)
Definition stage (src_bucket src_key : str) : M unit :=
  let ext := snd (splitext (lower lower_wide src_key)) in
  if negb (valid_ext ext)
  then print (lit "[INFO] ignoring non-csv/json key: " ++ src_key)
  else if negb (str_eqb src_bucket (BUCKET cfg))
  then print (lit "[WARN] event for different bucket " ++ src_bucket
                ++ lit ", expected " ++ BUCKET cfg ++ lit "; skipping")
  else
    let dataset := _dataset_from_key lower_wide src_key in
    bind _today_yyyy_mm_dd (fun ingest_date =>
    let dest_key := STAGING_ROOT cfg ++ lit "/" ++ dataset
                      ++ lit "/ingest_date=" ++ ingest_date
                      ++ lit "/" ++ basename src_key in
    bind (print (lit "[INFO] staging " ++ src_key ++ lit " -> " ++ dest_key)) (fun _ =>
    bind (_copy_then_delete (BUCKET cfg) src_key (BUCKET cfg) dest_key) (fun _ =>
    bind (if ENABLE_CRAWLER cfg then _start_crawler dataset else ret tt) (fun _ =>
    let staging_prefix := STAGING_ROOT cfg ++ lit "/" ++ dataset ++ lit "/" in
    let output_prefix := OUTPUT_ROOT cfg ++ lit "/" ++ dataset ++ lit "/" in
    bind (_start_glue_job dataset staging_prefix output_prefix) (fun run_id =>
    emit_line (PrintSummary dataset dest_key (GLUE_JOB_NAME cfg) run_id)))))).

(** The [except Exception as e] block; [src_key] is the local variable
    as it stands when the exception arrives ([None]: not yet bound). *)
Definition on_exception (src_key : option str) (e : exn) : M unit :=
  bind (try_except
          (match src_key with
           | Some k => if truthy k
                       then _move_to_errors (BUCKET cfg) k (exn_str e)
                       else ret tt
           | None => ret tt
           end)
          (fun move_err =>
             print (lit "[FATAL] could not move to errors: " ++ exn_str move_err)))
       (fun _ => raise e).

(** One iteration of [for rec in ...]. The function's locals outlive an
    iteration, so [src_key] comes in as the previous iteration left it
    and goes out as this one leaves it. *)
Definition handle_record (src_key : option str) (rec : S3Rec)
  : M (option str) :=
  match bucket_name rec with
  | Raise e => bind (on_exception src_key e) (fun _ => ret src_key)
  | Ok src_bucket =>
      match object_key rec with
      | Raise e => bind (on_exception src_key e) (fun _ => ret src_key)
      | Ok raw_key =>
          let k := unquote raw_key in
          bind (try_except (stage src_bucket k) (on_exception (Some k)))
               (fun _ => ret (Some k))
      end
  end.

Fixpoint for_records (recs : list S3Rec) (src_key : option str) : M unit :=
  match recs with
  | [] => ret tt
  | rec :: rest =>
      bind (handle_record src_key rec) (fun src_key' =>
      for_records rest src_key')
  end.

(** The iterations of [for rec in ...] one by one, a run for each record
    reached: the first starts from [x] with [src_key], each next one from
    the state and the [src_key] the one before it left, and the list ends
    with the first run that raises. *)
Fixpoint record_runs (recs : list S3Rec) (src_key : option str) (x : Ext)
  : list (Run (option str)) :=
  match recs with
  | [] => []
  | rec :: rest =>
      let r := handle_record src_key rec x in
      r :: match outcome r with
           | Ok src_key' => record_runs rest src_key' (final r)
           | Raise _ => []
           end
  end.

(** The value returned: [{"ok": True}]. *)
Inductive Response := OkTrue.

Definition lambda_handler (event : Event) : M Response :=
  bind (emit_line (PrintEvent event)) (fun _ =>
  bind (for_records (match Records event with Some l => l | None => [] end) None)
       (fun _ =>
  ret OkTrue)).

(** Every [DeleteObject] in the list of calls comes right after a
    [CopyObject] from the bucket and key it deletes; [prev] is the call
    before the list. *)
Fixpoint delete_follows_copy (prev : option Call) (l : list Call) : bool :=
  match l with
  | [] => true
  | c :: l' =>
      match c with
      | DeleteObject b k =>
          match prev with
          | Some (CopyObject _ src _ _) => str_eqb (fst src) b && str_eqb (snd src) k
          | _ => false
          end
      | _ => true
      end && delete_follows_copy (Some c) l'
  end.

(** A piece of the handler whose calls, put after any call, keep every
    delete behind its copy. *)
Definition careful {A} (m : M A) : Prop :=
  forall x prev, delete_follows_copy prev (calls (m x)) = true.

(** A record the handler passes over: a key that is not [.csv] or [.json],
    or another bucket. *)
Definition skipped (rec : S3Rec) : Prop :=
  exists b raw,
    bucket_name rec = Ok b /\ object_key rec = Ok raw
    /\ (valid_ext (snd (splitext (lower lower_wide (unquote raw)))) = false
        \/ str_eqb b (BUCKET cfg) = false).

End Handler.

Arguments mkRun {Ext A} outcome final calls.
Arguments outcome {Ext A} r.
Arguments final {Ext A} r.
Arguments calls {Ext A} r.

(** *** An in-memory S3 and Glue *)

(** The keys present in the bucket, whether the Glue job exists, and the
    number of job runs started. *)
Record Sim := mkSim { keys : list str; job_exists : bool; runs : nat }.

Definition has_key (k : str) (s : Sim) : bool := existsb (str_eqb k) (keys s).

Definition sim_services : Services Sim :=
  {| s3_copy_object := fun _ src key _ s =>
       if has_key (snd src) s
       then (Ok tt, mkSim (key :: keys s) (job_exists s) (runs s))
       else (Raise (mkExn (ClientError (lit "NoSuchKey"))
                          (lit "The specified key does not exist.")), s);
     s3_delete_object := fun _ key s =>
       (Ok tt, mkSim (filter (fun k => negb (str_eqb key k)) (keys s))
                     (job_exists s) (runs s));
     glue_start_crawler := fun _ s => (Ok tt, s);
     glue_start_job_run := fun _ _ s =>
       if job_exists s
       then (Ok (lit "jr_1"), mkSim (keys s) (job_exists s) (S (runs s)))
       else (Raise (mkExn (ClientError (lit "EntityNotFoundException"))
                          (lit "Job not found")), s);
     date_today := fun _ => lit "2025-09-22" |}.

Definition sim_config : Config :=
  {| GLUE_JOB_NAME := lit "capstone-structured-etl";
     GLUE_CRAWLER_NAME := [];
     BUCKET := lit "data";
     OUTPUT_ROOT := lit "processed/structured";
     STAGING_ROOT := lit "staging/structured";
     ERROR_ROOT := lit "errors/structured";
     ENABLE_CRAWLER := true |}.

(** No percent escapes in the keys used below. *)
Definition sim_unquote (s : str) : str := s.
Definition sim_lower_wide (s : str) (i : nat) : str := [].

Definition sim_rec (key : str) : S3Rec := mkRec (Ok (lit "data")) (Ok key).

Definition sim_handler (recs : list S3Rec) (s : Sim) : Run Sim Response :=
  lambda_handler Sim sim_services sim_config sim_unquote sim_lower_wide
                 (mkEvent (Some recs)) s.

(** The service requests in a log, without the printed lines. *)
Definition is_request (c : Call) : bool :=
  match c with
  | CopyObject _ _ _ _ | DeleteObject _ _ | StartCrawler _ | StartJobRun _ _ => true
  | _ => false
  end.

(** An ASCII letter or digit. *)
Definition ascii_alnum (c : N) : bool :=
  (((48 <=? c) && (c <=? 57)) || ((65 <=? c) && (c <=? 90))
   || ((97 <=? c) && (c <=? 122)))%N.

End StructuredFn.

(* ===================================================================== *)
(** ** Unstructured router ([lambda_pdf_function.py]) *)
(* ===================================================================== *)

Module PdfFn.
Import S3Event.

(** [str(n)] for an [int]. *)
Definition str_of_int (n : Z) : str :=
  lit (NilEmpty.string_of_int (Z.to_int n)).

(** A block of a Textract result page: [b.get("BlockType")] and, when
    the key is there, [b["Text"]]. *)
Record Block := mkBlock { BlockType : option str; Text : option str }.

(** A response of [get_document_text_detection]. *)
Record Detection := mkDetection {
  JobStatus : str;
  Blocks : list Block;          (* resp.get("Blocks", []) *)
  NextToken : option str        (* resp.get("NextToken") *)
}.

(** The two statements sent to the database. *)
Inductive Stmt :=
| InsertDocument (s3 t : str)
| InsertChunk (d i s e : Z) (t : str).

(** Environment variables read when the functions run. *)
Record Config := mkConfig {
  TEXTRACT_MAX_POLL_SECONDS : Z;  (* int(os.getenv(..., "180")) *)
  OS_ENDPOINT : str;              (* os.environ.get("OS_ENDPOINT", "") *)
  OS_INDEX : str                  (* os.environ.get("OS_INDEX", "pdf-chunks") *)
}.

Definition EMBED_DIM : Z := 1024.

Section Handler.
Variable Ext : Type.          (* state of the services *)
Variable Vec : Type.          (* an embedding, [list[float]] *)

(** One entry of the bulk request: the document indexed for a chunk. *)
Record BulkDoc := mkBulkDoc {
  bd_s3_uri : str; bd_doc_id : Z; bd_chunk_index : Z; bd_text : str;
  bd_embedding : Vec
}.

(** Requests sent to S3, Textract, Bedrock, PostgreSQL and OpenSearch,
    and the sleep between two polls. *)
Inductive Call :=
| HeadObject (Bucket Key : str)
| StartDetection (Bucket Name : str)
| GetDetection (JobId : str) (NextToken : option str)
| Sleep (seconds : Z)
| InvokeModel (inputText : str)
| PgConnect
| PgRun (stmt : Stmt)
| PgClose
| OsHead (url : str)
| OsPut (url : str) (dimension : Z)
| OsBulk (url : str) (index_name : str) (docs : list BulkDoc).

(** How the services answer. An HTTP request answers with its status
    code; signing the request is part of the request. *)
Record Services := mkServices {
  s3_head_object : str -> str -> Ext -> Result unit * Ext;
  textract_start : str -> str -> Ext -> Result str * Ext;
  textract_get : str -> option str -> Ext -> Result Detection * Ext;
  time_sleep : Z -> Ext -> Ext;
  bedrock_invoke : str -> Ext -> Result Vec * Ext;
  pg_connect : Ext -> Result unit * Ext;
  pg_run : Stmt -> Ext -> Result (list (list Z)) * Ext;
  pg_close : Ext -> Result unit * Ext;
  os_head : str -> Ext -> Result Z * Ext;
  os_put : str -> Z -> Ext -> Result Z * Ext;
  os_bulk : str -> str -> list BulkDoc -> Ext -> Result Z * Ext
}.

Variable svc : Services.
Variable cfg : Config.
Variable unquote : str -> str.              (* urllib.parse.unquote *)
(** [urllib.parse.urlparse(u).path]; [urlparse] raises [ValueError] for a
    URL it cannot split (an unclosed bracket in the host, say). *)
Variable urlparse_path : str -> Result str.
Variable repr_detection : Detection -> str. (* f"{resp}" *)
Variable lower_wide : str -> nat -> str.

(** A run from a state of the services: how it ends ([None]: a loop
    driven by the service was still going when the fuel ran out), the
    state it leaves and the calls it made, in order. *)
Record Run (A : Type) := mkRun {
  outcome : option (Result A);
  final : Ext;
  calls : list Call
}.
Arguments mkRun {A} outcome final calls.
Arguments outcome {A} r.
Arguments final {A} r.
Arguments calls {A} r.

Definition M (A : Type) : Type := Ext -> Run A.

Definition ret {A} (a : A) : M A := fun x => mkRun (Some (Ok a)) x [].

Definition raise {A} (e : exn) : M A := fun x => mkRun (Some (Raise e)) x [].

Definition unfinished {A} : M A := fun x => mkRun None x [].

Definition bind {A B} (m : M A) (k : A -> M B) : M B :=
  fun x =>
    let r := m x in
    match outcome r with
    | Some (Ok a) =>
        let r' := k a (final r) in
        mkRun (outcome r') (final r') (calls r ++ calls r')
    | Some (Raise e) => mkRun (Some (Raise e)) (final r) (calls r)
    | None => mkRun None (final r) (calls r)
    end.

(** [try: m  except Exception as e: h e]. *)
Definition try_except {A} (m : M A) (h : exn -> M A) : M A :=
  fun x =>
    let r := m x in
    match outcome r with
    | Some (Raise e) =>
        let r' := h e (final r) in
        mkRun (outcome r') (final r') (calls r ++ calls r')
    | _ => r
    end.

(** [try: m  finally: f], for an [f] that does not raise. *)
Definition try_finally {A} (m : M A) (f : M unit) : M A :=
  fun x =>
    let r := m x in
    match outcome r with
    | None => r
    | Some o =>
        let r' := f (final r) in
        mkRun (match outcome r' with
               | Some (Ok _) => Some o
               | Some (Raise e) => Some (Raise e)
               | None => None
               end) (final r') (calls r ++ calls r')
    end.

Definition request {A} (c : Call) (answer : Ext -> Result A * Ext) : M A :=
  fun x => let '(r, x') := answer x in mkRun (Some r) x' [c].

Definition lift {A} (r : Result A) : M A :=
  match r with Ok a => ret a | Raise e => raise e end.

(** *** OpenSearch *)

Definition _os_endpoint : str :=
  let ep := rstrip_char SLASH (OS_ENDPOINT cfg) in
  if startswith ep (lit "https://") then ep
  else if truthy ep then lit "https://" ++ ep else [].

(** [r.raise_for_status()]. *)
Definition raise_for_status (status : Z) : M unit :=
  if (400 <=? status) && (status <? 600)
  then raise (mkExn (OtherError (lit "HTTPError")) (str_of_int status))
  else ret tt.

Definition _os_ensure_index (index_name : str) (dim : Z) : M bool :=
  let ep := _os_endpoint in
  if negb (truthy ep) then ret false
  else
    try_except
      (bind (request (OsHead (ep ++ lit "/" ++ index_name))
                     (os_head svc (ep ++ lit "/" ++ index_name))) (fun status =>
       if status =? 200 then ret true
       else if status =? 404 then
         bind (request (OsPut (ep ++ lit "/" ++ index_name) dim)
                       (os_put svc (ep ++ lit "/" ++ index_name) dim)) (fun st =>
         bind (raise_for_status st) (fun _ => ret true))
       else ret false))
      (fun _ => ret false).

(** [enumerate(zip(chunks, vectors))] turned into the documents. *)
Fixpoint bulk_docs (s3_uri : str) (doc_id : Z) (i : Z)
                   (pairs : list (str * Vec)) : list BulkDoc :=
  match pairs with
  | [] => []
  | (text, vec) :: rest =>
      mkBulkDoc s3_uri doc_id i text vec :: bulk_docs s3_uri doc_id (i + 1) rest
  end.

Definition os_index_chunks (index_name s3_uri : str) (doc_id : Z)
    (chunks : list str) (vectors : list Vec) : M unit :=
  let ep := _os_endpoint in
  if negb (truthy ep) then ret tt
  else
    bind (_os_ensure_index index_name EMBED_DIM) (fun ready =>
    if negb ready then ret tt
    else
      try_except
        (let docs := bulk_docs s3_uri doc_id 0 (combine chunks vectors) in
         bind (request (OsBulk (ep ++ lit "/_bulk") index_name docs)
                       (os_bulk svc (ep ++ lit "/_bulk") index_name docs))
              raise_for_status)
        (fun _ => ret tt)).

(** *** Database *)

(** [for i, c in enumerate(chunks)], with [i] and [offset] as they stand
    at the head of the loop. *)
Fixpoint insert_chunks (doc_id : Z) (chunks : list str) (i offset : Z) : M unit :=
  match chunks with
  | [] => ret tt
  | c :: rest =>
      let start := offset in
      let end_ := start + len c in
      bind (request (PgRun (InsertChunk doc_id i start end_ c))
                    (pg_run svc (InsertChunk doc_id i start end_ c))) (fun _ =>
      insert_chunks doc_id rest (i + 1) end_)
  end.

(** The two [INSERT]s of [store_document_and_chunks], for the title [t]. *)
Definition insert_rows (s3_uri t : str) (chunks : list str) : M Z :=
  bind (request (PgRun (InsertDocument s3_uri t))
                (pg_run svc (InsertDocument s3_uri t))) (fun rows =>
  match rows with
  | [row] =>
      match row with
      | doc_id :: _ =>
          bind (insert_chunks doc_id chunks 0 0) (fun _ => ret doc_id)
      | [] => raise (mkExn IndexError (lit "list index out of range"))
      end
  | _ => raise (mkExn ValueError (lit "wrong number of values to unpack"))
  end).

(** Its [finally] block: [conn.close()], exceptions passed over. *)
Definition close_quietly : M unit :=
  try_except (request PgClose (pg_close svc)) (fun _ => ret tt).

(** [title or os.path.basename(urllib.parse.urlparse(s3_uri).path)]: the
    URI is parsed only when there is no title. *)
Definition doc_title (s3_uri : str) (title : option str) : Result str :=
  let from_uri := match urlparse_path s3_uri with
                  | Ok path => Ok (basename path)
                  | Raise e => Raise e
                  end in
  match title with
  | Some t => if truthy t then Ok t else from_uri
  | None => from_uri
  end.

(** The title is an argument of the first [conn.run], inside the [try]:
    it is computed once the connection is there. *)
Definition store_document_and_chunks (s3_uri : str) (chunks : list str)
    (title : option str) : M Z :=
  bind (request PgConnect (pg_connect svc)) (fun _ =>
  try_finally
    (bind (lift (doc_title s3_uri title)) (fun t => insert_rows s3_uri t chunks))
    close_quietly).

(** *** Embeddings *)

Definition embed_text (text : str) : M Vec :=
  request (InvokeModel text) (bedrock_invoke svc text).

Fixpoint embed_all (chunks : list str) (vectors : list Vec) : M (list Vec) :=
  match chunks with
  | [] => ret vectors
  | c :: rest =>
      bind (embed_text c) (fun v => embed_all rest (vectors ++ [v]))
  end.

(** *** Textract *)

Definition get_detection (job_id : str) (token : option str) : M Detection :=
  request (GetDetection job_id token) (textract_get svc job_id token).

(** The [while True] loop, entered with [waited]. *)
Fixpoint poll (fuel : nat) (job_id : str) (waited : Z) : M Detection :=
  match fuel with
  | O => unfinished
  | S fuel' =>
      bind (get_detection job_id None) (fun resp =>
      let status := JobStatus resp in
      if str_eqb status (lit "SUCCEEDED") then ret resp
      else if str_eqb status (lit "FAILED")
      then raise (mkExn RuntimeError
                    (lit "Textract job failed: " ++ repr_detection resp))
      else if TEXTRACT_MAX_POLL_SECONDS cfg <=? waited
      then raise (mkExn TimeoutError
                    (lit "Textract timed out after " ++ str_of_int waited
                       ++ lit "s (job_id=" ++ job_id ++ lit ")"))
      else
        bind (fun x => mkRun (Some (Ok tt)) (time_sleep svc 2 x) [Sleep 2])
             (fun _ => poll fuel' job_id (waited + 2)))
  end.

(** The [while next_token] loop. *)
Fixpoint paginate (fuel : nat) (job_id : str) (next_token : option str)
                  (blocks : list Block) : M (list Block) :=
  match next_token with
  | None => ret blocks
  | Some token =>
      if negb (truthy token) then ret blocks
      else
        match fuel with
        | O => unfinished
        | S fuel' =>
            bind (get_detection job_id (Some token)) (fun resp =>
            paginate fuel' job_id (NextToken resp) (blocks ++ Blocks resp))
        end
  end.

(** ["\n".join(lines)]. *)
Fixpoint join_lines (lines : list str) : str :=
  match lines with
  | [] => []
  | [l] => l
  | l :: rest => l ++ [NL] ++ join_lines rest
  end.

Definition line_text (b : Block) : list str :=
  match BlockType b, Text b with
  | Some ty, Some t => if str_eqb ty (lit "LINE") then [t] else []
  | _, _ => []
  end.

Definition _textract_text (fuel : nat) (bucket key : str) : M str :=
  bind (request (HeadObject bucket key) (s3_head_object svc bucket key)) (fun _ =>
  bind (request (StartDetection bucket key) (textract_start svc bucket key))
       (fun job_id =>
  bind (poll fuel job_id 0) (fun resp =>
  bind (paginate fuel job_id (NextToken resp) (Blocks resp)) (fun blocks =>
  ret (join_lines (flat_map line_text blocks)))))).

(** *** Handler *)

Inductive Response :=
| Skip (key : str)                       (* {"skip": True, "reason": ..., "key": key} *)
| Stored (s3 : str) (document_id chunks : Z).  (* {"status": "ok", ...} *)

Definition pipeline (fuel : nat) (event : Event) : M Response :=
  match Records event with
  | None => raise (mkExn KeyError (lit "'Records'"))
  | Some [] => raise (mkExn IndexError (lit "list index out of range"))
  | Some (record :: _) =>
      bind (lift (bucket_name record)) (fun bucket =>
      bind (lift (object_key record)) (fun raw_key =>
      let key := unquote raw_key in
      if negb (endswith (lower lower_wide key) (lit ".pdf")) then ret (Skip key)
      else
        bind (_textract_text fuel bucket key) (fun text =>
        bind (lift (Chunker._chunk_text_default text)) (fun chunks =>
        bind (embed_all chunks []) (fun vectors =>
        let s3_uri := lit "s3://" ++ bucket ++ lit "/" ++ key in
        bind (store_document_and_chunks s3_uri chunks None) (fun doc_id =>
        bind (os_index_chunks (OS_INDEX cfg) s3_uri doc_id chunks vectors) (fun _ =>
        ret (Stored s3_uri doc_id (len chunks)))))))))
  end.

(** Both [except] clauses log and raise again. *)
Definition lambda_handler (fuel : nat) (event : Event) : M Response :=
  try_except (pipeline fuel event) (fun e => raise e).

End Handler.

Arguments mkRun {Ext Vec A} outcome final calls.
Arguments outcome {Ext Vec A} r.
Arguments final {Ext Vec A} r.
Arguments calls {Ext Vec A} r.
Arguments PgRun {Vec} stmt.
Arguments PgConnect {Vec}.
Arguments PgClose {Vec}.
Arguments GetDetection {Vec} JobId NextToken.
Arguments Sleep {Vec} seconds.

(** *** A scripted Textract and an autocommit PostgreSQL *)

Record ChunkRow := mkChunkRow {
  document_id : Z; chunk_index : Z; char_start : Z; char_end : Z; text : str
}.

(** [script]: the statuses Textract will answer, one per request, and
    the status ["RUNNING"] for ever after; [slept]: the seconds slept;
    [documents] and [doc_chunks]: the rows of the two tables;
    [next_id]: the next value of the [documents.id] sequence. *)
Record Sim := mkSim {
  script : list str;
  slept : Z;
  documents : list (Z * str * str);
  doc_chunks : list ChunkRow;
  next_id : Z
}.

Definition sim_vec : Type := list Z.

(** The connection is pg8000's native one and the function sends no
    [START TRANSACTION]: the server runs every statement in a transaction
    of its own, so a row inserted stays. [rejects] tells which statements
    the server refuses. *)
Definition sim_pg_run (rejects : Stmt -> bool) (stmt : Stmt) (s : Sim)
  : Result (list (list Z)) * Sim :=
  if rejects stmt
  then (Raise (mkExn (OtherError (lit "DatabaseError")) (lit "statement refused")), s)
  else
    match stmt with
    | InsertDocument s3 t =>
        (Ok [[next_id s]],
         mkSim (script s) (slept s) (documents s ++ [(next_id s, s3, t)])
               (doc_chunks s) (next_id s + 1))
    | InsertChunk d i st e t =>
        (Ok [],
         mkSim (script s) (slept s) (documents s)
               (doc_chunks s ++ [mkChunkRow d i st e t]) (next_id s))
    end.

Definition sim_textract_get (job_id : str) (token : option str) (s : Sim)
  : Result Detection * Sim :=
  match script s with
  | status :: rest =>
      (Ok (mkDetection status [] None),
       mkSim rest (slept s) (documents s) (doc_chunks s) (next_id s))
  | [] => (Ok (mkDetection (lit "RUNNING") [] None), s)
  end.

Definition sim_services (rejects : Stmt -> bool) : Services Sim sim_vec :=
  {| s3_head_object := fun _ _ s => (Ok tt, s);
     textract_start := fun _ _ s => (Ok (lit "job-1"), s);
     textract_get := sim_textract_get;
     time_sleep := fun n s =>
       mkSim (script s) (slept s + n) (documents s) (doc_chunks s) (next_id s);
     bedrock_invoke := fun _ s => (Ok [], s);
     pg_connect := fun s => (Ok tt, s);
     pg_run := sim_pg_run rejects;
     pg_close := fun s => (Ok tt, s);
     os_head := fun _ s => (Ok 200, s);
     os_put := fun _ _ s => (Ok 200, s);
     os_bulk := fun _ _ _ s => (Ok 200, s) |}.

Definition sim_config (max_wait : Z) : Config :=
  {| TEXTRACT_MAX_POLL_SECONDS := max_wait;
     OS_ENDPOINT := [];
     OS_INDEX := lit "pdf-chunks" |}.

Definition accept_all (stmt : Stmt) : bool := false.

(** PostgreSQL refuses a text value with a NUL character. *)
Definition rejects_nul (stmt : Stmt) : bool :=
  match stmt with
  | InsertDocument _ _ => false
  | InsertChunk _ _ _ _ t => existsb (N.eqb 0) t
  end.

Definition sim_repr (resp : Detection) : str := JobStatus resp.

Definition sim_start (statuses : list str) : Sim := mkSim statuses 0 [] [] 1.

(** The poll loop against the scripted Textract, from [waited = 0]. *)
Definition sim_poll (max_wait : Z) (fuel : nat) (s : Sim)
  : Run Sim sim_vec Detection :=
  poll Sim sim_vec (sim_services accept_all) (sim_config max_wait) sim_repr
       fuel (lit "job-1") 0 s.

(** The poll loop entered with any [waited]. *)
Definition sim_poll_from (max_wait : Z) (fuel : nat) (waited : Z) (s : Sim)
  : Run Sim sim_vec Detection :=
  poll Sim sim_vec (sim_services accept_all) (sim_config max_wait) sim_repr
       fuel (lit "job-1") waited s.

(** The URIs used below parse and have no query and no fragment: what
    follows their last slash is what follows the last slash of their
    path. *)
Definition sim_urlparse_path (uri : str) : Result str := Ok uri.

Definition sim_store (rejects : Stmt -> bool) (s3_uri : str)
    (chunks : list str) (s : Sim) : Run Sim sim_vec Z :=
  store_document_and_chunks Sim sim_vec (sim_services rejects)
    sim_urlparse_path s3_uri chunks None s.

Definition is_poll {Vec} (c : Call Vec) : bool :=
  match c with GetDetection _ None => true | _ => false end.

(** The number of status requests among the calls of a run. *)
Definition polls {Vec} (l : list (Call Vec)) : nat :=
  List.length (filter is_poll l).

(** The step of the handler a call belongs to: [# 1) Extract text],
    [# 3) Embed], [# 4) Store raw text chunks in RDS],
    [# 5. Send to OpenSearch]. *)
Inductive Phase := Extraction | Embedding | Persistence | Indexing.

Definition phase {Vec} (c : Call Vec) : Phase :=
  match c with
  | HeadObject _ _ _ | StartDetection _ _ _ | GetDetection _ _ | Sleep _ => Extraction
  | InvokeModel _ _ => Embedding
  | PgConnect | PgRun _ | PgClose => Persistence
  | OsHead _ _ | OsPut _ _ _ | OsBulk _ _ _ _ => Indexing
  end.

(** The handler against the scripted services, for one object of the
    bucket ["docs"]. *)
Definition sim_pdf_event (key : str) : Event :=
  mkEvent (Some [mkRec (Ok (lit "docs")) (Ok key)]).

Definition sim_pdf_handler (fuel : nat) (key : str) (s : Sim)
  : Run Sim sim_vec Response :=
  lambda_handler Sim sim_vec (sim_services accept_all) (sim_config 180)
    StructuredFn.sim_unquote sim_urlparse_path sim_repr StructuredFn.sim_lower_wide
    fuel (sim_pdf_event key) s.

(** A Textract that is done at the first poll and answers with one page:
    a [PAGE] block, which has no text, and a [LINE] block for each of
    [lines]. An embedding is the length of its text; OpenSearch has the
    index. *)
Definition sim_page_services (lines : list str) : Services Sim sim_vec :=
  {| s3_head_object := fun _ _ s => (Ok tt, s);
     textract_start := fun _ _ s => (Ok (lit "job-1"), s);
     textract_get := fun _ _ s =>
       (Ok (mkDetection (lit "SUCCEEDED")
              (mkBlock (Some (lit "PAGE")) None
                 :: map (fun l => mkBlock (Some (lit "LINE")) (Some l)) lines)
              None), s);
     time_sleep := fun n s =>
       mkSim (script s) (slept s + n) (documents s) (doc_chunks s) (next_id s);
     bedrock_invoke := fun text s => (Ok [len text], s);
     pg_connect := fun s => (Ok tt, s);
     pg_run := sim_pg_run accept_all;
     pg_close := fun s => (Ok tt, s);
     os_head := fun _ s => (Ok 200, s);
     os_put := fun _ _ s => (Ok 200, s);
     os_bulk := fun _ _ _ s => (Ok 200, s) |}.

Definition sim_page_config : Config :=
  {| TEXTRACT_MAX_POLL_SECONDS := 180;
     OS_ENDPOINT := lit "search.example/";
     OS_INDEX := lit "pdf-chunks" |}.

Definition sim_page_handler (lines : list str) (key : str) (s : Sim)
  : Run Sim sim_vec Response :=
  lambda_handler Sim sim_vec (sim_page_services lines) sim_page_config
    StructuredFn.sim_unquote sim_urlparse_path sim_repr StructuredFn.sim_lower_wide
    1 (sim_pdf_event key) s.

(** Two paragraphs of 1700 characters, a blank line between them. *)
Definition two_paragraph_page : list str :=
  [repeat 97%N 1700; []; repeat 98%N 1700].

Definition terminal (status : str) : bool :=
  str_eqb status (lit "SUCCEEDED") || str_eqb status (lit "FAILED").

Definition RUNNING : str := lit "RUNNING".
Definition SUCCEEDED : str := lit "SUCCEEDED".
Definition FAILED : str := lit "FAILED".

Definition timed_out (waited : Z) (job_id : str) : exn :=
  mkExn TimeoutError
    (lit "Textract timed out after " ++ str_of_int waited
       ++ lit "s (job_id=" ++ job_id ++ lit ")").

(** The sum of the lengths of some chunks. *)
Definition total_len (l : list str) : Z :=
  fold_right (fun c n => len c + n) 0 l.

(** The row for the chunk [c] at position [i] of [chunks]. *)
Definition chunk_stmt (doc_id : Z) (chunks : list str) (i : nat) (c : str) : Stmt :=
  InsertChunk doc_id (Z.of_nat i)
    (total_len (firstn i chunks)) (total_len (firstn i chunks) + len c) c.

Definition chunk_row (doc_id : Z) (chunks : list str) (i : nat) (c : str) : ChunkRow :=
  mkChunkRow doc_id (Z.of_nat i)
    (total_len (firstn i chunks)) (total_len (firstn i chunks) + len c) c.

(** [f i c] for every chunk [c] at its position [i], from position [i0]. *)
Fixpoint mapi {B} (f : nat -> str -> B) (i0 : nat) (l : list str) : list B :=
  match l with
  | [] => []
  | c :: rest => f i0 c :: mapi f (S i0) rest
  end.

End PdfFn.

(* ===================================================================== *)
(** ** Facts about the Python primitives *)
(* ===================================================================== *)

Module PyFacts.

Lemma len_nonneg {A} (s : list A) : 0 <= len s.
Proof. unfold len. lia. Qed.

Lemma len_app {A} (s t : list A) : len (s ++ t) = len s + len t.
Proof. unfold len. rewrite length_app. lia. Qed.

Lemma len_nil {A} : len (@nil A) = 0.
Proof. reflexivity. Qed.

Lemma len_cons {A} (a : A) s : len (a :: s) = 1 + len s.
Proof. unfold len. simpl List.length. lia. Qed.

Lemma truthy_true {A} (s : list A) : truthy s = true <-> s <> [].
Proof. destruct s; simpl; split; congruence. Qed.

Lemma truthy_false {A} (s : list A) : truthy s = false <-> s = [].
Proof. destruct s; simpl; split; congruence. Qed.

Lemma truthy_len {A} (s : list A) : truthy s = true <-> 0 < len s.
Proof.
  destruct s as [|a s]; unfold len; simpl; split; intros H; try lia; congruence.
Qed.

(** [s[i:i+t]] for a start inside the sequence. *)
Lemma slice_window {A} (s : list A) i t :
  0 <= i <= len s -> 0 <= t ->
  slice s (Some i) (Some (i + t)) = firstn (Z.to_nat t) (skipn (Z.to_nat i) s).
Proof.
  intros Hi Ht. unfold slice, clamp.
  destruct (Z.ltb_spec i 0); [lia|].
  destruct (Z.ltb_spec (i + t) 0); [lia|].
  rewrite (Z.min_l i) by lia.
  destruct (Z.le_gt_cases (i + t) (len s)).
  - rewrite Z.min_l by lia. f_equal. lia.
  - rewrite Z.min_r by lia.
    rewrite !firstn_all2; auto; rewrite length_skipn; unfold len in *; lia.
Qed.

(** [s[a:]] for [0 <= a]. *)
Lemma slice_from {A} (s : list A) a :
  0 <= a -> slice s (Some a) None = skipn (Z.to_nat a) s.
Proof.
  intros Ha. unfold slice, clamp.
  destruct (Z.ltb_spec a 0); [lia|].
  destruct (Z.le_gt_cases a (len s)).
  - rewrite Z.min_l by lia. apply firstn_all2. rewrite length_skipn. unfold len in *. lia.
  - rewrite Z.min_r by lia.
    rewrite !skipn_all2 by (unfold len in *; lia). apply firstn_nil.
Qed.

(** [s[:b]] for [0 <= b]. *)
Lemma slice_to {A} (s : list A) b :
  0 <= b -> slice s None (Some b) = firstn (Z.to_nat b) s.
Proof.
  intros Hb. unfold slice, clamp.
  destruct (Z.ltb_spec b 0); [lia|]. rewrite Z.sub_0_r. simpl skipn.
  destruct (Z.le_gt_cases b (len s)).
  - rewrite Z.min_l by lia. reflexivity.
  - rewrite Z.min_r by lia. rewrite !firstn_all2; auto; unfold len in *; lia.
Qed.

Lemma len_firstn {A} (s : list A) n : len (firstn n s) = Z.min (Z.of_nat n) (len s).
Proof. unfold len. rewrite length_firstn. lia. Qed.

Lemma len_skipn {A} (s : list A) n : len (skipn n s) = Z.max 0 (len s - Z.of_nat n).
Proof. unfold len. rewrite length_skipn. lia. Qed.

(** [range(0, n, t)] for a positive step: the multiples of [t] below [n]. *)
Lemma range_up n t :
  0 <= n -> 0 < t ->
  range 0 n t =
    Some (map (fun k => Z.of_nat k * t) (seq 0 (Z.to_nat ((n + t - 1) / t)))).
Proof.
  intros Hn Ht. unfold range.
  destruct (Z.eqb_spec t 0); [lia|].
  destruct (Z.ltb_spec 0 t); [|lia].
  f_equal. destruct (Z.ltb_spec 0 n).
  - rewrite Z.sub_0_r. replace (n + t - 1) with ((n - 1) + 1 * t) by lia.
    rewrite Z.div_add by lia. reflexivity.
  - assert (n = 0) by lia; subst. rewrite Z.div_small by lia. reflexivity.
Qed.

(** *** [rfind], [basename], [splitext] *)

(** [rfind]: either the character does not occur, or the result is the
    index of its last occurrence. *)
Lemma rfind_from_spec c (s : str) : forall i last,
  last < i ->
  (rfind_from c s i last = last /\ ~ In c s)
  \/ (i <= rfind_from c s i last < i + len s
      /\ nth_error s (Z.to_nat (rfind_from c s i last - i)) = Some c
      /\ ~ In c (skipn (S (Z.to_nat (rfind_from c s i last - i))) s)).
Proof.
  induction s as [|x s IH]; intros i last Hl; cbn [rfind_from].
  - left. split; [reflexivity | intros []].
  - rewrite len_cons. pose proof (len_nonneg s) as Hs.
    destruct (N.eqb_spec x c) as [->|Hx]; cbv iota.
    + destruct (IH (i + 1) i ltac:(lia)) as [[E Hn]|(Hr & Hnth & Hno)].
      * right. rewrite E. replace (i - i) with 0 by lia.
        cbn [Z.to_nat nth_error skipn].
        split; [lia|]. split; [reflexivity | exact Hn].
      * right. split; [lia|].
        replace (Z.to_nat (rfind_from c s (i + 1) i - i))
          with (S (Z.to_nat (rfind_from c s (i + 1) i - (i + 1)))) by lia.
        cbn [nth_error skipn]. split; assumption.
    + destruct (IH (i + 1) last ltac:(lia)) as [[E Hn]|(Hr & Hnth & Hno)].
      * left. split; [exact E|]. intros [H|H]; [congruence | now apply Hn].
      * right. split; [lia|].
        replace (Z.to_nat (rfind_from c s (i + 1) last - i))
          with (S (Z.to_nat (rfind_from c s (i + 1) last - (i + 1)))) by lia.
        cbn [nth_error skipn]. split; assumption.
Qed.

Lemma skipn_nth {A} (l : list A) : forall n c,
  nth_error l n = Some c -> skipn n l = c :: skipn (S n) l.
Proof.
  induction l as [|x l IH]; intros [|n] c H; cbn in H; try discriminate.
  - now injection H as ->.
  - cbn [skipn]. now apply IH.
Qed.

Lemma rfind_spec c (s : str) :
  (rfind c s = -1 /\ ~ In c s)
  \/ (0 <= rfind c s < len s
      /\ nth_error s (Z.to_nat (rfind c s)) = Some c
      /\ ~ In c (skipn (S (Z.to_nat (rfind c s))) s)).
Proof.
  unfold rfind. destruct (rfind_from_spec c s 0 (-1) ltac:(lia)) as [H|(H1 & H2 & H3)].
  - left. exact H.
  - right. rewrite Z.sub_0_r in H2, H3. repeat split; try assumption; lia.
Qed.

(** [basename] cuts [p] after its last slash: what it returns is the end
    of [p], has no slash, and what is cut off is empty or ends with a
    slash. *)
Theorem basename_spec (p : str) :
  exists dir,
    p = dir ++ basename p
    /\ ~ In SLASH (basename p)
    /\ (dir = [] \/ exists d, dir = d ++ [SLASH]).
Proof.
  unfold basename. destruct (rfind_spec SLASH p) as [[E Hn]|(Hr & Hnth & Hno)].
  - rewrite E. exists []. cbn. rewrite slice_from by lia. cbn. auto.
  - rewrite slice_from by lia.
    replace (Z.to_nat (rfind SLASH p + 1)) with (S (Z.to_nat (rfind SLASH p))) by lia.
    exists (firstn (S (Z.to_nat (rfind SLASH p))) p).
    split; [now rewrite firstn_skipn|]. split; [exact Hno|]. right.
    exists (firstn (Z.to_nat (rfind SLASH p)) p).
    clear Hno Hr. revert Hnth. generalize (Z.to_nat (rfind SLASH p)) as n.
    intros n. revert p. induction n as [|n IH]; intros [|x p] H; cbn in H; try discriminate.
    + now injection H as ->.
    + cbn [firstn app]. f_equal. now apply IH.
Qed.

(** [splitext] loses nothing, and the extension is empty or a dot followed
    by characters that are neither a dot nor a slash. *)
Theorem splitext_spec (p : str) :
  fst (splitext p) ++ snd (splitext p) = p
  /\ (snd (splitext p) = []
      \/ exists e, snd (splitext p) = DOT :: e /\ ~ In DOT e /\ ~ In SLASH e).
Proof.
  unfold splitext.
  destruct ((rfind SLASH p <? rfind DOT p)
            && existsb (fun c => negb (c =? DOT)%N)
                 (slice p (Some (rfind SLASH p + 1)) (Some (rfind DOT p)))) eqn:C;
    cbn [fst snd]; [|split; [apply app_nil_r | now left]].
  apply andb_prop in C. destruct C as [C _]. apply Z.ltb_lt in C.
  destruct (rfind_spec DOT p) as [[E _]|(Hr & Hnth & Hno)].
  { destruct (rfind_spec SLASH p) as [[E' _]|(Hr' & _)]; lia. }
  rewrite slice_to, slice_from by lia. split; [apply firstn_skipn|]. right.
  remember (Z.to_nat (rfind DOT p)) as n eqn:En.
  exists (skipn (S n) p). split; [|split; [exact Hno|]].
  - now apply skipn_nth.
  - intros Hin. destruct (rfind_spec SLASH p) as [[_ Hn]|(Hr' & _ & Hno')].
    + apply Hn. rewrite <- (firstn_skipn (S n) p). apply in_or_app. now right.
    + apply Hno'.
      replace (S n) with ((n - Z.to_nat (rfind SLASH p)) + S (Z.to_nat (rfind SLASH p)))%nat in Hin
        by lia.
      rewrite <- skipn_skipn in Hin.
      rewrite <- (firstn_skipn (n - Z.to_nat (rfind SLASH p))
                    (skipn (S (Z.to_nat (rfind SLASH p))) p)).
      apply in_or_app. now right.
Qed.


End PyFacts.

(* ===================================================================== *)
(** ** Chunker: the paragraph loop *)
(* ===================================================================== *)

Module ChunkerFacts.
Import PyFacts Chunker.

#[local] Arguments para_step : simpl never.

Lemma firstn_plus {A} (l : list A) a b :
  firstn (a + b) l = firstn a l ++ firstn b (skipn a l).
Proof.
  revert l; induction a as [|a IH]; intros l; [reflexivity|].
  destruct l as [|x l]; simpl; [now rewrite firstn_nil | now rewrite IH].
Qed.

(** Cutting a sequence into windows of [t] and gluing them back. *)
Lemma concat_windows {A} (l : list A) (t k : nat) :
  concat (map (fun j => firstn t (skipn (j * t) l)) (seq 0 k)) = firstn (k * t) l.
Proof.
  induction k as [|k IH]; [reflexivity|].
  rewrite seq_S, map_app, concat_app, IH. simpl.
  rewrite app_nil_r, <- firstn_plus. f_equal. lia.
Qed.

Lemma ceil_div_bounds n t :
  0 <= n -> 0 < t -> t * (ceil_div n t - 1) <= n - 1 /\ n <= t * ceil_div n t.
Proof.
  intros Hn Ht. unfold ceil_div.
  pose proof (Z.div_mod (n + t - 1) t ltac:(lia)) as E.
  pose proof (Z.mod_pos_bound (n + t - 1) t Ht) as B.
  lia.
Qed.

Lemma ceil_div_nonneg n t : 0 <= n -> 0 < t -> 0 <= ceil_div n t.
Proof. intros. unfold ceil_div. apply Z.div_pos; lia. Qed.

Section Params.
Variables target_chars max_chars overlap_chars : Z.

Abbreviation step := (para_step target_chars max_chars overlap_chars).
Abbreviation loop := (para_loop target_chars max_chars overlap_chars).
Abbreviation pieces := (hard_pieces target_chars).

(** The hard-split loop flushes the buffer once, then appends the slices. *)
Lemma hard_split_fold_empty (p : str) idx (chunks : list str) :
  fold_left (hard_split_step target_chars p) idx (chunks, []) =
  (chunks ++ map (fun i => slice p (Some i) (Some (i + target_chars))) idx, []).
Proof.
  revert chunks; induction idx as [|i idx IH]; intros chunks; simpl.
  - now rewrite app_nil_r.
  - rewrite IH, <- app_assoc. reflexivity.
Qed.

Lemma hard_split_fold (p : str) idx (chunks : list str) (cur : str) :
  idx <> [] ->
  fold_left (hard_split_step target_chars p) idx (chunks, cur) =
  (chunks ++ emit cur
     ++ map (fun i => slice p (Some i) (Some (i + target_chars))) idx, []).
Proof.
  destruct idx as [|i idx]; [congruence|intros _]. simpl fold_left.
  unfold emit. destruct (truthy cur) eqn:Hc; simpl.
  - rewrite hard_split_fold_empty, <- !app_assoc. reflexivity.
  - apply truthy_false in Hc; subst.
    rewrite hard_split_fold_empty, <- !app_assoc. reflexivity.
Qed.

(** *** The slices of a hard split *)

Hypothesis target_pos : 0 < target_chars.

Lemma pieces_windows p :
  pieces p =
  map (fun j => firstn (Z.to_nat target_chars) (skipn (j * Z.to_nat target_chars) p))
      (seq 0 (Z.to_nat (ceil_div (len p) target_chars))).
Proof.
  unfold hard_pieces. rewrite range_up by (auto using len_nonneg).
  fold (ceil_div (len p) target_chars).
  rewrite map_map. apply map_ext_in. intros j Hj. apply in_seq in Hj.
  destruct (ceil_div_bounds (len p) target_chars (len_nonneg p) target_pos) as [B1 B2].
  rewrite slice_window; [f_equal; f_equal; nia | nia | lia].
Qed.

Lemma pieces_count p : len (pieces p) = ceil_div (len p) target_chars.
Proof.
  rewrite pieces_windows. unfold len at 1. rewrite length_map, length_seq.
  pose proof (ceil_div_nonneg (len p) target_chars (len_nonneg p) target_pos). lia.
Qed.

Lemma pieces_concat p : concat (pieces p) = p.
Proof.
  rewrite pieces_windows, concat_windows. apply firstn_all2.
  destruct (ceil_div_bounds (len p) target_chars (len_nonneg p) target_pos) as [B1 B2].
  pose proof (ceil_div_nonneg (len p) target_chars (len_nonneg p) target_pos).
  unfold len in *. nia.
Qed.

Lemma pieces_width p : Forall (fun c => len c <= target_chars) (pieces p).
Proof.
  rewrite pieces_windows. apply Forall_map, Forall_forall. intros j _.
  rewrite len_firstn. lia.
Qed.

(** Every slice but the last is exactly [target_chars] wide. *)
Lemma pieces_full p (j : nat) :
  Z.of_nat j < ceil_div (len p) target_chars - 1 ->
  exists c, nth_error (pieces p) j = Some c /\ len c = target_chars.
Proof.
  intros Hj. rewrite pieces_windows.
  destruct (ceil_div_bounds (len p) target_chars (len_nonneg p) target_pos) as [B1 B2].
  eexists; split.
  - rewrite nth_error_map, nth_error_seq.
    destruct (Nat.ltb_spec j (Z.to_nat (ceil_div (len p) target_chars))); [|lia].
    simpl. reflexivity.
  - rewrite len_firstn, len_skipn. nia.
Qed.

Lemma pieces_nonempty p : p <> [] -> pieces p <> [].
Proof.
  intros Hp E. pose proof (pieces_count p) as C. rewrite E, len_nil in C.
  destruct (ceil_div_bounds (len p) target_chars (len_nonneg p) target_pos) as [B1 B2].
  apply truthy_true, truthy_len in Hp. nia.
Qed.

(** *** The three branches of one loop iteration *)

Lemma para_step_fit (chunks : list str) (cur p : str) :
  len cur + len (p ++ [NL]) <= target_chars ->
  step (chunks, cur) p = Ok (chunks, cur ++ p ++ [NL]).
Proof.
  intros H. unfold para_step.
  destruct (Z.leb_spec (len cur + len (p ++ [NL])) target_chars); [reflexivity | lia].
Qed.

Lemma para_step_hard (chunks : list str) (cur p : str) :
  target_chars < len cur + len (p ++ [NL]) ->
  max_chars < len (p ++ [NL]) ->
  step (chunks, cur) p = Ok (chunks ++ emit cur ++ pieces (p ++ [NL]), []).
Proof.
  intros H1 H2. unfold para_step.
  destruct (Z.leb_spec (len cur + len (p ++ [NL])) target_chars); [lia|].
  destruct (Z.ltb_spec max_chars (len (p ++ [NL]))); [|lia].
  assert (Hne : pieces (p ++ [NL]) <> []) by (apply pieces_nonempty; now destruct p).
  unfold hard_pieces in *.
  destruct (range 0 (len (p ++ [NL])) target_chars) as [idx|]; [|congruence].
  rewrite hard_split_fold; [reflexivity|]. intros ->. now apply Hne.
Qed.

Lemma para_step_close (chunks : list str) (cur p : str) :
  target_chars < len cur + len (p ++ [NL]) ->
  len (p ++ [NL]) <= max_chars ->
  step (chunks, cur) p =
    Ok (chunks ++ emit cur,
        (if truthy cur
         then slice cur (Some (Z.max 0 (len cur - overlap_chars))) None
         else cur) ++ p ++ [NL]).
Proof.
  intros H1 H2. unfold para_step, emit.
  destruct (Z.leb_spec (len cur + len (p ++ [NL])) target_chars); [lia|].
  destruct (Z.ltb_spec max_chars (len (p ++ [NL]))); [lia|].
  destruct (truthy cur); [reflexivity | now rewrite app_nil_r].
Qed.

(** With a positive target a loop iteration never raises. *)
Lemma para_step_cases (chunks : list str) (cur p : str) :
  (len cur + len (p ++ [NL]) <= target_chars /\
     step (chunks, cur) p = Ok (chunks, cur ++ p ++ [NL]))
  \/ (target_chars < len cur + len (p ++ [NL]) /\ max_chars < len (p ++ [NL]) /\
        step (chunks, cur) p = Ok (chunks ++ emit cur ++ pieces (p ++ [NL]), []))
  \/ (target_chars < len cur + len (p ++ [NL]) /\ len (p ++ [NL]) <= max_chars /\
        step (chunks, cur) p =
          Ok (chunks ++ emit cur,
              (if truthy cur
               then slice cur (Some (Z.max 0 (len cur - overlap_chars))) None
               else cur) ++ p ++ [NL])).
Proof.
  destruct (Z.le_gt_cases (len cur + len (p ++ [NL])) target_chars) as [F|F].
  - left. split; [exact F | now apply para_step_fit].
  - right. destruct (Z.lt_ge_cases max_chars (len (p ++ [NL]))) as [M|M].
    + left. repeat split; try lia. apply para_step_hard; lia.
    + right. repeat split; try lia. apply para_step_close; lia.
Qed.

(** Chunks emitted earlier are never touched again. *)
Lemma para_step_shift pre (chunks : list str) (cur p : str) :
  step (pre ++ chunks, cur) p = shift pre (step (chunks, cur) p).
Proof.
  destruct (para_step_cases chunks cur p) as [[F E]|[(F & M & E)|(F & M & E)]];
    rewrite E.
  - rewrite para_step_fit by lia. reflexivity.
  - rewrite para_step_hard by lia. simpl. now rewrite <- app_assoc.
  - rewrite para_step_close by lia. simpl. now rewrite <- app_assoc.
Qed.

Lemma para_loop_shift pre paras (chunks : list str) (cur : str) :
  loop paras (pre ++ chunks, cur) = shift pre (loop paras (chunks, cur)).
Proof.
  revert chunks cur; induction paras as [|p paras IH]; intros chunks cur; simpl.
  - reflexivity.
  - rewrite para_step_shift. destruct (step (chunks, cur) p) as [[c b]|e]; simpl.
    + apply IH.
    + reflexivity.
Qed.

Lemma para_loop_app l1 l2 st :
  loop (l1 ++ l2) st =
    match loop l1 st with Ok st' => loop l2 st' | Raise e => Raise e end.
Proof.
  revert st; induction l1 as [|p l1 IH]; intros st; simpl; [reflexivity|].
  destruct (step st p); [apply IH | reflexivity].
Qed.

(** The loop is total once the target is positive. *)
Lemma para_loop_total paras st : exists st', loop paras st = Ok st'.
Proof.
  revert st; induction paras as [|p paras IH]; intros [chunks cur]; simpl.
  - eauto.
  - destruct (para_step_cases chunks cur p) as [[F E]|[(F & M & E)|(F & M & E)]];
      rewrite E; apply IH.
Qed.

(** *** What the loop leaves in front of and inside the buffer *)

Lemma para_loop_extends paras (chunks : list str) (cur : str) chunks' cur' :
  loop paras (chunks, cur) = Ok (chunks', cur') ->
  exists extra, chunks' = chunks ++ extra.
Proof.
  rewrite <- (app_nil_r chunks) at 1. rewrite para_loop_shift.
  destruct (loop paras ([], cur)) as [[c b]|e]; simpl; [|discriminate].
  intros [= <- <-]. eauto.
Qed.

(** A non-empty buffer is either still the start of the buffer or the
    start of the next chunk appended. *)
Lemma para_step_grow (chunks : list str) (cur p : str) chunks' cur' :
  step (chunks, cur) p = Ok (chunks', cur') -> cur <> [] ->
  (chunks' = chunks /\ exists t, cur' = cur ++ t)
  \/ (exists tl, chunks' = chunks ++ cur :: tl).
Proof.
  intros E Hc. apply truthy_true in Hc.
  destruct (para_step_cases chunks cur p) as [[F E']|[(F & M & E')|(F & M & E')]];
    rewrite E' in E; injection E as <- <-; unfold emit; rewrite ?Hc; simpl; eauto.
Qed.

Lemma para_loop_grow paras (chunks : list str) (cur : str) chunks' cur' :
  loop paras (chunks, cur) = Ok (chunks', cur') -> cur <> [] ->
  (chunks' = chunks /\ exists t, cur' = cur ++ t)
  \/ (exists t tl, chunks' = chunks ++ (cur ++ t) :: tl).
Proof.
  revert chunks cur; induction paras as [|p paras IH]; intros chunks cur E Hc.
  - injection E as <- <-. left. split; [reflexivity|]. exists []. now rewrite app_nil_r.
  - cbn [para_loop] in E.
    destruct (step (chunks, cur) p) as [[c1 b1]|e] eqn:S1; [|discriminate].
    destruct (para_step_grow _ _ _ _ _ S1 Hc) as [[-> [t ->]]|[tl ->]].
    + destruct (IH _ _ E) as [[-> [t' ->]]|(t' & tl & ->)].
      * now destruct cur.
      * left. split; [reflexivity|]. exists (t ++ t'). now rewrite app_assoc.
      * right. exists (t ++ t'), tl. now rewrite app_assoc.
    + destruct (para_loop_extends _ _ _ _ _ E) as [extra ->].
      right. exists [], (tl ++ extra).
      now rewrite app_nil_r, <- app_assoc.
Qed.

(** *** Length of the chunks *)

Hypothesis overlap_nonneg : 0 <= overlap_chars.
Hypothesis target_le_max : target_chars <= max_chars.

Lemma overlap_tail (cur : str) :
  slice cur (Some (Z.max 0 (len cur - overlap_chars))) None =
    tail_chars (Z.min overlap_chars (len cur)) cur.
Proof. unfold tail_chars. f_equal. f_equal. pose proof (len_nonneg cur). lia. Qed.

Lemma len_tail_chars k (cur : str) :
  0 <= k <= len cur -> len (tail_chars k cur) = k.
Proof.
  intros Hk. unfold tail_chars. rewrite slice_from by lia. rewrite len_skipn. lia.
Qed.

Lemma para_step_bounded st p st' :
  step st p = Ok st' ->
  bounded max_chars overlap_chars st -> bounded max_chars overlap_chars st'.
Proof.
  destruct st as [chunks cur]. intros E [Hch Hcur]. simpl in *.
  assert (He : Forall (fun c => len c <= max_chars + overlap_chars) (emit cur)).
  { unfold emit. destruct (truthy cur); auto. }
  destruct (para_step_cases chunks cur p) as [[F E']|[(F & M & E')|(F & M & E')]];
    rewrite E' in E; injection E as <-; split; simpl.
  - exact Hch.
  - rewrite len_app. lia.
  - rewrite !Forall_app. repeat split; auto.
    eapply Forall_impl; [|apply pieces_width; assumption]. simpl. intros; lia.
  - rewrite len_nil. lia.
  - rewrite Forall_app. auto.
  - rewrite len_app. destruct (truthy cur) eqn:Hc.
    + rewrite overlap_tail, len_tail_chars; pose proof (len_nonneg cur); lia.
    + apply truthy_false in Hc; subst. rewrite len_nil. lia.
Qed.

Lemma para_loop_bounded paras st st' :
  loop paras st = Ok st' ->
  bounded max_chars overlap_chars st -> bounded max_chars overlap_chars st'.
Proof.
  revert st; induction paras as [|p paras IH]; intros st E B; cbn [para_loop] in E.
  - now injection E as <-.
  - destruct (step st p) as [st1|e] eqn:S1; [|discriminate].
    eauto using para_step_bounded.
Qed.

Lemma chunk_paras_bounded paras out :
  chunk_paras target_chars max_chars overlap_chars paras = Ok out ->
  Forall (fun c => len c <= max_chars + overlap_chars) out.
Proof.
  unfold chunk_paras.
  destruct (loop paras ([], [])) as [[chunks cur]|e] eqn:L; [|discriminate].
  intros [= <-]. apply para_loop_bounded in L.
  - destruct L as [Hch Hcur]. simpl in *. destruct (truthy cur); auto.
    rewrite Forall_app. split; auto. constructor; auto.
    assert (0 <= max_chars) by lia.
    rewrite slice_to, len_firstn by assumption. lia.
  - split; simpl; [constructor | rewrite len_nil; lia].
Qed.

End Params.

(** *** Splitting into paragraphs *)

Lemma lstrip_id (p : str) : isspace (hd 0%N p) = false -> lstrip p = p.
Proof. destruct p as [|c p]; simpl; [reflexivity | now intros ->]. Qed.

Lemma hd_rev_last (p : str) : hd 0%N (rev p) = last p 0%N.
Proof.
  destruct (list_eq_dec N.eq_dec p []) as [->|Hp]; [reflexivity|].
  destruct (exists_last Hp) as (q & a & ->).
  rewrite rev_app_distr, last_last. reflexivity.
Qed.

(** A string without white space at its ends is its own [strip]. *)
Lemma strip_id (p : str) :
  isspace (hd 0%N p) = false -> isspace (last p 0%N) = false -> strip p = p.
Proof.
  intros Hh Hl. unfold strip, rstrip. rewrite (lstrip_id p Hh).
  rewrite lstrip_id by (now rewrite hd_rev_last). apply rev_involutive.
Qed.

Lemma isspace_NL c : isspace c = false -> (c =? NL)%N = false.
Proof.
  intros H. destruct (N.eqb_spec c NL) as [->|]; [discriminate H | reflexivity].
Qed.

Lemma has_blank_line_tail c (s : str) :
  has_blank_line (c :: s) = false -> has_blank_line s = false.
Proof.
  destruct s as [|d s]; [reflexivity|]. cbn [has_blank_line].
  intros H. now apply orb_false_elim in H.
Qed.

(** Reading a paragraph without blank line whose last character is not a
    newline: it all goes to the part being read. *)
Lemma re_split_blank_paragraph (p : str) : forall cur nl t,
  p <> [] -> last p 0%N <> NL -> (nl <= 1)%nat ->
  has_blank_line (repeat NL nl ++ p) = false ->
  re_split_blank (p ++ t) cur nl = re_split_blank t (cur ++ repeat NL nl ++ p) 0.
Proof.
  induction p as [|c p IH]; intros cur nl t Hne Hlast Hnl Hbl; [congruence|].
  cbn [app re_split_blank].
  destruct (N.eqb_spec c NL) as [->|Hc].
  - assert (nl = 0%nat) as ->.
    { destruct nl as [|[|nl]]; [reflexivity| |lia].
      cbn in Hbl. discriminate Hbl. }
    assert (Hp : p <> []) by (intros ->; now apply Hlast).
    rewrite (IH cur 1%nat t Hp); [reflexivity | | lia | exact Hbl].
    destruct p; [congruence | exact Hlast].
  - assert (Hlt : (2 <=? nl)%nat = false) by (apply Nat.leb_gt; lia).
    rewrite Hlt. destruct p as [|d p].
    + cbn [app]. reflexivity.
    + rewrite (IH (cur ++ repeat NL nl ++ [c]) 0%nat t); [| discriminate | exact Hlast | lia |].
      * cbn [repeat app]. rewrite <- !app_assoc. reflexivity.
      * cbn [repeat app].
        assert (H1 : has_blank_line (c :: d :: p) = false).
        { destruct nl as [|[|nl]]; [exact Hbl | | lia].
          cbn [repeat app] in Hbl. now apply has_blank_line_tail in Hbl. }
        now apply has_blank_line_tail in H1.
Qed.

Lemma re_split_blank_break c (rest cur : str) :
  (c =? NL)%N = false ->
  re_split_blank (NL :: NL :: c :: rest) cur 0 = cur :: re_split_blank rest [c] 0.
Proof. intros H. simpl. rewrite H. reflexivity. Qed.

Lemma clean_last_not_NL (p : str) : clean p -> last p 0%N <> NL.
Proof. intros (_ & _ & Hl & _) E. rewrite E in Hl. discriminate Hl. Qed.

(** [re.split] gives back paragraphs that were joined by blank lines. *)
Lemma re_split_blank_join (paras : list str) : forall (p : str) cur,
  clean p -> Forall clean paras ->
  re_split_blank (join_blank (p :: paras)) cur 0 = (cur ++ p) :: paras.
Proof.
  induction paras as [|q paras IH]; intros p cur Hp Hall.
  - cbn [join_blank]. rewrite <- (app_nil_r p) at 1.
    destruct Hp as (Hne & Hh & Hl & Hb).
    rewrite re_split_blank_paragraph;
      [| exact Hne | intros E; rewrite E in Hl; discriminate Hl | lia | exact Hb].
    cbn. now rewrite app_nil_r.
  - inversion Hall as [|? ? Hq Hrest]; subst.
    change (join_blank (p :: q :: paras)) with (p ++ [NL; NL] ++ join_blank (q :: paras)).
    pose proof (clean_last_not_NL p Hp) as Hlp.
    destruct Hp as (Hne & Hh & Hl & Hb).
    rewrite re_split_blank_paragraph; [| exact Hne | exact Hlp | lia | exact Hb].
    cbn [repeat app].
    assert (Hj : exists c rest, join_blank (q :: paras) = c :: rest
                                /\ (c =? NL)%N = false).
    { destruct Hq as (Hqne & Hqh & _ & _). destruct q as [|c q']; [congruence|].
      cbn [hd] in Hqh. pose proof (isspace_NL c Hqh) as Hc.
      destruct paras as [|q2 paras'].
      - exists c, q'. cbn [join_blank]. split; auto.
      - exists c, (q' ++ [NL; NL] ++ join_blank (q2 :: paras')).
        change (join_blank ((c :: q') :: q2 :: paras'))
          with ((c :: q') ++ [NL; NL] ++ join_blank (q2 :: paras')).
        split; auto. }
    destruct Hj as (c & rest & Ej & Hc).
    assert (Hr : re_split_blank rest [c] 0
                 = re_split_blank (join_blank (q :: paras)) [] 0)
      by (rewrite Ej; cbn [re_split_blank]; rewrite Hc; reflexivity).
    rewrite Ej, (re_split_blank_break c rest _ Hc), Hr, (IH q [] Hq Hrest).
    reflexivity.
Qed.

Lemma last_app_r {A} (a b : list A) d : b <> [] -> last (a ++ b) d = last b d.
Proof.
  intros Hb. induction a as [|x a IH]; [reflexivity|].
  cbn [app last]. rewrite IH. destruct (a ++ b) eqn:E; [|reflexivity].
  apply app_eq_nil in E. destruct E; congruence.
Qed.

Lemma join_blank_hd (p : str) paras :
  p <> [] -> hd 0%N (join_blank (p :: paras)) = hd 0%N p.
Proof. destruct p; [congruence|]. destruct paras; reflexivity. Qed.

Lemma join_blank_last (paras : list str) : forall p,
  Forall clean (p :: paras) ->
  isspace (last (join_blank (p :: paras)) 0%N) = false.
Proof.
  induction paras as [|q paras IH]; intros p Hall; inversion Hall as [|? ? Hp Hrest]; subst.
  - now destruct Hp as (_ & _ & Hl & _).
  - change (join_blank (p :: q :: paras)) with (p ++ [NL; NL] ++ join_blank (q :: paras)).
    assert (Hne : join_blank (q :: paras) <> []).
    { inversion Hrest as [|? ? (Hq & _) _]; subst. destruct q; [congruence|].
      destruct paras; discriminate. }
    rewrite last_app_r by (destruct (join_blank (q :: paras)); [congruence | discriminate]).
    rewrite last_app_r by exact Hne.
    now apply IH.
Qed.

Lemma clean_strip (p : str) : clean p -> strip p = p.
Proof. intros (_ & Hh & Hl & _). now apply strip_id. Qed.

Lemma clean_parts (paras : list str) :
  Forall clean paras ->
  map strip (filter (fun p => truthy (strip p)) paras) = paras.
Proof.
  induction 1 as [|p paras Hp _ IH]; [reflexivity|].
  cbn [filter]. rewrite (clean_strip p Hp).
  destruct Hp as (Hne & Hh & Hl & _). apply truthy_true in Hne. rewrite Hne.
  cbn [map]. rewrite strip_id by assumption. now rewrite IH.
Qed.

(** Paragraphs joined by blank lines are split into themselves: each one
    comes back unchanged, in order, and nothing else. *)
Theorem split_paragraphs_join (paras : list str) :
  Forall clean paras -> _split_paragraphs (join_blank paras) = paras.
Proof.
  intros Hall. destruct paras as [|p paras]; [reflexivity|].
  unfold _split_paragraphs.
  inversion Hall as [|? ? Hp Hrest]; subst.
  rewrite strip_id.
  - rewrite (re_split_blank_join paras p [] Hp Hrest). cbn [app].
    now apply clean_parts.
  - destruct Hp as (Hne & Hh & _). now rewrite join_blank_hd.
  - now apply join_blank_last.
Qed.

Lemma split_paragraphs_join_witness :
  _split_paragraphs (join_blank [lit "one two"; [97%N; NL; 98%N]])
  = [lit "one two"; [97%N; NL; 98%N]].
Proof.
  apply split_paragraphs_join.
  repeat constructor; try discriminate.
Defined.

(** A run of one character is a clean paragraph. *)
Lemma clean_repeat c n : isspace c = false -> clean (repeat c (S n)).
Proof.
  intros Hc. pose proof (isspace_NL c Hc) as Hn.
  split; [discriminate|]. split; [exact Hc|]. split.
  - induction n as [|n IH]; [exact Hc|]. exact IH.
  - generalize (S n). intros m. induction m as [|m IH]; [reflexivity|].
    cbn [repeat has_blank_line]. destruct m as [|m]; [reflexivity|].
    cbn [repeat] in *. rewrite Hn. exact IH.
Qed.

(** *** Two runs with the default sizes *)

(** A paragraph that fits the buffer is appended to it. *)
Lemma fit_step_len target_chars max_chars overlap_chars (chunks : list str) (cur p : str) :
  len cur + len p + 1 <= target_chars ->
  exists cur',
    para_step target_chars max_chars overlap_chars (chunks, cur) p = Ok (chunks, cur')
    /\ len cur' = len cur + len p + 1.
Proof.
  intros H. exists (cur ++ p ++ [NL]). split.
  - apply para_step_fit. rewrite len_app. cbn. lia.
  - rewrite !len_app. cbn. lia.
Qed.

(** A paragraph that closes the buffer leaves the overlap and itself. *)
Lemma close_step_len target_chars max_chars overlap_chars
    (chunks : list str) (cur p : str) :
  0 <= overlap_chars -> 0 < len cur ->
  target_chars < len cur + len p + 1 -> len p + 1 <= max_chars ->
  exists cur',
    para_step target_chars max_chars overlap_chars (chunks, cur) p
      = Ok (chunks ++ [cur], cur')
    /\ len cur' = Z.min overlap_chars (len cur) + len p + 1.
Proof.
  intros Ho Hc Hfit Hmax.
  assert (Lq : len (p ++ [NL]) = len p + 1) by (rewrite len_app; reflexivity).
  rewrite para_step_close by lia.
  unfold emit. apply truthy_len in Hc. rewrite Hc. eexists. split; [reflexivity|].
  rewrite overlap_tail by assumption.
  rewrite len_app, Lq, len_tail_chars; [lia|]. pose proof (len_nonneg cur). lia.
Qed.

Lemma default_run_three (p1 p2 p3 : str) :
  len p1 = 3000 -> len p2 = 3999 -> len p3 = 1 ->
  chunk_lengths (chunk_paras 3200 4000 200 [p1; p2; p3]) = [3001; 4200; 202].
Proof.
  intros H1 H2 H3. unfold chunk_paras. cbn [para_loop].
  destruct (fit_step_len 3200 4000 200 [] [] p1) as (c1 & E1 & L1);
    [rewrite len_nil; lia|]. rewrite len_nil in L1.
  destruct (close_step_len 3200 4000 200 [] c1 p2) as (c2 & E2 & L2); try lia.
  destruct (close_step_len 3200 4000 200 ([] ++ [c1]) c2 p3) as (c3 & E3 & L3); try lia.
  unfold str in *. rewrite E1, E2, E3. cbn [flush app].
  assert (T3 : truthy c3 = true) by (apply truthy_len; lia). rewrite T3.
  cbn [chunk_lengths map app]. rewrite slice_to, len_firstn by lia.
  repeat f_equal; lia.
Qed.

Lemma default_run_long (p : str) :
  len p = 6400 ->
  chunk_lengths (chunk_paras 3200 4000 200 [p]) = [3200; 3200; 1].
Proof.
  intros Hp. unfold chunk_paras. cbn [para_loop].
  assert (Lq : len (p ++ [NL]) = 6401) by (rewrite len_app, Hp; reflexivity).
  pose proof (para_step_hard 3200 4000 200 ltac:(lia) [] [] p
                ltac:(rewrite len_nil, Lq; lia) ltac:(rewrite Lq; lia)) as E.
  unfold str in *. rewrite E.
  cbn [flush truthy emit app chunk_lengths].
  rewrite pieces_windows, Lq by lia.
  change (Z.to_nat (ceil_div 6401 3200)) with 3%nat.
  cbn [seq map]. rewrite !len_firstn, !len_skipn, Lq.
  repeat f_equal; lia.
Qed.

Lemma overlong_text_paragraphs :
  _split_paragraphs overlong_text = [repeat 97%N 3000; repeat 98%N 3999; [99%N]].
Proof.
  change overlong_text with (join_blank [repeat 97%N 3000; repeat 98%N 3999; [99%N]]).
  apply split_paragraphs_join.
  constructor; [apply (clean_repeat 97%N 2999); reflexivity|].
  constructor; [apply (clean_repeat 98%N 3998); reflexivity|].
  constructor; [apply (clean_repeat 99%N 0); reflexivity | constructor].
Qed.

Lemma long_paragraph_len : len long_paragraph = 6400.
Proof. unfold long_paragraph, len. rewrite repeat_length. reflexivity. Qed.

Lemma long_paragraph_paragraphs : _split_paragraphs long_paragraph = [long_paragraph].
Proof.
  change long_paragraph with (join_blank [long_paragraph]).
  apply split_paragraphs_join. constructor; [|constructor].
  unfold long_paragraph. change (64 * 100)%nat with (S (64 * 100 - 1)).
  apply clean_repeat. reflexivity.
Qed.

(** *** Statements about [_chunk_text] *)

Lemma nth_error_middle {A} (l r : list A) x :
  nth_error (l ++ x :: r) (List.length l) = Some x.
Proof. rewrite nth_error_app2, Nat.sub_diag by lia. reflexivity. Qed.

Lemma nth_error_middle_next {A} (l r : list A) x y :
  nth_error (l ++ x :: y :: r) (S (List.length l)) = Some y.
Proof.
  rewrite nth_error_app2 by lia.
  replace (S (List.length l) - List.length l)%nat with 1%nat by lia. reflexivity.
Qed.

Lemma head_of_tail_app k (cur t : str) :
  0 <= k <= len cur ->
  head_chars k (tail_chars k cur ++ t) = tail_chars k cur.
Proof.
  intros Hk. unfold head_chars. rewrite slice_to by lia.
  rewrite firstn_app.
  pose proof (len_tail_chars k cur Hk) as L. unfold len in L.
  replace (Z.to_nat k - List.length (tail_chars k cur))%nat with 0%nat by lia.
  rewrite firstn_all2 by lia. simpl. apply app_nil_r.
Qed.

(** C1, at the defaults: the second chunk of [overlong_text] is the
    200-character overlap followed by a 4000-character paragraph, and it
    is appended as it is when the third paragraph arrives; only the final
    flush is cut to [max_chars]. *)
Theorem chunk_longer_than_max_chars :
  chunk_lengths (_chunk_text_default overlong_text) = [3001; 4200; 202]
  /\ Exists (fun n => 4000 < n) (chunk_lengths (_chunk_text_default overlong_text)).
Proof.
  assert (E : chunk_lengths (_chunk_text_default overlong_text) = [3001; 4200; 202]).
  { unfold _chunk_text_default, _chunk_text. rewrite overlong_text_paragraphs.
    apply default_run_three; unfold len; rewrite ?repeat_length; reflexivity. }
  rewrite E. split; [reflexivity|]. apply Exists_cons_tl, Exists_cons_hd. lia.
Qed.

(** C5 as stated, at the defaults: one paragraph of 6400 characters
    (more than [max_chars]) gives three chunks, not [ceil(6400/3200) = 2]:
    the newline appended to the paragraph is a slice of its own. *)
Lemma hard_split_count_off_by_newline :
  _split_paragraphs long_paragraph = [long_paragraph]
  /\ 4000 < len long_paragraph
  /\ chunk_lengths (_chunk_text_default long_paragraph) = [3200; 3200; 1]
  /\ len (chunk_lengths (_chunk_text_default long_paragraph))
       <> ceil_div (len long_paragraph) 3200.
Proof.
  assert (E : chunk_lengths (_chunk_text_default long_paragraph) = [3200; 3200; 1]).
  { unfold _chunk_text_default, _chunk_text. rewrite long_paragraph_paragraphs.
    apply default_run_long, long_paragraph_len. }
  rewrite E, long_paragraph_len.
  split; [apply long_paragraph_paragraphs|]. split; [lia|].
  split; [reflexivity|]. vm_compute. discriminate.
Qed.

(** C5 (amended): a paragraph [p] whose length with the appended newline,
    [len p + 1], exceeds [max_chars] is cut into exactly
    [ceil((len p + 1) / target_chars)] slices of [p + "\n"], each at most
    [target_chars] long and all but the last exactly that long; the loop
    first flushes a non-empty buffer, appends the slices as chunks of their
    own and leaves the buffer empty, so the chunks of the following
    paragraphs are those of a fresh run. *)
Theorem hard_split_of_long_paragraph
    (target_chars max_chars overlap_chars : Z) (p : str) :
  0 < target_chars -> target_chars <= max_chars -> max_chars < len p + 1 ->
  exists ps : list str,
    len ps = ceil_div (len p + 1) target_chars
    /\ concat ps = p ++ [NL]
    /\ Forall (fun c => len c <= target_chars) ps
    /\ (forall j : nat, Z.of_nat j < len ps - 1 ->
          exists c, nth_error ps j = Some c /\ len c = target_chars)
    /\ (forall chunks cur,
          para_step target_chars max_chars overlap_chars (chunks, cur) p
          = Ok (chunks ++ emit cur ++ ps, []))
    /\ (forall rest,
          chunk_paras target_chars max_chars overlap_chars (p :: rest)
          = prepend ps (chunk_paras target_chars max_chars overlap_chars rest)).
Proof.
  intros Ht Hm Hp.
  assert (Lq : len (p ++ [NL]) = len p + 1) by (rewrite len_app; reflexivity).
  exists (hard_pieces target_chars (p ++ [NL])).
  assert (Hstep : forall chunks cur,
            para_step target_chars max_chars overlap_chars (chunks, cur) p
            = Ok (chunks ++ emit cur ++ hard_pieces target_chars (p ++ [NL]), [])).
  { intros chunks cur. pose proof (len_nonneg cur).
    apply para_step_hard; [assumption | lia | lia]. }
  split; [rewrite pieces_count, Lq by assumption; reflexivity|].
  split; [now apply pieces_concat|].
  split; [now apply pieces_width|].
  split; [intros j Hj; apply pieces_full; [assumption|];
          rewrite pieces_count in Hj by assumption; exact Hj|].
  split; [exact Hstep|].
  intros rest. unfold chunk_paras. cbn [para_loop]. rewrite Hstep.
  change ([] ++ emit [] ++ hard_pieces target_chars (p ++ [NL]))
    with (hard_pieces target_chars (p ++ [NL])).
  replace (para_loop target_chars max_chars overlap_chars rest
             (hard_pieces target_chars (p ++ [NL]), []))
    with (shift (hard_pieces target_chars (p ++ [NL]))
            (para_loop target_chars max_chars overlap_chars rest ([], [])))
    by (rewrite <- para_loop_shift, app_nil_r by assumption; reflexivity).
  destruct (para_loop target_chars max_chars overlap_chars rest ([], []))
    as [[c b]|e]; simpl; [|reflexivity].
  destruct (truthy b); simpl; [now rewrite app_assoc | reflexivity].
Qed.

Lemma hard_split_of_long_paragraph_witness :
  exists ps : list str,
    len ps = 3 /\ concat ps = lit "abcdefgh" ++ [NL]
    /\ chunk_paras 4 5 2 [lit "abcdefgh"] = Ok ps.
Proof.
  destruct (hard_split_of_long_paragraph 4 5 2 (lit "abcdefgh"))
    as (ps & Hn & Hc & _ & _ & _ & Hrest); [lia | lia | vm_compute; reflexivity |].
  exists ps. split; [exact Hn|]. split; [exact Hc|].
  rewrite (Hrest []). simpl. now rewrite app_nil_r.
Defined.

(** C6: when a paragraph [p] neither fits the buffer [cur] nor needs a
    hard split, the non-empty [cur] is appended as a chunk and the chunk
    that follows it in the result starts with the last
    [min(overlap_chars, len(cur))] characters of [cur]. *)
Theorem overlap_at_paragraph_boundary
    (target_chars max_chars overlap_chars : Z)
    (pre post : list str) (p : str) (chunks : list str) (cur : str)
    (out : list str) :
  0 <= overlap_chars -> overlap_chars < target_chars -> target_chars <= max_chars ->
  para_loop target_chars max_chars overlap_chars pre ([], []) = Ok (chunks, cur) ->
  cur <> [] ->
  target_chars < len cur + len (p ++ [NL]) ->
  len (p ++ [NL]) <= max_chars ->
  chunk_paras target_chars max_chars overlap_chars (pre ++ p :: post) = Ok out ->
  let k := Z.min overlap_chars (len cur) in
  nth_error out (List.length chunks) = Some cur
  /\ exists next,
       nth_error out (S (List.length chunks)) = Some next
       /\ head_chars k next = tail_chars k cur.
Proof.
  intros Ho Hot Htm Hpre Hcur Hfit Hmax Hout k.
  assert (Ht : 0 < target_chars) by lia.
  assert (Hk : 0 <= k <= len cur) by (pose proof (len_nonneg cur); lia).
  unfold chunk_paras in Hout. rewrite para_loop_app, Hpre in Hout by assumption.
  cbn [para_loop] in Hout.
  rewrite para_step_close in Hout by assumption.
  unfold emit in Hout. apply truthy_true in Hcur. rewrite Hcur in Hout.
  rewrite overlap_tail in Hout by assumption. fold k in Hout.
  set (b := tail_chars k cur ++ p ++ [NL]) in *.
  destruct (para_loop target_chars max_chars overlap_chars post (chunks ++ [cur], b))
    as [[cF bF]|e] eqn:L; [|discriminate].
  injection Hout as <-.
  assert (Hb : b <> []) by (subst b; destruct (tail_chars k cur); destruct p; discriminate).
  destruct (para_loop_grow _ _ _ Ht _ _ _ _ _ L Hb) as [[-> [t ->]]|(t & tl & ->)].
  - assert (Hbt : truthy (b ++ t) = true) by (apply truthy_true; now destruct b).
    simpl flush. rewrite Hbt, <- app_assoc. simpl app.
    split; [apply nth_error_middle|]. eexists. split; [apply nth_error_middle_next|].
    unfold head_chars at 1. rewrite !slice_to by lia. rewrite firstn_firstn.
    replace (Init.Nat.min (Z.to_nat k) (Z.to_nat max_chars)) with (Z.to_nat k) by lia.
    rewrite <- slice_to by lia. subst b. rewrite <- !app_assoc.
    apply head_of_tail_app; assumption.
  - simpl flush. rewrite <- !app_assoc. simpl app.
    assert (Hn : forall r, nth_error (chunks ++ cur :: (b ++ t) :: r) (List.length chunks) = Some cur
               /\ exists next, nth_error (chunks ++ cur :: (b ++ t) :: r) (S (List.length chunks)) = Some next
                               /\ head_chars k next = tail_chars k cur).
    { intros r. split; [apply nth_error_middle|]. eexists.
      split; [apply nth_error_middle_next|].
      subst b. rewrite <- !app_assoc. apply head_of_tail_app; assumption. }
    destruct (truthy bF); rewrite <- ?app_assoc; simpl app; apply Hn.
Qed.

Lemma overlap_at_paragraph_boundary_witness :
  exists out next,
    chunk_paras 4 5 2 [lit "abc"; lit "defg"; lit "h"] = Ok out
    /\ nth_error out 0 = Some (lit "abc" ++ [NL])
    /\ nth_error out 1 = Some next
    /\ head_chars 2 next = tail_chars 2 (lit "abc" ++ [NL]).
Proof.
  destruct (chunk_paras 4 5 2 [lit "abc"; lit "defg"; lit "h"]) as [out|e] eqn:E;
    [|vm_compute in E; discriminate].
  destruct (overlap_at_paragraph_boundary 4 5 2 [lit "abc"] [lit "h"] (lit "defg")
              [] (lit "abc" ++ [NL]) out) as [H0 (next & H1 & H2)];
    try lia; try (vm_compute; reflexivity); try discriminate; try exact E.
  exists out, next. repeat split; assumption.
Defined.

(** *** More about the chunks *)

Lemma pieces_positive target_chars (p : str) :
  0 < target_chars -> Forall (fun c => 0 < len c) (hard_pieces target_chars p).
Proof.
  intros Ht. rewrite pieces_windows by assumption.
  apply Forall_map, Forall_forall. intros j Hj. apply in_seq in Hj.
  destruct (ceil_div_bounds (len p) target_chars (len_nonneg p) Ht) as [B1 B2].
  rewrite len_firstn, len_skipn. nia.
Qed.

Lemma emit_positive (cur : str) : Forall (fun c => 0 < len c) (emit cur).
Proof.
  unfold emit. destruct (truthy cur) eqn:T; [|constructor].
  constructor; [now apply truthy_len | constructor].
Qed.

Lemma para_step_positive target_chars max_chars overlap_chars
    (chunks : list str) (cur p : str) chunks' cur' :
  0 < target_chars ->
  para_step target_chars max_chars overlap_chars (chunks, cur) p = Ok (chunks', cur') ->
  Forall (fun c => 0 < len c) chunks -> Forall (fun c => 0 < len c) chunks'.
Proof.
  intros Ht E H.
  destruct (para_step_cases target_chars max_chars overlap_chars Ht chunks cur p)
    as [[F E']|[(F & M & E')|(F & M & E')]];
    rewrite E' in E; injection E as <- <-; rewrite ?Forall_app;
    repeat split; auto using emit_positive, pieces_positive.
Qed.

Lemma para_loop_positive target_chars max_chars overlap_chars paras :
  0 < target_chars ->
  forall (chunks : list str) (cur : str) chunks' cur',
    para_loop target_chars max_chars overlap_chars paras (chunks, cur) = Ok (chunks', cur') ->
    Forall (fun c => 0 < len c) chunks -> Forall (fun c => 0 < len c) chunks'.
Proof.
  intros Ht. induction paras as [|p paras IH]; intros chunks cur chunks' cur' E H;
    cbn [para_loop] in E.
  - now injection E as <- <-.
  - destruct (para_step target_chars max_chars overlap_chars (chunks, cur) p)
      as [[c1 b1]|e] eqn:S1; [|discriminate].
    eapply IH; [exact E|]. eapply para_step_positive; eauto.
Qed.

Lemma chunk_text_ok
    (target_chars max_chars overlap_chars : Z) (text : str) :
  0 <= overlap_chars -> 0 < target_chars -> target_chars <= max_chars ->
  exists out,
    _chunk_text target_chars max_chars overlap_chars text = Ok out
    /\ Forall (fun c => 0 < len c <= max_chars + overlap_chars) out.
Proof.
  intros Ho Ht Hm. unfold _chunk_text, chunk_paras.
  destruct (para_loop_total target_chars max_chars overlap_chars Ht
              (_split_paragraphs text) ([], [])) as [[chunks cur] L].
  pose proof (chunk_paras_bounded target_chars max_chars overlap_chars Ht Ho Hm
                (_split_paragraphs text)) as B.
  unfold chunk_paras in B. unfold str in *. rewrite L in *.
  eexists. split; [reflexivity|].
  specialize (B _ eq_refl).
  assert (P : Forall (fun c : list N => 0 < len c) (flush max_chars (chunks, cur))).
  { pose proof (para_loop_positive target_chars max_chars overlap_chars _ Ht
                  [] [] chunks cur L (Forall_nil _)) as P.
    cbn [flush]. destruct (truthy cur) eqn:T; [|exact P].
    rewrite Forall_app. split; [exact P|]. constructor; [|constructor].
    apply truthy_len in T. rewrite slice_to, len_firstn by lia. lia. }
  rewrite Forall_forall in *. intros c Hc. split; [now apply P | now apply B].
Qed.

(** With sizes [0 <= overlap], [0 < target <= max], [_chunk_text] returns
    for every text, no chunk is empty and none is longer than
    [max_chars + overlap_chars]. *)
Theorem chunk_text_total_and_bounded
    (target_chars max_chars overlap_chars : Z) (text : str) :
  0 <= overlap_chars -> 0 < target_chars -> target_chars <= max_chars ->
  exists out,
    _chunk_text target_chars max_chars overlap_chars text = Ok out
    /\ Forall (fun c => 0 < len c <= max_chars + overlap_chars) out.
Proof. exact (chunk_text_ok target_chars max_chars overlap_chars text). Qed.

Lemma chunk_text_total_and_bounded_witness :
  exists out,
    _chunk_text 4 5 2 (lit "abc" ++ [NL; NL] ++ lit "defg" ++ [NL; NL] ++ lit "h") = Ok out
    /\ Forall (fun c => 0 < len c <= 5 + 2) out.
Proof. apply chunk_text_total_and_bounded; lia. Defined.

Lemma lstrip_spaces (s : str) : forallb isspace s = true -> lstrip s = [].
Proof.
  induction s as [|c s IH]; [reflexivity|]. cbn [forallb lstrip].
  intros H. apply andb_prop in H. destruct H as [-> H]. now apply IH.
Qed.

(** A text of white space only (the empty text too) gives no chunk,
    whatever the sizes. *)
Theorem chunk_text_blank
    (target_chars max_chars overlap_chars : Z) (text : str) :
  forallb isspace text = true ->
  _chunk_text target_chars max_chars overlap_chars text = Ok [].
Proof.
  intros H. unfold _chunk_text, _split_paragraphs, strip, rstrip.
  rewrite (lstrip_spaces text H). reflexivity.
Qed.

Lemma chunk_text_blank_witness :
  _chunk_text 3200 4000 200 (lit "  " ++ [NL; NL; 9%N]) = Ok [].
Proof. apply chunk_text_blank. reflexivity. Defined.

(** The text of a run: every paragraph with its newline, in order. *)
Lemma para_loop_no_overlap target_chars max_chars paras :
  0 < target_chars -> target_chars <= max_chars ->
  forall (chunks : list str) (cur : str) chunks' cur',
    para_loop target_chars max_chars 0 paras (chunks, cur) = Ok (chunks', cur') ->
    len cur <= max_chars ->
    concat chunks' ++ cur' = concat chunks ++ cur ++ concat (map (fun p => p ++ [NL]) paras)
    /\ len cur' <= max_chars.
Proof.
  intros Ht Hm. induction paras as [|p paras IH]; intros chunks cur chunks' cur' E Hc;
    cbn [para_loop] in E.
  - injection E as <- <-. cbn. now rewrite app_nil_r.
  - assert (Hemit : concat (emit cur) = cur).
    { unfold emit. destruct (truthy cur) eqn:T; cbn; [apply app_nil_r|].
      now apply truthy_false in T. }
    destruct (para_step_cases target_chars max_chars 0 Ht chunks cur p)
      as [[F E']|[(F & M & E')|(F & M & E')]]; rewrite E' in E.
    + apply IH in E; [|rewrite len_app; lia]. destruct E as [E1 E2].
      split; [|exact E2]. rewrite E1. cbn [map concat]. now rewrite <- !app_assoc.
    + apply IH in E; [|rewrite len_nil; lia]. destruct E as [E1 E2].
      split; [|exact E2]. rewrite E1, !concat_app, Hemit, pieces_concat by assumption.
      cbn [map concat]. now rewrite <- !app_assoc.
    + assert (Hseed : (if truthy cur
                       then slice cur (Some (Z.max 0 (len cur - 0))) None
                       else cur) = []).
      { destruct (truthy cur) eqn:T; [|now apply truthy_false in T].
        pose proof (len_nonneg cur). rewrite slice_from by lia.
        apply skipn_all2. unfold len in *. lia. }
      rewrite Hseed in E. cbn [app] in E.
      apply IH in E; [|lia]. destruct E as [E1 E2].
      split; [|exact E2]. rewrite E1, concat_app, Hemit.
      cbn [map concat]. now rewrite <- !app_assoc.
Qed.

(** Without overlap nothing is lost and nothing is repeated: the chunks,
    one after the other, are the paragraphs, each followed by a newline. *)
Theorem chunks_without_overlap_are_the_text
    (target_chars max_chars : Z) (paras out : list str) :
  0 < target_chars -> target_chars <= max_chars ->
  chunk_paras target_chars max_chars 0 paras = Ok out ->
  concat out = concat (map (fun p => p ++ [NL]) paras).
Proof.
  intros Ht Hm. unfold chunk_paras.
  destruct (para_loop target_chars max_chars 0 paras ([], [])) as [[chunks cur]|e] eqn:L;
    [|discriminate].
  intros [= <-].
  destruct (para_loop_no_overlap target_chars max_chars paras Ht Hm [] [] chunks cur L)
    as [E Hc]; [rewrite len_nil; lia|].
  cbn [concat app] in E. rewrite <- E. cbn [flush].
  destruct (truthy cur) eqn:T.
  - rewrite concat_app. cbn [concat]. rewrite app_nil_r. f_equal.
    rewrite slice_to by lia. apply firstn_all2. unfold len in *. lia.
  - apply truthy_false in T. subst. now rewrite app_nil_r.
Qed.

Lemma chunks_without_overlap_are_the_text_witness :
  concat [lit "abc" ++ [NL]; lit "defg"; lit "hijk"; [NL]; lit "l" ++ [NL]]
  = concat (map (fun p => p ++ [NL]) [lit "abc"; lit "defghijk"; lit "l"]).
Proof.
  apply (chunks_without_overlap_are_the_text 4 5
           [lit "abc"; lit "defghijk"; lit "l"]
           [lit "abc" ++ [NL]; lit "defg"; lit "hijk"; [NL]; lit "l" ++ [NL]]);
    [lia | lia | vm_compute; reflexivity].
Defined.

Lemma para_loop_all_fit target_chars max_chars overlap_chars paras :
  forall (cur : str),
    len cur + len (concat (map (fun p => p ++ [NL]) paras)) <= target_chars ->
    para_loop target_chars max_chars overlap_chars paras ([], cur)
    = Ok ([], cur ++ concat (map (fun p => p ++ [NL]) paras)).
Proof.
  induction paras as [|p paras IH]; intros cur H; cbn [para_loop map concat] in *.
  - now rewrite app_nil_r.
  - rewrite len_app in H. pose proof (len_nonneg (concat (map (fun p => p ++ [NL]) paras))).
    pose proof (para_step_fit target_chars max_chars overlap_chars [] cur p ltac:(lia)) as E.
    unfold str in *. rewrite E, IH by (rewrite !len_app in *; lia).
    now rewrite <- !app_assoc.
Qed.

(** Paragraphs that fit the target together make one chunk: all of them,
    each followed by a newline. *)
Theorem short_text_is_one_chunk
    (target_chars max_chars overlap_chars : Z) (paras : list str) :
  paras <> [] ->
  len (concat (map (fun p => p ++ [NL]) paras)) <= target_chars ->
  target_chars <= max_chars ->
  chunk_paras target_chars max_chars overlap_chars paras
  = Ok [concat (map (fun p => p ++ [NL]) paras)].
Proof.
  intros Hne Hfit Hm. unfold chunk_paras.
  rewrite para_loop_all_fit by (rewrite len_nil; lia). cbn [app flush].
  assert (T : truthy (concat (map (fun p => p ++ [NL]) paras)) = true).
  { destruct paras as [|p paras]; [congruence|]. cbn [map concat].
    destruct p; reflexivity. }
  rewrite T. cbn [app]. do 2 f_equal.
  pose proof (len_nonneg (concat (map (fun p => p ++ [NL]) paras))).
  rewrite slice_to by lia. apply firstn_all2. unfold len in *. lia.
Qed.

Lemma short_text_is_one_chunk_witness :
  chunk_paras 3200 4000 200 [lit "one"; lit "two"]
  = Ok [lit "one" ++ [NL] ++ lit "two" ++ [NL]].
Proof.
  apply (short_text_is_one_chunk 3200 4000 200 [lit "one"; lit "two"]);
    [discriminate | vm_compute; discriminate | lia].
Defined.

(** *** What [_split_paragraphs] returns *)

Lemma lstrip_split (s : str) :
  exists pre, s = pre ++ lstrip s /\ forallb isspace pre = true.
Proof.
  induction s as [|c s (pre & E & H)]; [exists []; auto|].
  cbn [lstrip]. destruct (isspace c) eqn:Hc.
  - exists (c :: pre). cbn [forallb app]. rewrite Hc, H. split; [now f_equal | reflexivity].
  - exists []. auto.
Qed.

Lemma lstrip_hd (s : str) : lstrip s = [] \/ isspace (hd 0%N (lstrip s)) = false.
Proof.
  induction s as [|c s IH]; [now left|]. cbn [lstrip].
  destruct (isspace c) eqn:Hc; [exact IH | right; exact Hc].
Qed.

(** [strip s] is a piece of [s] between white space. *)
Lemma strip_split (s : str) :
  exists a b, s = a ++ strip s ++ b
              /\ forallb isspace a = true /\ forallb isspace b = true.
Proof.
  unfold strip, rstrip.
  destruct (lstrip_split s) as (a & Ea & Ha).
  destruct (lstrip_split (rev (lstrip s))) as (b & Eb & Hb).
  exists a, (rev b). split; [|split; [exact Ha|]].
  - rewrite Ea at 1. f_equal. rewrite <- rev_app_distr, <- Eb. now rewrite rev_involutive.
  - rewrite forallb_forall in *. intros x Hx. apply Hb. now apply in_rev.
Qed.

(** A non-empty [strip s] has no white space at either end. *)
Lemma strip_ends (s : str) :
  strip s <> [] ->
  isspace (hd 0%N (strip s)) = false /\ isspace (last (strip s) 0%N) = false.
Proof.
  intros Hne. unfold strip, rstrip in *.
  set (t := lstrip s) in *. set (u := lstrip (rev t)) in *.
  assert (Hu : u <> []) by (intros E; rewrite E in Hne; now apply Hne).
  split.
  - destruct (lstrip_split (rev t)) as (pre & E & _). fold u in E.
    assert (Et : t = rev u ++ rev pre)
      by (rewrite <- rev_app_distr, <- E; now rewrite rev_involutive).
    destruct (lstrip_hd s) as [H|H]; fold t in H.
    + rewrite H in Et. symmetry in Et. apply app_eq_nil in Et. destruct Et; congruence.
    + rewrite Et in H. destruct (rev u); [congruence | exact H].
  - rewrite <- hd_rev_last, rev_involutive.
    destruct (lstrip_hd (rev t)) as [H|H]; fold u in H; [congruence | exact H].
Qed.

Lemma has_blank_line_snoc (l : str) c :
  has_blank_line (l ++ [c]) =
    has_blank_line l || (negb (Nat.eqb (List.length l) 0) && (last l 0 =? NL) && (c =? NL))%N.
Proof.
  induction l as [|x l IH]; [reflexivity|].
  destruct l as [|y l].
  - cbn. now rewrite orb_false_r.
  - change (has_blank_line ((x :: y :: l) ++ [c]))
      with (((x =? NL) && (y =? NL))%N || has_blank_line ((y :: l) ++ [c])).
    change (has_blank_line (x :: y :: l))
      with (((x =? NL) && (y =? NL))%N || has_blank_line (y :: l)).
    rewrite IH. change (last (x :: y :: l) 0%N) with (last (y :: l) 0%N).
    cbn [List.length Nat.eqb negb andb]. now rewrite orb_assoc.
Qed.

Lemma has_blank_line_prefix (m b : str) :
  has_blank_line (m ++ b) = false -> has_blank_line m = false.
Proof.
  induction m as [|x m IH]; [reflexivity|]. destruct m as [|y m]; [reflexivity|].
  cbn [app has_blank_line]. intros H. apply orb_false_elim in H. destruct H as [H1 H2].
  rewrite H1. cbn [orb]. now apply IH.
Qed.

Lemma has_blank_line_suffix (a m : str) :
  has_blank_line (a ++ m) = false -> has_blank_line m = false.
Proof.
  induction a as [|x a IH]; [auto|]. cbn [app]. intros H.
  apply IH. now apply has_blank_line_tail in H.
Qed.

(** No part that [re.split] cuts at the blank lines has a blank line. *)
Lemma re_split_blank_parts (s : str) : forall cur nl,
  has_blank_line cur = false -> last cur 0%N <> NL ->
  Forall (fun p => has_blank_line p = false) (re_split_blank s cur nl).
Proof.
  assert (Hsn : forall (cur : str) c, has_blank_line cur = false ->
                  (last cur 0%N <> NL \/ c <> NL) -> has_blank_line (cur ++ [c]) = false).
  { intros cur c H1 H2. rewrite has_blank_line_snoc, H1. cbn [orb].
    destruct H2 as [H2|H2].
    - apply N.eqb_neq in H2. rewrite H2. now rewrite andb_false_r.
    - apply N.eqb_neq in H2. rewrite H2. now rewrite andb_false_r. }
  induction s as [|c s IH]; intros cur nl Hb Hl; cbn [re_split_blank].
  - destruct (2 <=? nl)%nat eqn:Hn.
    + repeat constructor. exact Hb.
    + constructor; [|constructor]. apply Nat.leb_gt in Hn.
      destruct nl as [|[|nl]]; [now rewrite app_nil_r | | lia].
      cbn [repeat]. apply Hsn; auto.
  - destruct (N.eqb_spec c NL) as [->|Hc]; [now apply IH|].
    destruct (2 <=? nl)%nat eqn:Hn.
    + constructor; [exact Hb|]. apply IH; [reflexivity | exact Hc].
    + apply Nat.leb_gt in Hn. apply IH.
      * destruct nl as [|[|nl]]; [| | lia]; cbn [repeat app].
        -- apply Hsn; auto.
        -- change (cur ++ [NL; c]) with (cur ++ [NL] ++ [c]). rewrite app_assoc.
           apply Hsn; [apply Hsn; auto | now right].
      * rewrite app_assoc, last_last. exact Hc.
Qed.

Lemma split_paragraphs_all_clean (text : str) :
  Forall clean (_split_paragraphs text).
Proof.
  unfold _split_paragraphs.
  pose proof (re_split_blank_parts (strip text) [] 0 eq_refl ltac:(discriminate)) as H.
  induction H as [|p parts Hp _ IH]; [constructor|].
  cbn [filter]. destruct (truthy (strip p)) eqn:T; [|exact IH].
  cbn [map]. constructor; [|exact IH].
  apply truthy_true in T. destruct (strip_ends p T) as [Hh Hl].
  split; [exact T|]. split; [exact Hh|]. split; [exact Hl|].
  destruct (strip_split p) as (a & b & E & _). rewrite E in Hp.
  apply has_blank_line_suffix in Hp. now apply has_blank_line_prefix in Hp.
Qed.

(** Every paragraph returned is clean: not empty, no white space at its
    ends, no blank line inside. *)
Theorem split_paragraphs_clean (text : str) : Forall clean (_split_paragraphs text).
Proof. exact (split_paragraphs_all_clean text). Qed.

(** Joining the paragraphs of a text with blank lines and splitting again
    gives the same paragraphs. *)
Theorem split_paragraphs_idempotent (text : str) :
  _split_paragraphs (join_blank (_split_paragraphs text)) = _split_paragraphs text.
Proof. apply split_paragraphs_join, split_paragraphs_all_clean. Qed.

(** Clean paragraphs joined by blank lines are split into themselves, in
    order and with nothing added. *)
Theorem paragraphs_round_trip (paras : list str) :
  Forall clean paras -> _split_paragraphs (join_blank paras) = paras.
Proof. exact (split_paragraphs_join paras). Qed.

Lemma paragraphs_round_trip_witness :
  _split_paragraphs (join_blank [lit "first"; [98%N; NL; 99%N]; lit "third one"])
  = [lit "first"; [98%N; NL; 99%N]; lit "third one"].
Proof.
  apply paragraphs_round_trip.
  repeat constructor; try discriminate.
Defined.

End ChunkerFacts.

(* ===================================================================== *)
(** ** Structured router: classifier, batch loop, quarantine *)
(* ===================================================================== *)

Module StructuredFacts.
Import PyFacts S3Event StructuredFn.

(** *** [_dataset_from_key] *)

Lemma re_sub_disallowed_allowed s b :
  forallb allowed (re_sub_disallowed s b) = true.
Proof.
  revert b; induction s as [|c s IH]; intros b; simpl; [reflexivity|].
  destruct (allowed c) eqn:Hc; simpl.
  - now rewrite Hc, IH.
  - destruct b; simpl; auto.
Qed.

(** C9: the four names of the specification and, for every key, a
    non-empty result over [[a-z0-9_]]. *)
Theorem dataset_from_key_classifies (lower_wide : str -> nat -> str) :
  _dataset_from_key lower_wide (lit "customers_2025-09-22.csv") = lit "customers"
  /\ _dataset_from_key lower_wide (lit "Orders.json") = lit "orders"
  /\ _dataset_from_key lower_wide (lit "sales-2024-12.json") = lit "sales"
  /\ _dataset_from_key lower_wide (lit "report.csv") = lit "report"
  /\ forall key : str,
       _dataset_from_key lower_wide key <> []
       /\ forallb allowed (_dataset_from_key lower_wide key) = true.
Proof.
  do 4 (split; [vm_compute; reflexivity|]).
  intros key. unfold _dataset_from_key.
  set (ds := re_sub_disallowed _ false).
  destruct (truthy ds) eqn:T.
  - split; [now apply truthy_true | apply re_sub_disallowed_allowed].
  - split; [discriminate | reflexivity].
Qed.

(** *** The classifier on a name with an alphanumeric prefix *)

Lemma str_eqb_refl (a : str) : str_eqb a a = true.
Proof. induction a as [|x a IH]; [reflexivity|]. cbn. now rewrite N.eqb_refl. Qed.

Lemma str_eqb_eq (a b : str) : str_eqb a b = true -> a = b.
Proof.
  revert b; induction a as [|x a IH]; intros [|y b] H; cbn in H; try discriminate; auto.
  apply andb_prop in H. destruct H as [H1 H2]. apply N.eqb_eq in H1. subst.
  f_equal. now apply IH.
Qed.

Ltac decide_N_comparison :=
  match goal with
  | |- context [(?a <=? ?b)%N] =>
      first [ replace (a <=? b)%N with true by (symmetry; apply N.leb_le; lia)
            | replace (a <=? b)%N with false by (symmetry; apply N.leb_gt; lia) ]
  | |- context [(?a <? ?b)%N] =>
      first [ replace (a <? b)%N with true by (symmetry; apply N.ltb_lt; lia)
            | replace (a <? b)%N with false by (symmetry; apply N.ltb_ge; lia) ]
  | |- context [(?a =? ?b)%N] =>
      first [ replace (a =? b)%N with false by (symmetry; apply N.eqb_neq; lia)
            | replace (a =? b)%N with true by (symmetry; apply N.eqb_eq; lia) ]
  end.

Ltac decide_N_comparisons :=
  repeat first [ progress cbn [andb orb negb] | decide_N_comparison ].

Lemma ascii_alnum_facts c :
  ascii_alnum c = true ->
  (c <? 128)%N = true /\ is_sep c = false /\ isspace c = false
  /\ allowed (ascii_lower c) = true.
Proof.
  unfold ascii_alnum. intros H.
  assert (R : (48 <= c <= 57 \/ 65 <= c <= 90 \/ 97 <= c <= 122)%N).
  { apply orb_prop in H. destruct H as [H|H]; [apply orb_prop in H; destruct H as [H|H]|];
      apply andb_prop in H; destruct H as [H1 H2];
      apply N.leb_le in H1; apply N.leb_le in H2; lia. }
  clear H. unfold is_sep, isspace, allowed, ascii_lower.
  destruct R as [R|[R|R]]; repeat split; decide_N_comparisons; reflexivity.
Qed.

Lemma re_split_sep1_prefix (prefix rest : str) sep : forall acc,
  forallb ascii_alnum prefix = true -> is_sep sep = true ->
  re_split_sep1 (prefix ++ sep :: rest) acc = [acc ++ prefix; rest].
Proof.
  induction prefix as [|c prefix IH]; intros acc Hp Hs; cbn [app re_split_sep1].
  - now rewrite Hs, app_nil_r.
  - cbn [forallb] in Hp. apply andb_prop in Hp. destruct Hp as [Hc Hp].
    destruct (ascii_alnum_facts c Hc) as (_ & -> & _).
    rewrite IH by assumption. now rewrite <- app_assoc.
Qed.

Lemma lower_from_ascii lower_wide whole (s : str) : forall i,
  forallb ascii_alnum s = true -> lower_from lower_wide whole i s = map ascii_lower s.
Proof.
  induction s as [|c s IH]; intros i H; [reflexivity|].
  cbn [forallb] in H. apply andb_prop in H. destruct H as [Hc H].
  cbn [lower_from map]. destruct (ascii_alnum_facts c Hc) as (-> & _).
  now rewrite IH.
Qed.

Lemma re_sub_disallowed_id (s : str) b :
  forallb allowed s = true -> re_sub_disallowed s b = s.
Proof.
  revert b; induction s as [|c s IH]; intros b H; [reflexivity|].
  cbn [forallb] in H. apply andb_prop in H. destruct H as [Hc H].
  cbn [re_sub_disallowed]. rewrite Hc. now rewrite IH.
Qed.

(** A base name that starts with letters and digits followed by [_], [-]
    or [.] is classified as that prefix in lower case, whatever comes
    after the separator and whatever directory the key is in. *)
Theorem dataset_is_lowercased_prefix
    (lower_wide : str -> nat -> str) (key prefix rest : str) (sep : N) :
  basename key = prefix ++ sep :: rest ->
  prefix <> [] -> forallb ascii_alnum prefix = true -> is_sep sep = true ->
  _dataset_from_key lower_wide key = map ascii_lower prefix.
Proof.
  intros Hb Hne Hp Hs. unfold _dataset_from_key.
  rewrite Hb, (re_split_sep1_prefix prefix rest sep [] Hp Hs). cbn [app].
  apply truthy_true in Hne. rewrite Hne.
  assert (Hfacts : forall c, In c prefix -> isspace c = false
                                           /\ allowed (ascii_lower c) = true).
  { intros c Hc. rewrite forallb_forall in Hp.
    destruct (ascii_alnum_facts c (Hp c Hc)) as (_ & _ & H1 & H2). auto. }
  rewrite ChunkerFacts.strip_id.
  - unfold lower. rewrite lower_from_ascii by assumption.
    rewrite re_sub_disallowed_id.
    + destruct prefix; [discriminate | reflexivity].
    + apply forallb_forall. intros c Hc. apply in_map_iff in Hc.
      destruct Hc as (c0 & <- & Hc0). now apply Hfacts.
  - destruct prefix as [|c p]; [discriminate|]. apply Hfacts. now left.
  - destruct prefix as [|c p]; [discriminate|].
    destruct (exists_last (l := c :: p) ltac:(discriminate)) as (q & a & E).
    rewrite E, last_last. apply Hfacts. rewrite E. apply in_or_app. right. now left.
Qed.

Lemma dataset_is_lowercased_prefix_witness :
  _dataset_from_key sim_lower_wide (lit "incoming/csv/Customers2_2025-09-22.csv")
  = map ascii_lower (lit "Customers2").
Proof.
  apply (dataset_is_lowercased_prefix sim_lower_wide _ (lit "Customers2")
           (lit "2025-09-22.csv") 95%N); try reflexivity. discriminate.
Defined.

(** *** The loop over the records *)

Section Handler.
Variable Ext : Type.
Variable svc : Services Ext.
Variable cfg : Config.
Variable unquote : str -> str.
Variable lower_wide : str -> nat -> str.

Abbreviation records_loop := (for_records Ext svc cfg unquote lower_wide).
Abbreviation one_record := (handle_record Ext svc cfg unquote lower_wide).
Abbreviation handler := (lambda_handler Ext svc cfg unquote lower_wide).
Abbreviation staging := (stage Ext svc cfg lower_wide).
Abbreviation quarantine := (_move_to_errors Ext svc cfg).

(** *** How [bind] and [try_except] run *)

Lemma bind_raise {A B} (m : M Ext A) (k : A -> M Ext B) x e :
  outcome (m x) = Raise e ->
  bind Ext m k x = mkRun (Raise e) (final (m x)) (calls (m x)).
Proof. intros H. unfold bind. now rewrite H. Qed.

Lemma bind_ok {A B} (m : M Ext A) (k : A -> M Ext B) x a :
  outcome (m x) = Ok a ->
  bind Ext m k x =
    mkRun (outcome (k a (final (m x)))) (final (k a (final (m x))))
          (calls (m x) ++ calls (k a (final (m x)))).
Proof. intros H. unfold bind. now rewrite H. Qed.

Lemma try_except_raise {A} (m : M Ext A) (h : exn -> M Ext A) x e :
  outcome (m x) = Raise e ->
  try_except Ext m h x =
    mkRun (outcome (h e (final (m x)))) (final (h e (final (m x))))
          (calls (m x) ++ calls (h e (final (m x)))).
Proof. intros H. unfold try_except. now rewrite H. Qed.

Lemma calls_bind {A B} (m : M Ext A) (k : A -> M Ext B) x :
  calls (bind Ext m k x) =
    calls (m x) ++ match outcome (m x) with
                   | Ok a => calls (k a (final (m x)))
                   | Raise _ => []
                   end.
Proof.
  unfold bind. destruct (outcome (m x)); cbn [calls]; now rewrite ?app_nil_r.
Qed.

Lemma outcome_bind {A B} (m : M Ext A) (k : A -> M Ext B) x :
  outcome (bind Ext m k x) =
    match outcome (m x) with
    | Ok a => outcome (k a (final (m x)))
    | Raise e => Raise e
    end.
Proof. unfold bind. now destruct (outcome (m x)). Qed.

Lemma calls_try_except {A} (m : M Ext A) (h : exn -> M Ext A) x :
  calls (try_except Ext m h x) =
    calls (m x) ++ match outcome (m x) with
                   | Ok _ => []
                   | Raise e => calls (h e (final (m x)))
                   end.
Proof.
  unfold try_except. destruct (outcome (m x)); cbn [calls]; now rewrite ?app_nil_r.
Qed.

Lemma final_bind {A B} (m : M Ext A) (k : A -> M Ext B) x :
  final (bind Ext m k x) =
    match outcome (m x) with
    | Ok a => final (k a (final (m x)))
    | Raise _ => final (m x)
    end.
Proof. unfold bind. now destruct (outcome (m x)). Qed.

(** The [except] block with a non-empty [src_key]: quarantine, a line
    printed when that raised, and [e] raised again. *)
Lemma on_exception_run (k : str) (e : exn) (x : Ext) :
  truthy k = true ->
  on_exception Ext svc cfg (Some k) e x =
    let q := quarantine (BUCKET cfg) k (exn_str e) x in
    mkRun (Raise e) (final q)
          (calls q ++
           match outcome q with
           | Ok _ => []
           | Raise move_err =>
               [Print (lit "[FATAL] could not move to errors: " ++ exn_str move_err)]
           end).
Proof.
  intros Tk. unfold on_exception. rewrite Tk. cbv zeta.
  destruct (outcome (quarantine (BUCKET cfg) k (exn_str e) x)) as [[]|e'] eqn:Q.
  - erewrite bind_ok; [|unfold try_except; rewrite Q; exact Q].
    unfold try_except, raise. rewrite Q. cbn [outcome final calls]. reflexivity.
  - erewrite bind_ok;
      [|rewrite (try_except_raise _ _ _ _ Q); cbn [outcome print emit_line]; reflexivity].
    rewrite (try_except_raise _ _ _ _ Q). unfold raise, print, emit_line.
    cbn [outcome final calls]. now rewrite app_nil_r.
Qed.

(** Once the loop has raised, more records change nothing. *)
Lemma for_records_raise recs more src_key (x : Ext) e :
  outcome (records_loop recs src_key x) = Raise e ->
  records_loop (recs ++ more) src_key x = records_loop recs src_key x.
Proof.
  revert src_key x; induction recs as [|r recs IH]; intros src_key x H.
  - discriminate.
  - simpl in *. unfold bind in *.
    destruct (outcome (one_record src_key r x)) as [sk|e1]; [|reflexivity].
    simpl in H. rewrite IH by exact H. reflexivity.
Qed.

(** An empty key is not a [.csv] or [.json] key. *)
Lemma stage_raise_key src_bucket k (x : Ext) e :
  outcome (staging src_bucket k x) = Raise e -> truthy k = true.
Proof.
  destruct k; [|reflexivity]. unfold stage. simpl. discriminate.
Qed.

(** The first call of the quarantine is the copy to the error area. *)
Lemma move_to_errors_copy src_bucket k reason (x : Ext) :
  exists rest,
    calls (quarantine src_bucket k reason x) =
      CopyObject src_bucket (src_bucket, k)
        (ERROR_ROOT cfg ++ lit "/" ++ date_today Ext svc x ++ lit "/" ++ basename k)
        (Some [(lit "ingest_error", slice reason None (Some 255))]) :: rest.
Proof.
  unfold _move_to_errors, bind, _today_yyyy_mm_dd, copy_object, request.
  cbn [outcome final calls].
  destruct (s3_copy_object Ext svc _ _ _ _ x) as [[[]|e1] x1];
    cbn [outcome final calls app]; eauto.
Qed.

Lemma len_slice_to {A} (s : list A) n : 0 <= n -> len (slice s None (Some n)) <= n.
Proof. intros Hn. rewrite slice_to, len_firstn by assumption. lia. Qed.

(** A record whose fields are read and whose staging raises [e]: the
    quarantine runs with its key, and the iteration raises [e]. *)
Lemma failing_record_run (src_key : option str) (rec : S3Rec)
    (src_bucket raw_key : str) (x : Ext) (e : exn) :
  bucket_name rec = Ok src_bucket ->
  object_key rec = Ok raw_key ->
  outcome (staging src_bucket (unquote raw_key) x) = Raise e ->
  one_record src_key rec x =
    let q := quarantine (BUCKET cfg) (unquote raw_key) (exn_str e)
               (final (staging src_bucket (unquote raw_key) x)) in
    mkRun (Raise e) (final q)
      (calls (staging src_bucket (unquote raw_key) x) ++ calls q ++
       match outcome q with
       | Ok _ => []
       | Raise move_err =>
           [Print (lit "[FATAL] could not move to errors: " ++ exn_str move_err)]
       end).
Proof.
  intros Hb Hk Hs. pose proof (stage_raise_key _ _ _ _ Hs) as Tk.
  unfold handle_record. rewrite Hb, Hk.
  rewrite (bind_raise _ _ _ e);
    rewrite (try_except_raise _ _ _ _ Hs), (on_exception_run _ _ _ Tk);
    reflexivity.
Qed.

(** The calls of the loop are those of its iterations, one after the
    other. *)
Lemma records_loop_calls recs : forall src_key (x : Ext),
  calls (records_loop recs src_key x)
  = concat (map calls (record_runs Ext svc cfg unquote lower_wide recs src_key x)).
Proof.
  induction recs as [|r recs IH]; intros src_key x; [reflexivity|].
  cbn [for_records record_runs]. rewrite calls_bind. cbv zeta. cbn [map concat].
  f_equal. destruct (outcome (one_record src_key r x)) as [sk|e];
    [apply IH | reflexivity].
Qed.

(** A loop that ends without an exception went through every record. *)
Lemma records_loop_ok recs : forall src_key (x : Ext),
  outcome (records_loop recs src_key x) = Ok tt ->
  List.length (record_runs Ext svc cfg unquote lower_wide recs src_key x)
  = List.length recs
  /\ Forall (fun r => exists sk, outcome r = Ok sk)
            (record_runs Ext svc cfg unquote lower_wide recs src_key x).
Proof.
  induction recs as [|r recs IH]; intros src_key x H;
    [split; [reflexivity | constructor]|].
  cbn [for_records] in H. rewrite outcome_bind in H.
  cbn [record_runs]. cbv zeta.
  destruct (outcome (one_record src_key r x)) as [sk|e] eqn:O; [|discriminate].
  destruct (IH _ _ H) as [L F]. split.
  - cbn [List.length]. now rewrite L.
  - constructor; [eauto | exact F].
Qed.

(** After records that went through, the loop goes on with the rest from
    the state they left. *)
Lemma records_loop_app before rest : forall src_key (x : Ext),
  outcome (records_loop before src_key x) = Ok tt ->
  exists sk,
    outcome (records_loop (before ++ rest) src_key x)
    = outcome (records_loop rest sk (final (records_loop before src_key x)))
    /\ final (records_loop (before ++ rest) src_key x)
       = final (records_loop rest sk (final (records_loop before src_key x)))
    /\ calls (records_loop (before ++ rest) src_key x)
       = calls (records_loop before src_key x)
           ++ calls (records_loop rest sk (final (records_loop before src_key x))).
Proof.
  induction before as [|r before IH]; intros src_key x H.
  - exists src_key. cbn [app for_records ret outcome final calls]. auto.
  - cbn [app for_records] in *. rewrite outcome_bind in H.
    rewrite !outcome_bind, !final_bind, !calls_bind.
    destruct (outcome (one_record src_key r x)) as [sk1|e]; [|discriminate].
    destruct (IH sk1 _ H) as (sk & O & F & C). exists sk.
    rewrite O, F, C. split; [reflexivity|]. split; [reflexivity|].
    now rewrite app_assoc.
Qed.

(** The handler prints the event, runs the loop and returns. *)
Lemma handler_run (event : Event) (x : Ext) :
  let loop := records_loop (match Records event with Some l => l | None => [] end)
                None x in
  outcome (handler event x)
  = match outcome loop with Ok _ => Ok OkTrue | Raise e => Raise e end
  /\ final (handler event x) = final loop
  /\ calls (handler event x) = PrintEvent event :: calls loop.
Proof.
  cbv zeta. unfold lambda_handler, bind, emit_line. cbn [outcome final calls].
  destruct (outcome (records_loop _ None x)) as [[]|e];
    cbn [ret outcome final calls app]; rewrite ?app_nil_r; auto.
Qed.

(** C4 (amended): the records of a batch are handled in order. When the
    records before one all went through and the staging of that one
    raises [e], the handler has run one iteration for each record before
    it, none of which raised, then the staging of the failing record from
    the state they left and the quarantine of its key, and it raises [e]:
    the run -- exception, state left and calls -- holds nothing of the
    records after it, whatever they are, but the event printed first. *)
Theorem batch_stops_at_failing_record
    (before after : list S3Rec) (rec : S3Rec) (src_bucket raw_key : str)
    (x : Ext) (e : exn) :
  outcome (handler (mkEvent (Some before)) x) = Ok OkTrue ->
  bucket_name rec = Ok src_bucket ->
  object_key rec = Ok raw_key ->
  let x1 := final (handler (mkEvent (Some before)) x) in
  let k := unquote raw_key in
  outcome (staging src_bucket k x1) = Raise e ->
  let event := mkEvent (Some (before ++ rec :: after)) in
  let q := quarantine (BUCKET cfg) k (exn_str e) (final (staging src_bucket k x1)) in
  let earlier := record_runs Ext svc cfg unquote lower_wide before None x in
  List.length earlier = List.length before
  /\ Forall (fun r => exists sk, outcome r = Ok sk) earlier
  /\ outcome (handler event x) = Raise e
  /\ final (handler event x) = final q
  /\ calls (handler event x) =
       PrintEvent event :: concat (map calls earlier)
         ++ calls (staging src_bucket k x1) ++ calls q
         ++ match outcome q with
            | Ok _ => []
            | Raise move_err =>
                [Print (lit "[FATAL] could not move to errors: " ++ exn_str move_err)]
            end.
Proof.
  intros Hok Hb Hk. cbv zeta.
  destruct (handler_run (mkEvent (Some before)) x) as (O0 & X1 & _).
  cbn [Records] in O0, X1.
  assert (L : outcome (records_loop before None x) = Ok tt).
  { rewrite O0 in Hok.
    destruct (outcome (records_loop before None x)) as [[]|e1];
      [reflexivity | discriminate]. }
  rewrite X1. intros Hs.
  destruct (records_loop_ok before None x L) as [Len All].
  split; [exact Len|]. split; [exact All|].
  destruct (records_loop_app before (rec :: after) None x L) as (sk & O & F & C).
  pose proof (failing_record_run sk rec src_bucket raw_key _ e Hb Hk Hs) as R.
  cbv zeta in R.
  cbn [for_records] in O, F, C.
  rewrite outcome_bind in O. rewrite final_bind in F. rewrite calls_bind in C.
  rewrite R in O, F, C. cbn [outcome final calls] in O, F, C.
  rewrite (records_loop_calls before), app_nil_r in C.
  destruct (handler_run (mkEvent (Some (before ++ rec :: after))) x) as (O1 & F1 & C1).
  cbn [Records] in O1, F1, C1.
  rewrite O1, F1, C1, O, F, C.
  split; [reflexivity|]. split; reflexivity.
Qed.

(** C8: an exception [e] raised once [src_key] is bound (that is, by the
    staging of the record) makes the handler call the quarantine with
    that key and [str(e)]; the quarantine first asks S3 to copy the
    object from the key to the dated error area with the first 255
    characters of the message as metadata; the iteration ends raising
    [e] itself, whether the quarantine succeeds or not, and when it
    raises that is printed and nothing more. *)
Theorem quarantine_then_reraise
    (src_key : option str) (rec : S3Rec) (src_bucket raw_key : str)
    (x : Ext) (e : exn) :
  bucket_name rec = Ok src_bucket ->
  object_key rec = Ok raw_key ->
  outcome (staging src_bucket (unquote raw_key) x) = Raise e ->
  let k := unquote raw_key in
  let staged := staging src_bucket k x in
  let q := quarantine (BUCKET cfg) k (exn_str e) (final staged) in
  let r := one_record src_key rec x in
  outcome r = Raise e
  /\ final r = final q
  /\ calls r =
       calls staged ++ calls q ++
       match outcome q with
       | Ok _ => []
       | Raise move_err =>
           [Print (lit "[FATAL] could not move to errors: " ++ exn_str move_err)]
       end
  /\ (exists rest,
        calls q =
          CopyObject (BUCKET cfg) (BUCKET cfg, k)
            (ERROR_ROOT cfg ++ lit "/" ++ date_today Ext svc (final staged)
               ++ lit "/" ++ basename k)
            (Some [(lit "ingest_error", slice (exn_str e) None (Some 255))])
          :: rest)
  /\ len (slice (exn_str e) None (Some 255)) <= 255.
Proof.
  intros Hb Hk Hs. cbv zeta.
  pose proof (stage_raise_key _ _ _ _ Hs) as Tk.
  set (k := unquote raw_key) in *.
  assert (R : one_record src_key rec x =
              let q := quarantine (BUCKET cfg) k (exn_str e)
                         (final (staging src_bucket k x)) in
              mkRun (Raise e) (final q)
                (calls (staging src_bucket k x) ++ calls q ++
                 match outcome q with
                 | Ok _ => []
                 | Raise move_err =>
                     [Print (lit "[FATAL] could not move to errors: "
                               ++ exn_str move_err)]
                 end)).
  { unfold handle_record. rewrite Hb, Hk. fold k.
    rewrite (bind_raise _ _ _ e);
      rewrite (try_except_raise _ _ _ _ Hs), (on_exception_run _ _ _ Tk);
      reflexivity. }
  rewrite R. cbv zeta. cbn [outcome final calls].
  repeat split; [apply move_to_errors_copy | apply len_slice_to; lia].
Qed.

(** *** Deletes only after copies *)

Lemma delete_follows_copy_app (l1 l2 : list Call) : forall prev,
  delete_follows_copy prev l1 = true ->
  (forall prev', delete_follows_copy prev' l2 = true) ->
  delete_follows_copy prev (l1 ++ l2) = true.
Proof.
  induction l1 as [|c l1 IH]; intros prev H1 H2; cbn [app]; [apply H2|].
  cbn [delete_follows_copy] in *. apply andb_prop in H1. destruct H1 as [-> H1].
  cbn [andb]. now apply IH.
Qed.

Lemma bind_assoc {A B C} (m : M Ext A) (f : A -> M Ext B) (g : B -> M Ext C) x :
  bind Ext (bind Ext m f) g x = bind Ext m (fun a => bind Ext (f a) g) x.
Proof.
  unfold bind. destruct (outcome (m x)) as [a|e]; cbn [outcome final calls]; [|reflexivity].
  destruct (outcome (f a (final (m x)))) as [b|e]; cbn [outcome final calls];
    [|reflexivity].
  now rewrite app_assoc.
Qed.

Lemma careful_ret {A} (a : A) : careful Ext (ret Ext a).
Proof. intros x prev. reflexivity. Qed.

Lemma careful_raise {A} e : careful Ext (@raise Ext A e).
Proof. intros x prev. reflexivity. Qed.

Lemma careful_bind {A B} (m : M Ext A) (k : A -> M Ext B) :
  careful Ext m -> (forall a, careful Ext (k a)) -> careful Ext (bind Ext m k).
Proof.
  intros Hm Hk x prev. unfold bind.
  destruct (outcome (m x)) as [a|e]; cbn [calls]; [|apply Hm].
  apply delete_follows_copy_app; [apply Hm | intros prev'; apply Hk].
Qed.

Lemma careful_try_except {A} (m : M Ext A) (h : exn -> M Ext A) :
  careful Ext m -> (forall e, careful Ext (h e)) -> careful Ext (try_except Ext m h).
Proof.
  intros Hm Hh x prev. unfold try_except.
  destruct (outcome (m x)) as [a|e]; cbn [calls]; [apply Hm|].
  apply delete_follows_copy_app; [apply Hm | intros prev'; apply Hh].
Qed.

Lemma careful_emit_line c :
  (forall b k, c <> DeleteObject b k) -> careful Ext (emit_line Ext c).
Proof.
  intros Hc x prev. cbn. destruct c; try reflexivity. now destruct (Hc Bucket Key).
Qed.

Lemma careful_request {A} c (answer : Ext -> Result A * Ext) :
  (forall b k, c <> DeleteObject b k) -> careful Ext (request Ext c answer).
Proof.
  intros Hc x prev. unfold request. destruct (answer x) as [r x']. cbn.
  destruct c; try reflexivity. now destruct (Hc Bucket Key).
Qed.

Lemma careful_today : careful Ext (_today_yyyy_mm_dd Ext svc).
Proof. intros x prev. reflexivity. Qed.

(** A copy and the delete of its source. *)
Lemma careful_copy_delete b src_key dest md (k : unit -> M Ext unit) :
  (forall u, careful Ext (k u)) ->
  careful Ext (bind Ext (copy_object Ext svc b (b, src_key) dest md) (fun _ =>
           bind Ext (delete_object Ext svc b src_key) k)).
Proof.
  intros Hk x prev. unfold bind, copy_object, delete_object, request.
  destruct (s3_copy_object Ext svc b (b, src_key) dest md x) as [[[]|e] x1];
    cbn [outcome final calls]; [|reflexivity].
  destruct (s3_delete_object Ext svc b src_key x1) as [[[]|e] x2];
    cbn [outcome final calls app delete_follows_copy fst snd];
    rewrite !str_eqb_refl; cbn [andb]; [|reflexivity].
  apply Hk.
Qed.

Create HintDb careful.
#[local] Hint Resolve careful_ret careful_raise careful_today : careful.
#[local] Hint Extern 2 (careful _ (bind _ _ _)) => apply careful_bind; [|intros ?] : careful.
#[local] Hint Extern 2 (careful _ (try_except _ _ _)) =>
  apply careful_try_except; [|intros ?] : careful.
#[local] Hint Extern 2 (careful _ (emit_line _ _)) =>
  apply careful_emit_line; discriminate : careful.
#[local] Hint Extern 2 (careful _ (print _ _)) =>
  apply careful_emit_line; discriminate : careful.
#[local] Hint Extern 2 (careful _ (request _ _ _)) =>
  apply careful_request; discriminate : careful.

Lemma careful_move_to_errors b k reason : careful Ext (quarantine b k reason).
Proof.
  unfold _move_to_errors. apply careful_bind; [apply careful_today|]. intros today.
  apply careful_copy_delete. intros _. auto with careful.
Qed.

Lemma careful_start_crawler ds : careful Ext (_start_crawler Ext svc cfg ds).
Proof.
  unfold _start_crawler, start_crawler. apply careful_try_except.
  - auto with careful.
  - intros e. destruct (exn_cls e); auto with careful.
    repeat match goal with |- context [if ?b then _ else _] => destruct b end;
      auto with careful.
Qed.

Lemma careful_stage b k : careful Ext (staging b k).
Proof.
  unfold stage.
  destruct (negb (valid_ext _)); [auto with careful|].
  destruct (negb (str_eqb b (BUCKET cfg))); [auto with careful|].
  apply careful_bind; [apply careful_today|]. intros today.
  apply careful_bind; [auto with careful|]. intros _.
  unfold _copy_then_delete. 
  intros x prev. rewrite bind_assoc. revert x prev. apply careful_copy_delete. intros _.
  apply careful_bind.
  - destruct (ENABLE_CRAWLER cfg); [apply careful_start_crawler | auto with careful].
  - intros _. unfold _start_glue_job, start_job_run. auto 10 with careful.
Qed.

Lemma careful_on_exception sk e : careful Ext (on_exception Ext svc cfg sk e).
Proof.
  unfold on_exception. apply careful_bind; [|auto with careful].
  apply careful_try_except; [|auto with careful].
  destruct sk as [k|]; [|auto with careful].
  destruct (truthy k); [apply careful_move_to_errors | auto with careful].
Qed.

Lemma careful_handle_record sk rec : careful Ext (one_record sk rec).
Proof.
  unfold handle_record.
  destruct (bucket_name rec) as [b|e].
  - destruct (object_key rec) as [raw|e].
    + apply careful_bind; [|auto with careful].
      apply careful_try_except; [apply careful_stage | intros e; apply careful_on_exception].
    + apply careful_bind; [apply careful_on_exception | auto with careful].
  - apply careful_bind; [apply careful_on_exception | auto with careful].
Qed.

Lemma careful_for_records recs : forall sk, careful Ext (records_loop recs sk).
Proof.
  induction recs as [|r recs IH]; intros sk; cbn [for_records]; [auto with careful|].
  apply careful_bind; [apply careful_handle_record | intros sk'; apply IH].
Qed.


(** *** The crawler *)

(** [_start_crawler] lets no [ClientError] out (crawler running, crawler
    not found or any other error code); any other exception of the call
    goes on to the caller. *)
Theorem start_crawler_swallows_client_errors (dataset : str) (x : Ext) :
  let name := if truthy (GLUE_CRAWLER_NAME cfg) then GLUE_CRAWLER_NAME cfg
              else lit "crawler-" ++ dataset in
  outcome (_start_crawler Ext svc cfg dataset x) =
    match fst (glue_start_crawler Ext svc name x) with
    | Ok _ => Ok tt
    | Raise e => if is_client_error e then Ok tt else Raise e
    end
  /\ final (_start_crawler Ext svc cfg dataset x) = snd (glue_start_crawler Ext svc name x).
Proof.
  cbv zeta. unfold _start_crawler, start_crawler, try_except, bind, request, is_client_error.
  destruct (glue_start_crawler Ext svc _ x) as [[[]|e] x1]; cbn [outcome final calls fst snd].
  - split; reflexivity.
  - destruct (exn_cls e); cbn; try (split; reflexivity).
    repeat match goal with |- context [if ?b then _ else _] => destruct b end;
      split; reflexivity.
Qed.

(** *** Records that are skipped *)

Lemma skipped_record sk rec x :
  skipped cfg unquote lower_wide rec ->
  exists k line,
    one_record sk rec x = mkRun (Ok (Some k)) x [Print line].
Proof.
  intros (b & raw & Hb & Hk & H). unfold handle_record. rewrite Hb, Hk.
  unfold bind, try_except, stage.
  destruct (valid_ext _) eqn:V; cbn [negb].
  - destruct H as [H|H]; [congruence|]. rewrite H. cbn. eauto.
  - cbn. eauto.
Qed.

(** A batch of such records sends no request to S3 or Glue, leaves their
    state alone and is a success. *)
Theorem skipped_batch_is_a_no_op (recs : list S3Rec) (x : Ext) :
  Forall (skipped cfg unquote lower_wide) recs ->
  outcome (handler (mkEvent (Some recs)) x) = Ok OkTrue
  /\ final (handler (mkEvent (Some recs)) x) = x
  /\ filter is_request (calls (handler (mkEvent (Some recs)) x)) = [].
Proof.
  intros Hall.
  assert (L : forall sk, outcome (records_loop recs sk x) = Ok tt
                         /\ final (records_loop recs sk x) = x
                         /\ filter is_request (calls (records_loop recs sk x)) = []).
  { induction Hall as [|r recs Hr _ IH]; intros sk; [now cbn|].
    cbn [for_records]. unfold bind.
    destruct (skipped_record sk r x Hr) as (k & line & ->). cbn [outcome final calls].
    destruct (IH (Some k)) as (O & F & C). rewrite O, F. cbn [app filter is_request].
    now rewrite C. }
  unfold lambda_handler, bind, emit_line. cbn [outcome final calls Records].
  destruct (L None) as (O & F & C). rewrite O. cbn [outcome final calls].
  unfold ret. cbn [outcome final calls].
  split; [reflexivity|]. split; [exact F|].
  rewrite app_nil_r. cbn [app filter is_request]. exact C.
Qed.

(** *** A record without its fields *)

(** The local [src_key] outlives an iteration. A record whose bucket or key
    cannot be read raises before [src_key] is assigned: when it is the
    first record nothing is moved; when it comes after a record with the
    key [k] -- even one that was only skipped -- the quarantine is called
    with [k], the key of that earlier record. In both cases the exception
    goes on to the caller. *)
Theorem unreadable_record_quarantines_previous_key
    (rec : S3Rec) (e : exn) (k : str) (x : Ext) :
  (bucket_name rec = Raise e
   \/ exists b, bucket_name rec = Ok b /\ object_key rec = Raise e) ->
  truthy k = true ->
  one_record None rec x = mkRun (Raise e) x []
  /\ outcome (one_record (Some k) rec x) = Raise e
  /\ exists rest,
       calls (one_record (Some k) rec x) =
         CopyObject (BUCKET cfg) (BUCKET cfg, k)
           (ERROR_ROOT cfg ++ lit "/" ++ date_today Ext svc x ++ lit "/" ++ basename k)
           (Some [(lit "ingest_error", slice (exn_str e) None (Some 255))]) :: rest.
Proof.
  intros Hrec Tk.
  assert (E : forall sk, one_record sk rec x =
                bind Ext (on_exception Ext svc cfg sk e) (fun _ => ret Ext sk) x).
  { intros sk. unfold handle_record.
    destruct Hrec as [->|(b & -> & ->)]; reflexivity. }
  rewrite !E. split; [reflexivity|].
  rewrite (bind_raise _ _ _ e) by (rewrite on_exception_run by exact Tk; reflexivity).
  cbn [outcome calls]. split; [reflexivity|].
  rewrite on_exception_run by exact Tk. cbv zeta. cbn [calls].
  destruct (move_to_errors_copy (BUCKET cfg) k (exn_str e) x) as [rest ->].
  cbn [app]. eauto.
Qed.


(** *** A record that goes through *)

Lemma copy_then_delete_requests src_bucket src_key dest_bucket dest_key (x : Ext) :
  outcome (_copy_then_delete Ext svc src_bucket src_key dest_bucket dest_key x) = Ok tt ->
  calls (_copy_then_delete Ext svc src_bucket src_key dest_bucket dest_key x)
  = [CopyObject dest_bucket (src_bucket, src_key) dest_key None;
     DeleteObject src_bucket src_key].
Proof.
  unfold _copy_then_delete. rewrite calls_bind, outcome_bind.
  unfold copy_object, delete_object, request.
  destruct (s3_copy_object Ext svc _ _ _ _ x) as [[[]|e] x1];
    cbn [outcome final calls app]; [|discriminate].
  now destruct (s3_delete_object Ext svc _ _ x1) as [[[]|e] x2].
Qed.

(** Whatever Glue answers, [_start_crawler] asks once, for the crawler
    of the configuration or else the one named after the dataset. *)
Lemma start_crawler_requests dataset (x : Ext) :
  filter is_request (calls (_start_crawler Ext svc cfg dataset x))
  = [StartCrawler (if truthy (GLUE_CRAWLER_NAME cfg) then GLUE_CRAWLER_NAME cfg
                   else lit "crawler-" ++ dataset)].
Proof.
  unfold _start_crawler. rewrite calls_try_except, calls_bind, outcome_bind.
  unfold start_crawler, request.
  destruct (glue_start_crawler Ext svc _ x) as [[[]|e] x1];
    cbn [outcome final calls app filter is_request print emit_line]; [reflexivity|].
  destruct (exn_cls e) as [| | | | |code|name]; try reflexivity.
  destruct (str_eqb code (lit "CrawlerRunningException"));
    [|destruct (str_eqb code (lit "EntityNotFoundException"))]; reflexivity.
Qed.

Lemma start_glue_job_requests dataset staging_prefix output_prefix (x : Ext) :
  filter is_request
    (calls (_start_glue_job Ext svc cfg dataset staging_prefix output_prefix x))
  = [StartJobRun (GLUE_JOB_NAME cfg)
       [(lit "--dataset", dataset);
        (lit "--staging_path", lit "s3://" ++ BUCKET cfg ++ lit "/" ++ staging_prefix);
        (lit "--output_path", lit "s3://" ++ BUCKET cfg ++ lit "/" ++ output_prefix);
        (lit "--redshift_table", dataset);
        (lit "--load_mode", lit "append")]].
Proof.
  unfold _start_glue_job. rewrite calls_bind. unfold start_job_run, request.
  destruct (glue_start_job_run Ext svc _ _ x) as [[run_id|e] x1];
    cbn [outcome final calls app filter is_request]; [|reflexivity].
  rewrite calls_bind. reflexivity.
Qed.

(** A [.csv] or [.json] record of the data bucket that goes through made
    these requests, once each and in this order: the copy to
    [STAGING_ROOT/<dataset>/ingest_date=<today>/<file name>], the delete
    of the source, the crawler when it is enabled, and the Glue job with
    the staging and output prefixes of the dataset. *)
Theorem staged_record_requests (src_key : str) (x : Ext) :
  valid_ext (snd (splitext (lower lower_wide src_key))) = true ->
  outcome (staging (BUCKET cfg) src_key x) = Ok tt ->
  let dataset := _dataset_from_key lower_wide src_key in
  let dest_key := STAGING_ROOT cfg ++ lit "/" ++ dataset ++ lit "/ingest_date="
                    ++ date_today Ext svc x ++ lit "/" ++ basename src_key in
  let crawler := if truthy (GLUE_CRAWLER_NAME cfg) then GLUE_CRAWLER_NAME cfg
                 else lit "crawler-" ++ dataset in
  filter is_request (calls (staging (BUCKET cfg) src_key x)) =
    CopyObject (BUCKET cfg) (BUCKET cfg, src_key) dest_key None
      :: DeleteObject (BUCKET cfg) src_key
      :: (if ENABLE_CRAWLER cfg then [StartCrawler crawler] else [])
      ++ [StartJobRun (GLUE_JOB_NAME cfg)
            [(lit "--dataset", dataset);
             (lit "--staging_path",
              lit "s3://" ++ BUCKET cfg ++ lit "/" ++ STAGING_ROOT cfg ++ lit "/"
                ++ dataset ++ lit "/");
             (lit "--output_path",
              lit "s3://" ++ BUCKET cfg ++ lit "/" ++ OUTPUT_ROOT cfg ++ lit "/"
                ++ dataset ++ lit "/");
             (lit "--redshift_table", dataset);
             (lit "--load_mode", lit "append")]].
Proof.
  intros V. cbv zeta. unfold stage. rewrite V, str_eqb_refl. cbn [negb].
  set (dataset := _dataset_from_key lower_wide src_key).
  rewrite calls_bind, outcome_bind.
  unfold _today_yyyy_mm_dd at 1 2 3 4 5. cbn [outcome final calls app].
  rewrite calls_bind, outcome_bind.
  unfold print at 1 2 3 4 5, emit_line at 1 2 3 4 5. cbn [outcome final calls app].
  rewrite calls_bind, outcome_bind.
  set (dest_key := STAGING_ROOT cfg ++ lit "/" ++ dataset ++ lit "/ingest_date="
                     ++ date_today Ext svc x ++ lit "/" ++ basename src_key).
  change (final (emit_line Ext
                   (Print (lit "[INFO] staging " ++ src_key ++ lit " -> " ++ dest_key)) x))
    with x.
  pose proof (copy_then_delete_requests (BUCKET cfg) src_key (BUCKET cfg) dest_key x) as C.
  destruct (outcome (_copy_then_delete Ext svc (BUCKET cfg) src_key (BUCKET cfg) dest_key x))
    as [[]|e]; [|discriminate].
  rewrite (C eq_refl). cbn [app filter is_request]. intros H. do 2 f_equal.
  rewrite calls_bind, filter_app.
  rewrite outcome_bind in H.
  set (x2 := final (_copy_then_delete Ext svc (BUCKET cfg) src_key (BUCKET cfg) dest_key x))
    in *.
  assert (K : forall x3,
            outcome (bind Ext
                       (_start_glue_job Ext svc cfg dataset
                          (STAGING_ROOT cfg ++ lit "/" ++ dataset ++ lit "/")
                          (OUTPUT_ROOT cfg ++ lit "/" ++ dataset ++ lit "/"))
                       (fun run_id =>
                          emit_line Ext (PrintSummary dataset dest_key
                                           (GLUE_JOB_NAME cfg) run_id)) x3) = Ok tt ->
            filter is_request
              (calls (bind Ext
                        (_start_glue_job Ext svc cfg dataset
                           (STAGING_ROOT cfg ++ lit "/" ++ dataset ++ lit "/")
                           (OUTPUT_ROOT cfg ++ lit "/" ++ dataset ++ lit "/"))
                        (fun run_id =>
                           emit_line Ext (PrintSummary dataset dest_key
                                            (GLUE_JOB_NAME cfg) run_id)) x3))
            = [StartJobRun (GLUE_JOB_NAME cfg)
                 [(lit "--dataset", dataset);
                  (lit "--staging_path",
                   lit "s3://" ++ BUCKET cfg ++ lit "/" ++ STAGING_ROOT cfg ++ lit "/"
                     ++ dataset ++ lit "/");
                  (lit "--output_path",
                   lit "s3://" ++ BUCKET cfg ++ lit "/" ++ OUTPUT_ROOT cfg ++ lit "/"
                     ++ dataset ++ lit "/");
                  (lit "--redshift_table", dataset);
                  (lit "--load_mode", lit "append")]]).
  { intros x3 _. rewrite calls_bind, filter_app, start_glue_job_requests.
    destruct (outcome (_start_glue_job Ext svc cfg dataset _ _ x3)); reflexivity. }
  destruct (ENABLE_CRAWLER cfg).
  - rewrite start_crawler_requests.
    destruct (outcome (_start_crawler Ext svc cfg dataset x2)) as [[]|e];
      [|discriminate].
    cbn [app]. f_equal. now apply K.
  - cbn [ret outcome final calls filter app] in *. now apply K.
Qed.

End Handler.

(** C4 as stated, on the in-memory services: [incoming/c.csv] and
    [incoming/b.csv] are in the bucket, [incoming/a.csv] is not. In the
    batch [c; a; b] the record for [c] is staged and its job started, the
    record for [a] fails at the copy -- the quarantine fails at its copy
    too -- the handler raises, and the sibling record for [b] is never
    staged, though alone it is. *)
Lemma failing_record_blocks_sibling :
  let bucket := mkSim [lit "incoming/c.csv"; lit "incoming/b.csv"] true 0 in
  let c := sim_rec (lit "incoming/c.csv") in
  let a := sim_rec (lit "incoming/a.csv") in
  let b := sim_rec (lit "incoming/b.csv") in
  (exists e, outcome (sim_handler [c; a; b] bucket) = Raise e)
  /\ has_key (lit "incoming/b.csv") (final (sim_handler [c; a; b] bucket)) = true
  /\ has_key (lit "incoming/c.csv") (final (sim_handler [c; a; b] bucket)) = false
  /\ runs (final (sim_handler [c; a; b] bucket)) = 1%nat
  /\ filter is_request (calls (sim_handler [c; a; b] bucket)) =
       [ CopyObject (lit "data") (lit "data", lit "incoming/c.csv")
           (lit "staging/structured/c/ingest_date=2025-09-22/c.csv") None;
         DeleteObject (lit "data") (lit "incoming/c.csv");
         StartCrawler (lit "crawler-c");
         StartJobRun (lit "capstone-structured-etl")
           [ (lit "--dataset", lit "c");
             (lit "--staging_path", lit "s3://data/staging/structured/c/");
             (lit "--output_path", lit "s3://data/processed/structured/c/");
             (lit "--redshift_table", lit "c");
             (lit "--load_mode", lit "append") ];
         CopyObject (lit "data") (lit "data", lit "incoming/a.csv")
           (lit "staging/structured/a/ingest_date=2025-09-22/a.csv") None;
         CopyObject (lit "data") (lit "data", lit "incoming/a.csv")
           (lit "errors/structured/2025-09-22/a.csv")
           (Some [(lit "ingest_error", lit "The specified key does not exist.")]) ]
  /\ outcome (sim_handler [b] bucket) = Ok OkTrue
  /\ has_key (lit "incoming/b.csv") (final (sim_handler [b] bucket)) = false
  /\ runs (final (sim_handler [b] bucket)) = 1%nat.
Proof.
  cbv zeta. split; [eexists; vm_compute; reflexivity|].
  repeat split; vm_compute; reflexivity.
Qed.

Lemma batch_stops_at_failing_record_witness :
  let bucket := mkSim [lit "incoming/c.csv"; lit "incoming/b.csv"] true 0 in
  let c := sim_rec (lit "incoming/c.csv") in
  let a := sim_rec (lit "incoming/a.csv") in
  let b := sim_rec (lit "incoming/b.csv") in
  let e := mkExn (ClientError (lit "NoSuchKey"))
                 (lit "The specified key does not exist.") in
  let x1 := final (sim_handler [c] bucket) in
  let staged := stage Sim sim_services sim_config sim_lower_wide
                  (lit "data") (sim_unquote (lit "incoming/a.csv")) x1 in
  let q := _move_to_errors Sim sim_services sim_config (lit "data")
             (sim_unquote (lit "incoming/a.csv")) (exn_str e) (final staged) in
  let earlier := record_runs Sim sim_services sim_config sim_unquote sim_lower_wide
                   [c] None bucket in
  List.length earlier = 1%nat
  /\ Forall (fun r => exists sk, outcome r = Ok sk) earlier
  /\ outcome (sim_handler ([c] ++ a :: [b]) bucket) = Raise e
  /\ final (sim_handler ([c] ++ a :: [b]) bucket) = final q
  /\ calls (sim_handler ([c] ++ a :: [b]) bucket) =
       PrintEvent (mkEvent (Some ([c] ++ a :: [b]))) :: concat (map calls earlier)
         ++ calls staged ++ calls q
         ++ match outcome q with
            | Ok _ => []
            | Raise move_err =>
                [Print (lit "[FATAL] could not move to errors: " ++ exn_str move_err)]
            end.
Proof.
  cbv zeta.
  apply (batch_stops_at_failing_record Sim sim_services sim_config
           sim_unquote sim_lower_wide [sim_rec (lit "incoming/c.csv")]
           [sim_rec (lit "incoming/b.csv")] (sim_rec (lit "incoming/a.csv"))
           (lit "data") (lit "incoming/a.csv")
           (mkSim [lit "incoming/c.csv"; lit "incoming/b.csv"] true 0)
           (mkExn (ClientError (lit "NoSuchKey"))
                  (lit "The specified key does not exist.")));
    vm_compute; reflexivity.
Defined.

Lemma quarantine_then_reraise_witness :
  let bucket := mkSim [lit "incoming/b.csv"] false 0 in
  outcome (handle_record Sim sim_services sim_config sim_unquote sim_lower_wide
             None (sim_rec (lit "incoming/b.csv")) bucket)
  = Raise (mkExn (ClientError (lit "EntityNotFoundException")) (lit "Job not found")).
Proof.
  cbv zeta.
  refine (proj1 (quarantine_then_reraise Sim sim_services sim_config
            sim_unquote sim_lower_wide None (sim_rec (lit "incoming/b.csv"))
            (lit "data") (lit "incoming/b.csv") (mkSim [lit "incoming/b.csv"] false 0)
            (mkExn (ClientError (lit "EntityNotFoundException")) (lit "Job not found"))
            _ _ _)); vm_compute; reflexivity.
Defined.

Lemma skipped_batch_is_a_no_op_witness :
  let bucket := mkSim [lit "incoming/a.csv"] true 0 in
  let recs := [sim_rec (lit "incoming/readme.txt");
               mkRec (Ok (lit "other")) (Ok (lit "incoming/a.csv"))] in
  outcome (sim_handler recs bucket) = Ok OkTrue
  /\ final (sim_handler recs bucket) = bucket
  /\ filter is_request (calls (sim_handler recs bucket)) = [].
Proof.
  cbv zeta.
  apply (skipped_batch_is_a_no_op Sim sim_services sim_config sim_unquote
           sim_lower_wide).
  constructor; [|constructor; [|constructor]].
  - exists (lit "data"), (lit "incoming/readme.txt").
    split; [reflexivity|]. split; [reflexivity|]. left. vm_compute. reflexivity.
  - exists (lit "other"), (lit "incoming/a.csv").
    split; [reflexivity|]. split; [reflexivity|]. right. vm_compute. reflexivity.
Defined.

Lemma unreadable_record_quarantines_previous_key_witness :
  let bucket := mkSim [lit "incoming/a.csv"] true 0 in
  let e := mkExn KeyError (lit "'s3'") in
  let rec := mkRec (Raise e) (Ok (lit "incoming/b.csv")) in
  handle_record Sim sim_services sim_config sim_unquote sim_lower_wide
    None rec bucket = mkRun (Raise e) bucket []
  /\ outcome (handle_record Sim sim_services sim_config sim_unquote sim_lower_wide
                (Some (lit "incoming/a.csv")) rec bucket) = Raise e
  /\ exists rest,
       calls (handle_record Sim sim_services sim_config sim_unquote sim_lower_wide
                (Some (lit "incoming/a.csv")) rec bucket) =
         CopyObject (lit "data") (lit "data", lit "incoming/a.csv")
           (lit "errors/structured" ++ lit "/" ++ lit "2025-09-22" ++ lit "/"
              ++ basename (lit "incoming/a.csv"))
           (Some [(lit "ingest_error", slice (lit "'s3'") None (Some 255))]) :: rest.
Proof.
  cbv zeta.
  apply (unreadable_record_quarantines_previous_key Sim sim_services sim_config
           sim_unquote sim_lower_wide
           (mkRec (Raise (mkExn KeyError (lit "'s3'"))) (Ok (lit "incoming/b.csv")))
           (mkExn KeyError (lit "'s3'")) (lit "incoming/a.csv")
           (mkSim [lit "incoming/a.csv"] true 0)).
  - left. reflexivity.
  - reflexivity.
Defined.

Lemma staged_record_requests_witness :
  filter is_request
    (calls (stage Sim sim_services sim_config sim_lower_wide (lit "data")
              (lit "incoming/Orders.json")
              (mkSim [lit "incoming/Orders.json"] true 0)))
  = [ CopyObject (lit "data") (lit "data", lit "incoming/Orders.json")
        (lit "staging/structured/orders/ingest_date=2025-09-22/Orders.json") None;
      DeleteObject (lit "data") (lit "incoming/Orders.json");
      StartCrawler (lit "crawler-orders");
      StartJobRun (lit "capstone-structured-etl")
        [ (lit "--dataset", lit "orders");
          (lit "--staging_path", lit "s3://data/staging/structured/orders/");
          (lit "--output_path", lit "s3://data/processed/structured/orders/");
          (lit "--redshift_table", lit "orders");
          (lit "--load_mode", lit "append") ] ].
Proof.
  apply (staged_record_requests Sim sim_services sim_config sim_lower_wide
           (lit "incoming/Orders.json") (mkSim [lit "incoming/Orders.json"] true 0));
    vm_compute; reflexivity.
Defined.

End StructuredFacts.

(* ===================================================================== *)
(** ** Unstructured router: poll loop, persistence, first record *)
(* ===================================================================== *)

Module PdfFacts.
Import PyFacts S3Event PdfFn.

(** *** The poll loop against the scripted Textract *)

Lemma terminal_false st :
  terminal st = false ->
  str_eqb st (lit "SUCCEEDED") = false /\ str_eqb st (lit "FAILED") = false.
Proof. unfold terminal. apply orb_false_elim. Qed.

(** A poll answered with a status that is not terminal: time out, or
    sleep two seconds and poll again. *)
Lemma sim_poll_running mw fuel waited st rest sl docs rows nid :
  terminal st = false ->
  sim_poll_from mw (S fuel) waited (mkSim (st :: rest) sl docs rows nid) =
    if mw <=? waited
    then mkRun (Some (Raise (timed_out waited (lit "job-1"))))
               (mkSim rest sl docs rows nid) [GetDetection (lit "job-1") None]
    else
      let r := sim_poll_from mw fuel (waited + 2) (mkSim rest (sl + 2) docs rows nid) in
      mkRun (outcome r) (final r)
            (GetDetection (lit "job-1") None :: Sleep 2 :: calls r).
Proof.
  intros H. apply terminal_false in H. destruct H as [H1 H2].
  unfold sim_poll_from. cbn [poll]. unfold bind at 1, get_detection, request.
  cbn [textract_get sim_services sim_textract_get script outcome final calls JobStatus].
  rewrite H1, H2. cbn [TEXTRACT_MAX_POLL_SECONDS sim_config].
  destruct (mw <=? waited); [reflexivity|].
  unfold bind. cbn [outcome final calls time_sleep sim_services script slept
                    documents doc_chunks next_id app]. reflexivity.
Qed.

Lemma sim_poll_exhausted mw fuel waited sl docs rows nid :
  sim_poll_from mw (S fuel) waited (mkSim [] sl docs rows nid) =
    if mw <=? waited
    then mkRun (Some (Raise (timed_out waited (lit "job-1"))))
               (mkSim [] sl docs rows nid) [GetDetection (lit "job-1") None]
    else
      let r := sim_poll_from mw fuel (waited + 2) (mkSim [] (sl + 2) docs rows nid) in
      mkRun (outcome r) (final r)
            (GetDetection (lit "job-1") None :: Sleep 2 :: calls r).
Proof.
  unfold sim_poll_from. cbn [poll]. unfold bind at 1, get_detection, request.
  cbn [textract_get sim_services sim_textract_get script outcome final calls JobStatus].
  change (str_eqb (lit "RUNNING") (lit "SUCCEEDED")) with false.
  change (str_eqb (lit "RUNNING") (lit "FAILED")) with false.
  cbn [TEXTRACT_MAX_POLL_SECONDS sim_config].
  destruct (mw <=? waited); [reflexivity|].
  unfold bind. cbn [outcome final calls time_sleep sim_services script slept
                    documents doc_chunks next_id app]. reflexivity.
Qed.

Lemma sim_poll_terminal mw fuel waited st rest sl docs rows nid :
  terminal st = true ->
  sim_poll_from mw (S fuel) waited (mkSim (st :: rest) sl docs rows nid) =
    mkRun (if str_eqb st (lit "SUCCEEDED")
           then Some (Ok (mkDetection st [] None))
           else Some (Raise (mkExn RuntimeError (lit "Textract job failed: " ++ st))))
          (mkSim rest sl docs rows nid) [GetDetection (lit "job-1") None].
Proof.
  intros H. unfold sim_poll_from. cbn [poll]. unfold bind at 1, get_detection, request.
  cbn [textract_get sim_services sim_textract_get script outcome final calls JobStatus].
  unfold terminal in H. destruct (str_eqb st (lit "SUCCEEDED")); [reflexivity|].
  simpl in H. rewrite H. reflexivity.
Qed.

(** The loop ends at the first terminal status, provided no timeout comes
    before it. *)
Lemma sim_poll_first_terminal mw pre st post :
  Forall (fun s => terminal s = false) pre -> terminal st = true ->
  forall fuel waited sl docs rows nid,
    (List.length pre < fuel)%nat ->
    (pre <> [] -> waited + 2 * (Z.of_nat (List.length pre) - 1) < mw) ->
    let r := sim_poll_from mw fuel waited (mkSim (pre ++ st :: post) sl docs rows nid) in
    polls (calls r) = S (List.length pre)
    /\ final r = mkSim post (sl + 2 * Z.of_nat (List.length pre)) docs rows nid
    /\ outcome r =
         if str_eqb st (lit "SUCCEEDED")
         then Some (Ok (mkDetection st [] None))
         else Some (Raise (mkExn RuntimeError (lit "Textract job failed: " ++ st))).
Proof.
  intros Hpre Hst. induction Hpre as [|s pre Hs Hpre IH];
    intros fuel waited sl docs rows nid Hfuel Hwait; cbv zeta.
  - destruct fuel as [|fuel]; [simpl in Hfuel; lia|].
    cbn [app]. rewrite sim_poll_terminal by assumption.
    cbn [outcome final calls List.length]. repeat split.
    f_equal. lia.
  - destruct fuel as [|fuel]; [simpl in Hfuel; lia|].
    cbn [app]. rewrite sim_poll_running by assumption.
    cbn [List.length] in *.
    destruct (Z.leb_spec mw waited) as [Hle|Hgt].
    + exfalso. assert (waited + 2 * (Z.of_nat (S (List.length pre)) - 1) < mw)
        by (apply Hwait; discriminate). lia.
    + cbv zeta. cbn [outcome final calls].
      destruct (IH fuel (waited + 2) (sl + 2) docs rows nid) as (P & F & O).
      * lia.
      * intros _. assert (waited + 2 * (Z.of_nat (S (List.length pre)) - 1) < mw)
          by (apply Hwait; discriminate). lia.
      * split; [|split].
        -- unfold polls in *. cbn [filter is_poll List.length]. now rewrite P.
        -- rewrite F. f_equal. lia.
        -- exact O.
Qed.

(** Statuses that are never terminal: the loop makes [k + 1] polls, [k]
    the number of sleeps it takes [waited] to reach [max_wait], and then
    raises the timeout. *)
Lemma sim_poll_all_running mw (k : nat) :
  forall statuses fuel waited sl docs rows nid,
    Forall (fun s => terminal s = false) statuses ->
    (k < fuel)%nat ->
    mw <= waited + 2 * Z.of_nat k ->
    (k <> 0%nat -> waited + 2 * (Z.of_nat k - 1) < mw) ->
    let r := sim_poll_from mw fuel waited (mkSim statuses sl docs rows nid) in
    polls (calls r) = S k
    /\ outcome r = Some (Raise (timed_out (waited + 2 * Z.of_nat k) (lit "job-1")))
    /\ slept (final r) = sl + 2 * Z.of_nat k.
Proof.
  induction k as [|k IH]; intros statuses fuel waited sl docs rows nid Hall Hfuel Hup Hlow;
    cbv zeta; (destruct fuel as [|fuel]; [lia|]).
  - assert (Hle : (mw <=? waited) = true) by (apply Z.leb_le; lia).
    replace (waited + 2 * Z.of_nat 0) with waited by lia.
    destruct statuses as [|s rest].
    + rewrite sim_poll_exhausted, Hle. cbn. repeat split. lia.
    + inversion Hall; subst. rewrite sim_poll_running, Hle by assumption.
      cbn. repeat split. lia.
  - assert (Hgt : (mw <=? waited) = false).
    { apply Z.leb_gt. assert (waited + 2 * (Z.of_nat (S k) - 1) < mw) by (apply Hlow; lia). lia. }
    assert (Hrec : forall rest, Forall (fun s => terminal s = false) rest ->
              let r := sim_poll_from mw fuel (waited + 2) (mkSim rest (sl + 2) docs rows nid) in
              polls (calls r) = S k
              /\ outcome r = Some (Raise (timed_out (waited + 2 * Z.of_nat (S k)) (lit "job-1")))
              /\ slept (final r) = sl + 2 * Z.of_nat (S k)).
    { intros rest Hrest.
      destruct (IH rest fuel (waited + 2) (sl + 2) docs rows nid) as (P & O & F);
        [assumption | lia | lia | lia |].
      cbv zeta. split; [exact P|]. split.
      - rewrite O. do 3 f_equal. lia.
      - rewrite F. lia. }
    destruct statuses as [|s rest].
    + rewrite sim_poll_exhausted, Hgt. cbv zeta. cbn [outcome final calls].
      destruct (Hrec [] (Forall_nil _)) as (P & O & F).
      split; [|split]; [unfold polls in *; cbn [filter is_poll List.length]; now rewrite P | exact O | exact F].
    + inversion Hall; subst. rewrite sim_poll_running, Hgt by assumption.
      cbv zeta. cbn [outcome final calls].
      destruct (Hrec rest ltac:(assumption)) as (P & O & F).
      split; [|split]; [unfold polls in *; cbn [filter is_poll List.length]; now rewrite P | exact O | exact F].
Qed.

(** *** Any services *)

Lemma total_len_app a b : total_len (a ++ b) = total_len a + total_len b.
Proof. induction a as [|c a IH]; simpl; [reflexivity | rewrite IH; lia]. Qed.

Lemma total_len_nonneg l : 0 <= total_len l.
Proof.
  induction l as [|c l IH]; simpl; [lia | pose proof (len_nonneg c); lia].
Qed.

(** Offsets never decrease along the chunks. *)
Lemma total_len_firstn_mono (chunks : list str) i j :
  (i <= j)%nat -> total_len (firstn i chunks) <= total_len (firstn j chunks).
Proof.
  intros Hij. replace j with (i + (j - i))%nat by lia.
  rewrite ChunkerFacts.firstn_plus, total_len_app.
  pose proof (total_len_nonneg (firstn (j - i) (skipn i chunks))). lia.
Qed.

Lemma firstn_succ_nth {A} (l : list A) : forall i c,
  nth_error l i = Some c -> firstn (S i) l = firstn i l ++ [c].
Proof.
  induction l as [|a l IH]; intros [|i] c H; simpl in *; try discriminate.
  - now injection H as ->.
  - f_equal. now apply IH.
Qed.

Lemma mapi_length {B} (f : nat -> str -> B) i0 l :
  List.length (mapi f i0 l) = List.length l.
Proof. revert i0; induction l; intros; simpl; auto. Qed.

Lemma mapi_nth_error {B} (f : nat -> str -> B) l : forall i0 i c,
  nth_error l i = Some c -> nth_error (mapi f i0 l) i = Some (f (i0 + i)%nat c).
Proof.
  induction l as [|a l IH]; intros i0 [|i] c H; simpl in *; try discriminate.
  - injection H as ->. now rewrite Nat.add_0_r.
  - rewrite (IH (S i0) i c H). f_equal. f_equal. lia.
Qed.

Lemma mapi_app {B} (f : nat -> str -> B) l1 l2 i0 :
  mapi f i0 (l1 ++ l2) = mapi f i0 l1 ++ mapi f (i0 + List.length l1) l2.
Proof.
  revert i0; induction l1 as [|a l1 IH]; intros i0; simpl.
  - now rewrite Nat.add_0_r.
  - rewrite IH. do 3 f_equal. lia.
Qed.

Lemma chunk_stmt_at doc_id (done rest : list str) (c : str) :
  chunk_stmt doc_id (done ++ c :: rest) (List.length done) c =
    InsertChunk doc_id (Z.of_nat (List.length done))
      (total_len done) (total_len done + len c) c.
Proof.
  unfold chunk_stmt. rewrite firstn_app, Nat.sub_diag, firstn_all. simpl.
  now rewrite app_nil_r.
Qed.

Section Services.
Variable Ext : Type.
Variable Vec : Type.
Variable svc : Services Ext Vec.
Variable cfg : Config.
Variable unquote : str -> str.
Variable urlparse_path : str -> Result str.
Variable repr_detection : Detection -> str.
Variable lower_wide : str -> nat -> str.

Abbreviation poll_loop := (poll Ext Vec svc cfg repr_detection).
Abbreviation chunk_loop := (insert_chunks Ext Vec svc).
Abbreviation store := (store_document_and_chunks Ext Vec svc urlparse_path).
Abbreviation try_body s3_uri title chunks :=
  (bind Ext Vec (lift Ext Vec (doc_title urlparse_path s3_uri title))
        (fun t => insert_rows Ext Vec svc s3_uri t chunks)).
Abbreviation handler :=
  (lambda_handler Ext Vec svc cfg unquote urlparse_path repr_detection lower_wide).

Lemma bind_unfold {A B} (m : M Ext Vec A) (k : A -> M Ext Vec B) x :
  bind Ext Vec m k x =
    match outcome (m x) with
    | Some (Ok a) =>
        mkRun (outcome (k a (final (m x)))) (final (k a (final (m x))))
              (calls (m x) ++ calls (k a (final (m x))))
    | Some (Raise e) => mkRun (Some (Raise e)) (final (m x)) (calls (m x))
    | None => mkRun None (final (m x)) (calls (m x))
    end.
Proof. reflexivity. Qed.

Lemma bind_calls {A B} (m : M Ext Vec A) (k : A -> M Ext Vec B) x :
  calls (bind Ext Vec m k x) =
    calls (m x) ++ match outcome (m x) with
                   | Some (Ok a) => calls (k a (final (m x)))
                   | _ => []
                   end.
Proof.
  rewrite bind_unfold.
  destruct (outcome (m x)) as [[a|e]|]; cbn [calls]; now rewrite ?app_nil_r.
Qed.

Lemma bind_outcome {A B} (m : M Ext Vec A) (k : A -> M Ext Vec B) x :
  outcome (bind Ext Vec m k x) =
    match outcome (m x) with
    | Some (Ok a) => outcome (k a (final (m x)))
    | Some (Raise e) => Some (Raise e)
    | None => None
    end.
Proof. rewrite bind_unfold. now destruct (outcome (m x)) as [[a|e]|]. Qed.

Lemma bind_final {A B} (m : M Ext Vec A) (k : A -> M Ext Vec B) x :
  final (bind Ext Vec m k x) =
    match outcome (m x) with
    | Some (Ok a) => final (k a (final (m x)))
    | _ => final (m x)
    end.
Proof. rewrite bind_unfold. now destruct (outcome (m x)) as [[a|e]|]. Qed.


(** With fuel for every sleep up to the ceiling, the poll loop comes to
    an end by itself. *)
Lemma poll_finishes fuel : forall job_id waited x,
  (Z.to_nat (TEXTRACT_MAX_POLL_SECONDS cfg - waited) < fuel)%nat ->
  outcome (poll_loop fuel job_id waited x) <> None.
Proof.
  induction fuel as [|fuel IH]; intros job_id waited x Hfuel; [lia|].
  cbn [poll]. unfold bind at 1, get_detection, request.
  destruct (textract_get Ext Vec svc job_id None x) as [[resp|e] x'];
    cbn [outcome final calls]; [|discriminate].
  destruct (str_eqb (JobStatus resp) (lit "SUCCEEDED")); [discriminate|].
  destruct (str_eqb (JobStatus resp) (lit "FAILED")); [discriminate|].
  destruct (Z.leb_spec (TEXTRACT_MAX_POLL_SECONDS cfg) waited); [discriminate|].
  unfold bind. cbn [outcome final calls].
  specialize (IH job_id (waited + 2) (time_sleep Ext Vec svc 2 x') ltac:(lia)).
  destruct (outcome (poll_loop fuel job_id (waited + 2) (time_sleep Ext Vec svc 2 x')))
    as [[resp'|e']|]; cbn [outcome]; congruence.
Qed.

(** The statements of the chunk loop: those of the chunks reached, each
    with its ordinal and the running offsets. *)
Lemma insert_chunks_run doc_id (chunks : list str) :
  forall rest done x,
    chunks = done ++ rest ->
    let r := chunk_loop doc_id rest (Z.of_nat (List.length done)) (total_len done) x in
    exists n,
      (n <= List.length rest)%nat
      /\ calls r = map PgRun (mapi (chunk_stmt doc_id chunks) (List.length done)
                                   (firstn n rest))
      /\ (outcome r = Some (Ok tt) -> n = List.length rest)
      /\ outcome r <> None.
Proof.
  induction rest as [|c rest IH]; intros done x Hch; cbv zeta.
  - exists 0%nat. cbn. repeat split; auto. discriminate.
  - cbn [insert_chunks]. unfold bind, request.
    destruct (pg_run Ext Vec svc _ x) as [[rows|e] x']; cbn [outcome final calls].
    + specialize (IH (done ++ [c]) x').
      rewrite length_app, total_len_app in IH. cbn [List.length total_len fold_right] in IH.
      replace (Z.of_nat (List.length done + 1)) with (Z.of_nat (List.length done) + 1) in IH by lia.
      replace (total_len done + (len c + 0)) with (total_len done + len c) in IH by lia.
      destruct IH as (n & Hn & Hc & Ho & Hf); [rewrite <- app_assoc; exact Hch|].
      exists (S n). cbn [List.length firstn mapi map]. split; [lia|]. split.
      * rewrite Hc. subst chunks. rewrite chunk_stmt_at.
        replace (List.length done + 1)%nat with (S (List.length done)) by lia.
        reflexivity.
      * split; [|exact Hf].
        destruct (outcome (chunk_loop doc_id rest _ _ x')) as [[[]|e]|];
          intros H; try discriminate. now rewrite Ho.
    + exists 1%nat. cbn [List.length firstn mapi map]. split; [lia|]. split.
      * subst chunks. now rewrite chunk_stmt_at.
      * split; discriminate.
Qed.

(** Closing the connection never raises past the [finally] block. *)
Lemma close_run x :
  exists x', close_quietly Ext Vec svc x = mkRun (Some (Ok tt)) x' [PgClose].
Proof.
  unfold close_quietly, try_except, request, ret.
  destruct (pg_close Ext Vec svc x) as [[[]|e] x']; cbn [outcome final calls]; eauto.
Qed.

(** What [finally] adds to a run that ended: the close. *)
Lemma finally_close {A} (m : M Ext Vec A) x :
  (outcome (m x) = None
   /\ outcome (try_finally Ext Vec m (close_quietly Ext Vec svc) x) = None)
  \/ exists o x',
       outcome (m x) = Some o
       /\ try_finally Ext Vec m (close_quietly Ext Vec svc) x
           = mkRun (Some o) x' (calls (m x) ++ [PgClose]).
Proof.
  unfold try_finally. destruct (outcome (m x)) as [o|] eqn:O.
  - right. destruct (close_run (final (m x))) as [x' ->].
    cbn [outcome final calls]. eauto.
  - left. split; [reflexivity | exact O].
Qed.

(** The [try] block: the document row, then the chunk loop. *)
Lemma insert_rows_run s3_uri t (chunks : list str) x doc_id :
  outcome (insert_rows Ext Vec svc s3_uri t chunks x) = Some (Ok doc_id) ->
  calls (insert_rows Ext Vec svc s3_uri t chunks x) =
    PgRun (InsertDocument s3_uri t)
      :: map PgRun (mapi (chunk_stmt doc_id chunks) 0 chunks).
Proof.
  unfold insert_rows. rewrite bind_unfold. unfold request.
  destruct (pg_run Ext Vec svc (InsertDocument s3_uri t) x) as [[rows|e] x2];
    cbn [outcome final calls]; [|discriminate].
  destruct rows as [|[|d row] [|row' rows]]; try discriminate.
  destruct (insert_chunks_run d chunks chunks [] x2 eq_refl) as (n & Hn & Hc & Ho & Hf).
  cbn [List.length total_len fold_right Z.of_nat] in Hn, Hc, Ho, Hf.
  rewrite bind_unfold. unfold ret.
  destruct (outcome (chunk_loop d chunks 0 0 x2)) as [[[]|e]|] eqn:O;
    cbn [outcome final calls]; try discriminate.
  intros [= ->]. rewrite app_nil_r, Hc, (Ho eq_refl), firstn_all. reflexivity.
Qed.

(** The [try] block when it returns: the title was there, and the calls
    are those of the two [INSERT]s. *)
Lemma try_body_ok s3_uri title (chunks : list str) x doc_id :
  outcome (try_body s3_uri title chunks x) = Some (Ok doc_id) ->
  exists t,
    doc_title urlparse_path s3_uri title = Ok t
    /\ calls (try_body s3_uri title chunks x) =
         PgRun (InsertDocument s3_uri t)
           :: map PgRun (mapi (chunk_stmt doc_id chunks) 0 chunks).
Proof.
  rewrite bind_outcome, bind_calls.
  destruct (doc_title urlparse_path s3_uri title) as [t|e];
    cbn [lift ret raise outcome final calls app]; [|discriminate].
  intros H. exists t. split; [reflexivity|]. now apply insert_rows_run.
Qed.

(** C7: when the function returns a document id, the statements it sent
    are the connection, the document row, one chunk row per chunk in the
    order of the list, and the close; the chunk row at position [i]
    carries the ordinal [i], starts at the sum of the lengths of the
    chunks before it and ends [len(text)] later, so the starts never
    decrease. *)
Theorem chunk_rows_ordinals_and_offsets
    (s3_uri : str) (chunks : list str) (title : option str) (x : Ext) (doc_id : Z) :
  outcome (store s3_uri chunks title x) = Some (Ok doc_id) ->
  exists (t : str) (stmts : list Stmt),
    calls (store s3_uri chunks title x) =
      PgConnect :: PgRun (InsertDocument s3_uri t) :: map PgRun stmts ++ [PgClose]
    /\ List.length stmts = List.length chunks
    /\ (forall i c, nth_error chunks i = Some c ->
          exists s e,
            nth_error stmts i = Some (InsertChunk doc_id (Z.of_nat i) s e c)
            /\ s = total_len (firstn i chunks)
            /\ e - s = len c)
    /\ (forall i j di ii si ei ci dj ij sj ej cj, (i <= j)%nat ->
          nth_error stmts i = Some (InsertChunk di ii si ei ci) ->
          nth_error stmts j = Some (InsertChunk dj ij sj ej cj) ->
          si <= sj /\ ei <= ej).
Proof.
  unfold store_document_and_chunks.
  rewrite bind_unfold. unfold request.
  destruct (pg_connect Ext Vec svc x) as [[[]|e] x1]; cbn [outcome final calls];
    [|discriminate].
  destruct (finally_close (try_body s3_uri title chunks) x1)
    as [[_ E]|(o & x3 & E1 & E2)]; [rewrite E; discriminate|].
  rewrite E2. cbn [outcome final calls]. intros [= ->].
  destruct (try_body_ok _ _ _ _ _ E1) as (t & _ & ->). cbn [app].
  exists t, (mapi (chunk_stmt doc_id chunks) 0 chunks).
  split; [reflexivity|]. split; [apply mapi_length|]. split.
  - intros i c Hi. do 2 eexists. split; [|split].
    + rewrite (mapi_nth_error _ _ _ _ _ Hi). reflexivity.
    + reflexivity.
    + lia.
  - intros i j di ii si ei ci dj ij sj ej cj Hij Hi Hj.
    assert (Hli : (i < List.length chunks)%nat).
    { rewrite <- (mapi_length (chunk_stmt doc_id chunks) 0). apply nth_error_Some. congruence. }
    assert (Hlj : (j < List.length chunks)%nat).
    { rewrite <- (mapi_length (chunk_stmt doc_id chunks) 0). apply nth_error_Some. congruence. }
    destruct (nth_error chunks i) as [c1|] eqn:Ni; [|apply nth_error_None in Ni; lia].
    destruct (nth_error chunks j) as [c2|] eqn:Nj; [|apply nth_error_None in Nj; lia].
    rewrite (mapi_nth_error _ _ _ _ _ Ni) in Hi. rewrite (mapi_nth_error _ _ _ _ _ Nj) in Hj.
    unfold chunk_stmt in Hi, Hj. injection Hi as <- <- <- <- <-. injection Hj as <- <- <- <- <-.
    cbn [Nat.add]. split; [now apply total_len_firstn_mono|].
    destruct (Nat.eq_dec i j) as [->|Hne].
    + assert (c1 = c2) by congruence. subst. lia.
    + pose proof (total_len_firstn_mono chunks (S i) j ltac:(lia)) as M.
      rewrite (firstn_succ_nth chunks i c1 Ni) in M.
      rewrite total_len_app in M. cbn [total_len fold_right] in M.
      pose proof (len_nonneg c2). lia.
Qed.

(** C10: the handler subscripts [event["Records"]] with [0] and never
    looks at the list again: with further records in the batch the run
    -- result, calls made and state left -- is that of the event with
    the first record alone. *)
Theorem first_record_only
    (fuel : nat) (record : S3Rec) (others : list S3Rec) (x : Ext) :
  handler fuel (mkEvent (Some (record :: others))) x
  = handler fuel (mkEvent (Some [record])) x.
Proof. reflexivity. Qed.

(** *** More about the poll loop *)

(** One turn of the [while True] loop. *)
Lemma poll_step fuel job_id waited x :
  poll_loop (S fuel) job_id waited x =
    match textract_get Ext Vec svc job_id None x with
    | (Raise e, x') => mkRun (Some (Raise e)) x' [GetDetection job_id None]
    | (Ok resp, x') =>
        if str_eqb (JobStatus resp) (lit "SUCCEEDED")
        then mkRun (Some (Ok resp)) x' [GetDetection job_id None]
        else if str_eqb (JobStatus resp) (lit "FAILED")
        then mkRun (Some (Raise (mkExn RuntimeError
                                   (lit "Textract job failed: " ++ repr_detection resp))))
                   x' [GetDetection job_id None]
        else if TEXTRACT_MAX_POLL_SECONDS cfg <=? waited
        then mkRun (Some (Raise (timed_out waited job_id))) x' [GetDetection job_id None]
        else
          let r := poll_loop fuel job_id (waited + 2) (time_sleep Ext Vec svc 2 x') in
          mkRun (outcome r) (final r)
                (GetDetection job_id None :: Sleep 2 :: calls r)
    end.
Proof.
  cbn [poll]. unfold bind at 1, get_detection, request.
  destruct (textract_get Ext Vec svc job_id None x) as [[resp|e] x'];
    cbn [outcome final calls]; [|reflexivity].
  destruct (str_eqb (JobStatus resp) (lit "SUCCEEDED")); [reflexivity|].
  destruct (str_eqb (JobStatus resp) (lit "FAILED")); [reflexivity|].
  destruct (TEXTRACT_MAX_POLL_SECONDS cfg <=? waited); [reflexivity|].
  unfold bind. cbn [outcome final calls].
  destruct (outcome (poll_loop fuel job_id (waited + 2) (time_sleep Ext Vec svc 2 x')))
    as [[|]|]; reflexivity.
Qed.


(** Whatever Textract answers, the loop only polls and sleeps two seconds,
    and it polls at most once per two seconds of the ceiling, plus once. *)
Theorem poll_count_bound (fuel : nat) : forall job_id waited x,
  (polls (calls (poll_loop fuel job_id waited x))
   <= Z.to_nat (Chunker.ceil_div
                  (Z.max 0 (TEXTRACT_MAX_POLL_SECONDS cfg - waited)) 2) + 1)%nat
  /\ Forall (fun c => c = GetDetection job_id None \/ c = Sleep 2)
            (calls (poll_loop fuel job_id waited x)).
Proof.
  induction fuel as [|fuel IH]; intros job_id waited x;
    [cbn; split; [lia | constructor]|].
  rewrite poll_step.
  destruct (textract_get Ext Vec svc job_id None x) as [[resp|e] x'];
    [|cbn; split; [lia | repeat constructor; now left]].
  destruct (str_eqb (JobStatus resp) (lit "SUCCEEDED"));
    [cbn; split; [lia | repeat constructor; now left]|].
  destruct (str_eqb (JobStatus resp) (lit "FAILED"));
    [cbn; split; [lia | repeat constructor; now left]|].
  destruct (Z.leb_spec (TEXTRACT_MAX_POLL_SECONDS cfg) waited) as [Hle|Hgt];
    [cbn; split; [lia | repeat constructor; now left]|].
  cbv zeta. cbn [calls].
  destruct (IH job_id (waited + 2) (time_sleep Ext Vec svc 2 x')) as [P F].
  split.
  - unfold polls in *. cbn [filter is_poll List.length].
    set (d := TEXTRACT_MAX_POLL_SECONDS cfg - waited) in *.
    replace (TEXTRACT_MAX_POLL_SECONDS cfg - (waited + 2)) with (d - 2) in P by (subst d; lia).
    assert (D : Chunker.ceil_div (Z.max 0 (d - 2)) 2 + 1 <= Chunker.ceil_div (Z.max 0 d) 2).
    { unfold Chunker.ceil_div. rewrite (Z.max_r 0 d) by lia.
      destruct (Z.eq_dec d 1) as [->|N1]; [cbn; lia|].
      rewrite Z.max_r by lia. rewrite <- Z.div_add by lia.
      apply Z.div_le_mono; lia. }
    assert (0 <= Chunker.ceil_div (Z.max 0 (d - 2)) 2)
      by (unfold Chunker.ceil_div; apply Z.div_pos; lia).
    lia.
  - constructor; [now left|]. constructor; [now right | exact F].
Qed.

(** The loop hands over a response only when its status is [SUCCEEDED]. *)
Theorem poll_returns_succeeded (fuel : nat) : forall job_id waited x resp,
  outcome (poll_loop fuel job_id waited x) = Some (Ok resp) ->
  JobStatus resp = lit "SUCCEEDED".
Proof.
  induction fuel as [|fuel IH]; intros job_id waited x resp; [discriminate|].
  rewrite poll_step.
  destruct (textract_get Ext Vec svc job_id None x) as [[r|e] x']; [|discriminate].
  destruct (str_eqb (JobStatus r) (lit "SUCCEEDED")) eqn:S.
  - cbn. intros [= <-]. now apply StructuredFacts.str_eqb_eq.
  - destruct (str_eqb (JobStatus r) (lit "FAILED")); [discriminate|].
    destruct (TEXTRACT_MAX_POLL_SECONDS cfg <=? waited); [discriminate|].
    cbv zeta. cbn [outcome]. apply IH.
Qed.

(** *** Embeddings *)

Lemma embed_all_shape (chunks : list str) : forall (vectors : list Vec) x,
  outcome (embed_all Ext Vec svc chunks vectors x) <> None
  /\ exists n,
       (n <= List.length chunks)%nat
       /\ calls (embed_all Ext Vec svc chunks vectors x)
          = map (@InvokeModel Vec) (firstn n chunks)
       /\ forall vs, outcome (embed_all Ext Vec svc chunks vectors x) = Some (Ok vs) ->
            n = List.length chunks
            /\ List.length vs = (List.length vectors + List.length chunks)%nat
            /\ firstn (List.length vectors) vs = vectors.
Proof.
  induction chunks as [|c chunks IH]; intros vectors x.
  - cbn. split; [discriminate|]. exists 0%nat. repeat split; auto.
    + injection H as <-. lia.
    + injection H as <-. apply firstn_all.
  - cbn [embed_all]. rewrite bind_unfold. unfold embed_text, request.
    destruct (bedrock_invoke Ext Vec svc c x) as [[v|e] x']; cbn [outcome final calls].
    + destruct (IH (vectors ++ [v]) x') as (Hn & n & Hle & Hc & Hok).
      split.
      * destruct (outcome (embed_all Ext Vec svc chunks (vectors ++ [v]) x')) as [[|]|];
          cbn [outcome]; congruence.
      * exists (S n). cbn [List.length firstn map]. split; [lia|]. split.
        -- rewrite <- Hc.
           destruct (outcome (embed_all Ext Vec svc chunks (vectors ++ [v]) x')) as [[|]|];
             reflexivity.
        -- intros vs H.
           destruct (outcome (embed_all Ext Vec svc chunks (vectors ++ [v]) x'))
             as [[vs'|]|] eqn:O; cbn [outcome] in H; try discriminate.
           injection H as <-. destruct (Hok vs' eq_refl) as (H1 & H2 & H3).
           rewrite length_app in H2, H3. cbn [List.length] in H2, H3.
           split; [lia|]. split; [lia|].
           replace (List.length vectors) with (Nat.min (List.length vectors)
                                                 (List.length vectors + 1)) by lia.
           rewrite <- firstn_firstn, H3, firstn_app, Nat.sub_diag, firstn_all.
           cbn. apply app_nil_r.
    + split; [discriminate|]. exists 1%nat. cbn [List.length firstn map].
      split; [lia|]. split; [reflexivity | discriminate].
Qed.

(** One request per chunk, in the order of the chunks, up to the first that
    raises; when none does there is one vector more per chunk. *)
Theorem embed_all_run (chunks : list str) : forall (vectors : list Vec) x,
  outcome (embed_all Ext Vec svc chunks vectors x) <> None
  /\ exists n,
       (n <= List.length chunks)%nat
       /\ calls (embed_all Ext Vec svc chunks vectors x)
          = map (@InvokeModel Vec) (firstn n chunks)
       /\ forall vs, outcome (embed_all Ext Vec svc chunks vectors x) = Some (Ok vs) ->
            n = List.length chunks
            /\ List.length vs = (List.length vectors + List.length chunks)%nat
            /\ firstn (List.length vectors) vs = vectors.
Proof. exact (embed_all_shape chunks). Qed.

(** *** The OpenSearch endpoint *)

Lemma forallb_rev_eq (f : N -> bool) (s : str) : forallb f (rev s) = forallb f s.
Proof.
  induction s as [|c s IH]; [reflexivity|].
  cbn [rev forallb]. rewrite forallb_app, IH. cbn [forallb].
  rewrite andb_true_r. apply andb_comm.
Qed.

Lemma drop_while_spec (c : N) (s : str) :
  if forallb (N.eqb c) s then drop_while (N.eqb c) s = []
  else exists d t, drop_while (N.eqb c) s = d :: t /\ d <> c.
Proof.
  induction s as [|a s IH]; [reflexivity|].
  cbn [forallb drop_while]. destruct (N.eqb_spec c a) as [->|Hne]; cbn [andb].
  - exact IH.
  - exists a, s. split; [reflexivity | congruence].
Qed.

Lemma rstrip_char_spec (c : N) (s : str) :
  if forallb (N.eqb c) s then rstrip_char c s = []
  else exists a d, rstrip_char c s = a ++ [d] /\ d <> c.
Proof.
  unfold rstrip_char. pose proof (drop_while_spec c (rev s)) as H.
  rewrite forallb_rev_eq in H. destruct (forallb (N.eqb c) s).
  - now rewrite H.
  - destruct H as (d & t & -> & Hd). exists (rev t), d. now split.
Qed.

Lemma endswith_slash_false (a : str) (d : N) :
  d <> SLASH -> endswith (a ++ [d]) (lit "/") = false.
Proof.
  intros Hd. unfold endswith. change (lit "/") with [SLASH].
  rewrite length_app. cbn [List.length].
  replace (List.length a + 1 - 1)%nat with (List.length a + 0)%nat by lia.
  rewrite skipn_app, Nat.add_0_r, skipn_all, Nat.sub_diag. cbn [app skipn str_eqb].
  destruct (N.eqb_spec d SLASH); [contradiction|]. apply andb_false_r.
Qed.

(** The endpoint is empty when the variable is unset or made of slashes
    only; any other value gives a URL under [https://] with no slash at
    its end. *)
Theorem os_endpoint_normal_form :
  if forallb (N.eqb SLASH) (OS_ENDPOINT cfg) then _os_endpoint cfg = []
  else startswith (_os_endpoint cfg) (lit "https://") = true
       /\ endswith (_os_endpoint cfg) (lit "/") = false.
Proof.
  unfold _os_endpoint. pose proof (rstrip_char_spec SLASH (OS_ENDPOINT cfg)) as H.
  destruct (forallb (N.eqb SLASH) (OS_ENDPOINT cfg)).
  - now rewrite H.
  - destruct H as (a & d & -> & Hd).
    destruct (startswith (a ++ [d]) (lit "https://")) eqn:S.
    + split; [exact S | now apply endswith_slash_false].
    + replace (truthy (a ++ [d])) with true by (now destruct a). split.
      * unfold startswith. rewrite firstn_app, Nat.sub_diag, firstn_all.
        cbn [firstn]. rewrite app_nil_r. apply StructuredFacts.str_eqb_refl.
      * rewrite app_assoc. now apply endswith_slash_false.
Qed.

(** *** Indexing in OpenSearch *)

Lemma raise_for_status_run (status : Z) (x : Ext) :
  raise_for_status Ext Vec status x = mkRun (Some (Ok tt)) x []
  \/ exists e, raise_for_status Ext Vec status x = mkRun (Some (Raise e)) x [].
Proof.
  unfold raise_for_status.
  destruct ((400 <=? status) && (status <? 600)); [right; eexists|left]; reflexivity.
Qed.

(** With an endpoint, the readiness check answers whatever the service
    does: it asks for the index and, when told there is none, creates it. *)
Lemma os_ensure_index_shape (index_name : str) (dim : Z) (x : Ext) :
  truthy (_os_endpoint cfg) = true ->
  exists ready x',
    _os_ensure_index Ext Vec svc cfg index_name dim x
    = mkRun (Some (Ok ready)) x'
        [OsHead Vec (_os_endpoint cfg ++ lit "/" ++ index_name)]
    \/ _os_ensure_index Ext Vec svc cfg index_name dim x
       = mkRun (Some (Ok ready)) x'
           [OsHead Vec (_os_endpoint cfg ++ lit "/" ++ index_name);
            OsPut Vec (_os_endpoint cfg ++ lit "/" ++ index_name) dim].
Proof.
  intros T. unfold _os_ensure_index. rewrite T. cbn [negb].
  unfold try_except. rewrite bind_unfold. unfold request.
  destruct (os_head Ext Vec svc _ x) as [[status|e] x1]; cbn [outcome final calls];
    [|do 2 eexists; left; reflexivity].
  destruct (status =? 200); [do 2 eexists; left; reflexivity|].
  destruct (status =? 404); [|do 2 eexists; left; reflexivity].
  rewrite bind_unfold.
  destruct (os_put Ext Vec svc _ dim x1) as [[st|e] x2]; cbn [outcome final calls];
    [|do 2 eexists; right; reflexivity].
  rewrite bind_unfold.
  destruct (raise_for_status_run st x2) as [->|[e ->]]; cbn [outcome final calls];
    do 2 eexists; right; reflexivity.
Qed.

Lemma os_index_shape (index_name s3_uri : str) (doc_id : Z)
    (chunks : list str) (vectors : list Vec) (x : Ext) :
  let r := os_index_chunks Ext Vec svc cfg index_name s3_uri doc_id chunks vectors x in
  let ep := _os_endpoint cfg in
  let head := OsHead Vec (ep ++ lit "/" ++ index_name) in
  let put := OsPut Vec (ep ++ lit "/" ++ index_name) EMBED_DIM in
  let bulk := OsBulk Vec (ep ++ lit "/_bulk") index_name
                (bulk_docs Vec s3_uri doc_id 0 (combine chunks vectors)) in
  outcome r = Some (Ok tt)
  /\ if truthy ep
     then In (calls r) [[head]; [head; put]; [head; bulk]; [head; put; bulk]]
     else calls r = [].
Proof.
  cbv zeta. unfold os_index_chunks.
  destruct (truthy (_os_endpoint cfg)) eqn:T; cbn [negb]; [|split; reflexivity].
  rewrite bind_unfold.
  destruct (os_ensure_index_shape index_name EMBED_DIM x T) as (ready & x1 & [E|E]);
    rewrite E; cbn [outcome final calls];
    (destruct ready; cbn [negb outcome final calls app];
     [|split; [reflexivity | cbn; tauto]]);
    unfold try_except; rewrite bind_unfold; unfold request;
    (destruct (os_bulk Ext Vec svc _ index_name _ x1) as [[st|e] x2];
     cbn [outcome final calls app]; [|split; [reflexivity | cbn; tauto]]);
    destruct (raise_for_status_run st x2) as [->|[e ->]];
    cbn [outcome final calls app]; (split; [reflexivity | cbn; tauto]).
Qed.

(** Indexing never raises and never fails the run: without an endpoint it
    sends nothing; with one it asks for the index, creates it when told
    there is none, and sends at most one bulk request, after them. *)
Theorem os_index_chunks_never_raises (index_name s3_uri : str) (doc_id : Z)
    (chunks : list str) (vectors : list Vec) (x : Ext) :
  let r := os_index_chunks Ext Vec svc cfg index_name s3_uri doc_id chunks vectors x in
  let ep := _os_endpoint cfg in
  let head := OsHead Vec (ep ++ lit "/" ++ index_name) in
  let put := OsPut Vec (ep ++ lit "/" ++ index_name) EMBED_DIM in
  let bulk := OsBulk Vec (ep ++ lit "/_bulk") index_name
                (bulk_docs Vec s3_uri doc_id 0 (combine chunks vectors)) in
  outcome r = Some (Ok tt)
  /\ if truthy ep
     then In (calls r) [[head]; [head; put]; [head; bulk]; [head; put; bulk]]
     else calls r = [].
Proof. exact (os_index_shape index_name s3_uri doc_id chunks vectors x). Qed.

Lemma bulk_docs_length (s3_uri : str) (doc_id : Z) (pairs : list (str * Vec)) :
  forall i0, List.length (bulk_docs Vec s3_uri doc_id i0 pairs) = List.length pairs.
Proof.
  induction pairs as [|[c v] pairs IH]; intros i0; cbn; [reflexivity|].
  now rewrite IH.
Qed.

Lemma bulk_docs_nth (s3_uri : str) (doc_id : Z) (pairs : list (str * Vec)) :
  forall i0 i c v,
    nth_error pairs i = Some (c, v) ->
    nth_error (bulk_docs Vec s3_uri doc_id i0 pairs) i
    = Some (mkBulkDoc Vec s3_uri doc_id (i0 + Z.of_nat i) c v).
Proof.
  induction pairs as [|[c' v'] pairs IH]; intros i0 [|i] c v H;
    cbn [nth_error bulk_docs] in *; try discriminate.
  - injection H as -> ->. now rewrite Z.add_0_r.
  - rewrite (IH (i0 + 1) i c v H). do 2 f_equal. lia.
Qed.

Lemma combine_nth_error {A B} (l : list A) : forall (l' : list B) i a b,
  nth_error l i = Some a -> nth_error l' i = Some b ->
  nth_error (combine l l') i = Some (a, b).
Proof.
  induction l as [|a0 l IH]; intros [|b0 l'] [|i] a b Ha Hb;
    cbn [nth_error combine] in *; try discriminate.
  - congruence.
  - now apply IH.
Qed.

(** The bulk request carries one document per chunk that has a vector,
    in the order of the chunks and numbered from 0, each with the text of
    its chunk and the vector at the same position. *)
Theorem bulk_docs_enumerate (s3_uri : str) (doc_id : Z)
    (chunks : list str) (vectors : list Vec) :
  let docs := bulk_docs Vec s3_uri doc_id 0 (combine chunks vectors) in
  List.length docs = Nat.min (List.length chunks) (List.length vectors)
  /\ forall i c v,
       nth_error chunks i = Some c -> nth_error vectors i = Some v ->
       nth_error docs i = Some (mkBulkDoc Vec s3_uri doc_id (Z.of_nat i) c v).
Proof.
  cbv zeta. split.
  - now rewrite bulk_docs_length, length_combine.
  - intros i c v Hc Hv.
    now rewrite (bulk_docs_nth _ _ _ 0 i c v (combine_nth_error _ _ _ _ _ Hc Hv)).
Qed.

(** *** The connection of [store_document_and_chunks] *)

Lemma firstn_mapi {B} (f : nat -> str -> B) (l : list str) : forall i0 n,
  mapi f i0 (firstn n l) = firstn n (mapi f i0 l).
Proof.
  induction l as [|c l IH]; intros i0 [|n]; cbn [firstn mapi]; try reflexivity.
  now rewrite IH.
Qed.

(** The [try] block, however it ends: the document row, then the rows of
    the chunks reached. *)
Lemma insert_rows_shape (s3_uri t : str) (chunks : list str) (x : Ext) :
  outcome (insert_rows Ext Vec svc s3_uri t chunks x) <> None
  /\ exists d n,
       calls (insert_rows Ext Vec svc s3_uri t chunks x)
       = PgRun (InsertDocument s3_uri t)
           :: map PgRun (firstn n (mapi (chunk_stmt d chunks) 0 chunks)).
Proof.
  unfold insert_rows. rewrite bind_unfold. unfold request.
  destruct (pg_run Ext Vec svc (InsertDocument s3_uri t) x) as [[rows|e] x2];
    cbn [outcome final calls];
    [|split; [discriminate | exists 0, 0%nat; reflexivity]].
  destruct rows as [|[|d row] [|row' rows]];
    try (split; [discriminate | exists 0, 0%nat; reflexivity]).
  destruct (insert_chunks_run d chunks chunks [] x2 eq_refl) as (n & Hn & Hc & Ho & Hf).
  cbn [List.length total_len fold_right Z.of_nat] in Hn, Hc, Ho, Hf.
  rewrite bind_unfold. unfold ret.
  destruct (outcome (chunk_loop d chunks 0 0 x2)) as [[[]|e]|] eqn:O;
    cbn [outcome final calls app]; [| |contradiction].
  - split; [discriminate|]. exists d, n. now rewrite app_nil_r, Hc, firstn_mapi.
  - split; [discriminate|]. exists d, n. now rewrite Hc, firstn_mapi.
Qed.

Lemma store_shape (s3_uri : str) (chunks : list str) (title : option str) (x : Ext) :
  exists o,
    outcome (store s3_uri chunks title x) = Some o
    /\ ((calls (store s3_uri chunks title x) = [PgConnect] /\ exists e, o = Raise e)
        \/ (calls (store s3_uri chunks title x) = [PgConnect; PgClose]
            /\ exists e, doc_title urlparse_path s3_uri title = Raise e /\ o = Raise e)
        \/ exists t d n,
             doc_title urlparse_path s3_uri title = Ok t
             /\ calls (store s3_uri chunks title x)
                = PgConnect :: PgRun (InsertDocument s3_uri t)
                    :: map PgRun (firstn n (mapi (chunk_stmt d chunks) 0 chunks))
                    ++ [PgClose]).
Proof.
  unfold store_document_and_chunks.
  rewrite bind_unfold. unfold request.
  destruct (pg_connect Ext Vec svc x) as [[[]|e] x1]; cbn [outcome final calls];
    [|exists (Raise e); split; [reflexivity | left; eauto]].
  destruct (finally_close (try_body s3_uri title chunks) x1)
    as [[E _]|(o & x3 & E1 & E2)].
  - exfalso. rewrite bind_outcome in E.
    destruct (doc_title urlparse_path s3_uri title) as [t|e];
      cbn [lift ret raise outcome final calls] in E; [|discriminate].
    now destruct (insert_rows_shape s3_uri t chunks x1) as [Hf _].
  - rewrite E2. cbn [outcome final calls]. exists o. split; [reflexivity|].
    rewrite bind_calls. rewrite bind_outcome in E1.
    destruct (doc_title urlparse_path s3_uri title) as [t|e];
      cbn [lift ret raise outcome final calls app] in *.
    + right; right. destruct (insert_rows_shape s3_uri t chunks x1) as (_ & d & n & Hc).
      exists t, d, n. split; [reflexivity|]. now rewrite Hc.
    + right; left. split; [reflexivity|]. exists e. split; [reflexivity | congruence].
Qed.


(** *** The steps of the handler *)

Lemma poll_calls_extraction (fuel : nat) : forall job_id waited x,
  Forall (fun c => phase c = Extraction) (calls (poll_loop fuel job_id waited x)).
Proof.
  induction fuel as [|fuel IH]; intros job_id waited x; [constructor|].
  rewrite poll_step.
  destruct (textract_get Ext Vec svc job_id None x) as [[resp|e] x'];
    [|repeat constructor].
  destruct (str_eqb (JobStatus resp) (lit "SUCCEEDED")); [repeat constructor|].
  destruct (str_eqb (JobStatus resp) (lit "FAILED")); [repeat constructor|].
  destruct (TEXTRACT_MAX_POLL_SECONDS cfg <=? waited); [repeat constructor|].
  cbv zeta. cbn [calls]. repeat constructor. apply IH.
Qed.

Lemma paginate_calls_extraction (fuel : nat) : forall job_id token blocks x,
  Forall (fun c => phase c = Extraction)
         (calls (paginate Ext Vec svc fuel job_id token blocks x)).
Proof.
  induction fuel as [|fuel IH]; intros job_id [token|] blocks x;
    cbn [paginate]; try (destruct (truthy token); cbn [negb]); try constructor.
  rewrite bind_calls. apply Forall_app. split.
  - unfold get_detection, request.
    destruct (textract_get Ext Vec svc job_id (Some token) x) as [r x'].
    repeat constructor.
  - destruct (outcome (get_detection Ext Vec svc job_id (Some token) x)) as [[resp|e]|];
      [apply IH | constructor | constructor].
Qed.

Lemma textract_calls_extraction (fuel : nat) (bucket key : str) (x : Ext) :
  Forall (fun c => phase c = Extraction)
         (calls (_textract_text Ext Vec svc cfg repr_detection fuel bucket key x)).
Proof.
  unfold _textract_text.
  rewrite bind_calls. apply Forall_app. split.
  { unfold request. destruct (s3_head_object Ext Vec svc bucket key x).
    repeat constructor. }
  destruct (outcome (request Ext Vec _ _ x)) as [[[]|e]|]; [|constructor|constructor].
  rewrite bind_calls. apply Forall_app. split.
  { unfold request. destruct (textract_start Ext Vec svc bucket key _).
    repeat constructor. }
  destruct (outcome (request Ext Vec _ _ _)) as [[job_id|e]|]; [|constructor|constructor].
  rewrite bind_calls. apply Forall_app. split; [apply poll_calls_extraction|].
  destruct (outcome (poll_loop fuel job_id 0 _)) as [[resp|e]|]; [|constructor|constructor].
  rewrite bind_calls. apply Forall_app. split; [apply paginate_calls_extraction|].
  destruct (outcome (paginate Ext Vec svc fuel job_id _ _ _)) as [[blocks|e]|];
    constructor.
Qed.

Lemma embed_calls_embedding (l : list str) :
  Forall (fun c => phase c = Embedding) (map (InvokeModel Vec) l).
Proof. induction l; cbn [map]; constructor; auto. Qed.

Lemma store_calls_persistence (s3_uri : str) (chunks : list str)
    (title : option str) (x : Ext) :
  Forall (fun c : Call Vec => phase c = Persistence)
         (calls (store s3_uri chunks title x)).
Proof.
  destruct (store_shape s3_uri chunks title x)
    as (o & _ & [[-> _]|[[-> _]|(t & d & n & _ & ->)]]);
    [repeat constructor | repeat constructor |].
  do 2 (constructor; [reflexivity|]). apply Forall_app. split; [|repeat constructor].
  induction (firstn n (mapi (chunk_stmt d chunks) 0 chunks)); cbn [map];
    constructor; auto.
Qed.

Lemma os_calls_indexing (index_name s3_uri : str) (doc_id : Z)
    (chunks : list str) (vectors : list Vec) (x : Ext) :
  Forall (fun c => phase c = Indexing)
    (calls (os_index_chunks Ext Vec svc cfg index_name s3_uri doc_id chunks vectors x)).
Proof.
  destruct (os_index_shape index_name s3_uri doc_id chunks vectors x) as [_ H].
  destruct (truthy (_os_endpoint cfg)); [|rewrite H; constructor].
  cbn [In] in H. destruct H as [<-|[<-|[<-|[<-|[]]]]]; repeat constructor.
Qed.

(** Both [except] clauses raise again: the handler runs as its body. *)
Lemma handler_is_pipeline (fuel : nat) (event : Event) (x : Ext) :
  handler fuel event x
  = pipeline Ext Vec svc cfg unquote urlparse_path repr_detection lower_wide
      fuel event x.
Proof.
  unfold lambda_handler, try_except.
  destruct (pipeline Ext Vec svc cfg unquote urlparse_path repr_detection lower_wide
              fuel event x) as [[[a|e]|] f c]; cbn; now rewrite ?app_nil_r.
Qed.

Ltac phases ex em db os :=
  exists ex, em, db, os; rewrite ?app_nil_r; cbn [app];
  split; [reflexivity|];
  repeat (split; [first [assumption | constructor]|]);
  first [assumption | constructor].


(** The calls of a store that returned the document id. *)
Lemma store_ok_calls (s3_uri : str) (chunks : list str) (x : Ext) (doc_id : Z) :
  outcome (store s3_uri chunks None x) = Some (Ok doc_id) ->
  exists path,
    urlparse_path s3_uri = Ok path
    /\ calls (store s3_uri chunks None x)
       = PgConnect :: PgRun (InsertDocument s3_uri (basename path))
           :: map PgRun (mapi (chunk_stmt doc_id chunks) 0 chunks) ++ [PgClose].
Proof.
  unfold store_document_and_chunks. rewrite bind_unfold. unfold request.
  destruct (pg_connect Ext Vec svc x) as [[[]|e] x1]; cbn [outcome final calls];
    [|discriminate].
  destruct (finally_close (try_body s3_uri None chunks) x1)
    as [[_ E]|(o & x3 & E1 & E2)]; [rewrite E; discriminate|].
  rewrite E2. cbn [outcome final calls]. intros [= ->].
  destruct (try_body_ok _ _ _ _ _ E1) as (t & T & ->).
  unfold doc_title in T.
  destruct (urlparse_path s3_uri) as [path|e]; [|discriminate].
  injection T as <-. now exists path.
Qed.

(** A run that reports a stored document did all of it: one embedding
    request per chunk, then the connection, the document row under the
    URI reported -- its title the base name of the path of that URI --
    one row per chunk under the id reported, and the close; the count
    reported is the number of chunks, and no chunk is empty or longer
    than 4200 characters. Only extraction comes before and only indexing
    after. *)
Theorem stored_run (fuel : nat) (event : Event) (x : Ext)
    (s3_uri : str) (doc_id n : Z) :
  outcome (handler fuel event x) = Some (Ok (Stored s3_uri doc_id n)) ->
  exists ex chunks os path,
    urlparse_path s3_uri = Ok path
    /\ calls (handler fuel event x)
       = ex ++ map (InvokeModel Vec) chunks
            ++ (PgConnect
                  :: PgRun (InsertDocument s3_uri (basename path))
                  :: map PgRun (mapi (chunk_stmt doc_id chunks) 0 chunks) ++ [PgClose])
            ++ os
    /\ n = len chunks
    /\ Forall (fun c => 0 < len c <= 4200) chunks
    /\ Forall (fun c => phase c = Extraction) ex
    /\ Forall (fun c => phase c = Indexing) os.
Proof.
  rewrite handler_is_pipeline. unfold pipeline.
  destruct (Records event) as [[|record rest]|]; try discriminate.
  rewrite bind_calls, bind_outcome.
  destruct (bucket_name record) as [bucket|e];
    cbn [lift ret raise outcome calls final app]; [|discriminate].
  rewrite bind_calls, bind_outcome.
  destruct (object_key record) as [raw_key|e];
    cbn [lift ret raise outcome calls final app]; [|discriminate].
  destruct (negb (endswith (lower lower_wide (unquote raw_key)) (lit ".pdf")));
    [discriminate|].
  rewrite bind_calls, bind_outcome.
  pose proof (textract_calls_extraction fuel bucket (unquote raw_key) x) as H1.
  set (r1 := _textract_text Ext Vec svc cfg repr_detection fuel bucket
               (unquote raw_key) x) in *.
  destruct (outcome r1) as [[text|e]|]; try discriminate.
  rewrite bind_calls, bind_outcome.
  destruct (ChunkerFacts.chunk_text_ok 3200 4000 200 text) as (chunks & E & B); try lia.
  unfold Chunker._chunk_text_default. rewrite E.
  cbn [lift ret raise outcome calls final app].
  rewrite bind_calls, bind_outcome.
  destruct (embed_all_shape chunks [] (final r1)) as (_ & k & _ & H2 & K).
  set (r2 := embed_all Ext Vec svc chunks [] (final r1)) in *.
  destruct (outcome r2) as [[vectors|e]|]; try discriminate.
  destruct (K vectors eq_refl) as (-> & _). rewrite firstn_all in H2.
  rewrite bind_calls, bind_outcome.
  set (uri := lit "s3://" ++ bucket ++ lit "/" ++ unquote raw_key).
  pose proof (store_ok_calls uri chunks (final r2)) as H3.
  set (r3 := store uri chunks None (final r2)) in *.
  destruct (outcome r3) as [[d|e]|]; try discriminate.
  rewrite bind_calls, bind_outcome.
  pose proof (os_calls_indexing (OS_INDEX cfg) uri d chunks vectors (final r3)) as H4.
  set (r4 := os_index_chunks Ext Vec svc cfg (OS_INDEX cfg) uri d chunks
               vectors (final r3)) in *.
  destruct (outcome r4) as [[[]|e]|]; try discriminate.
  cbn [ret outcome calls]. intros [= <- <- <-].
  destruct (H3 d eq_refl) as (path & P & C3).
  exists (calls r1), chunks, (calls r4), path.
  rewrite H2, C3, app_nil_r.
  repeat (split; [first [reflexivity | assumption]|]). exact H4.
Qed.

(** An object the handler skips costs nothing: a run that answers with a
    skip made no request to any service and left them as they were, and
    the key it names does not end in [.pdf] in any letter case. *)
Theorem skipped_object_costs_nothing (fuel : nat) (event : Event) (x : Ext)
    (key : str) :
  outcome (handler fuel event x) = Some (Ok (Skip key)) ->
  calls (handler fuel event x) = []
  /\ final (handler fuel event x) = x
  /\ endswith (lower lower_wide key) (lit ".pdf") = false.
Proof.
  rewrite handler_is_pipeline. unfold pipeline.
  destruct (Records event) as [[|record rest]|]; try discriminate.
  rewrite bind_calls, bind_outcome, bind_final.
  destruct (bucket_name record) as [bucket|e];
    cbn [lift ret raise outcome calls final app]; [|discriminate].
  rewrite bind_calls, bind_outcome, bind_final.
  destruct (object_key record) as [raw_key|e];
    cbn [lift ret raise outcome calls final app]; [|discriminate].
  destruct (endswith (lower lower_wide (unquote raw_key)) (lit ".pdf")) eqn:P;
    cbn [negb].
  - rewrite bind_outcome.
    destruct (outcome (_textract_text _ _ _ _ _ _ _ _ _)) as [[text|e]|]; try discriminate.
    rewrite bind_outcome.
    destruct (Chunker._chunk_text_default text) as [chunks|e];
      cbn [lift ret raise outcome calls final app]; try discriminate.
    rewrite bind_outcome.
    destruct (outcome (embed_all _ _ _ _ _ _)) as [[vectors|e]|]; try discriminate.
    rewrite bind_outcome.
    destruct (outcome (store _ _ _ _)) as [[d|e]|]; try discriminate.
    rewrite bind_outcome.
    destruct (outcome (os_index_chunks _ _ _ _ _ _ _ _ _ _)) as [[[]|e]|]; discriminate.
  - cbn [ret outcome calls final]. intros [= <-]. now rewrite P.
Qed.

End Services.

(** *** The autocommit database *)

Lemma chunk_row_at doc_id (done rest : list str) (c : str) :
  chunk_row doc_id (done ++ c :: rest) (List.length done) c =
    mkChunkRow doc_id (Z.of_nat (List.length done))
      (total_len done) (total_len done + len c) c.
Proof.
  unfold chunk_row. rewrite firstn_app, Nat.sub_diag, firstn_all. simpl.
  now rewrite app_nil_r.
Qed.

(** The chunk loop up to a refused statement: the rows before it are in
    the table, and the exception leaves the loop. *)
Lemma sim_chunk_loop_refused rejects doc_id (chunks : list str) c post :
  forall pre done scr sl docs rows nid,
    chunks = done ++ pre ++ c :: post ->
    (forall i ci, nth_error pre i = Some ci ->
       rejects (chunk_stmt doc_id chunks (List.length done + i) ci) = false) ->
    rejects (chunk_stmt doc_id chunks (List.length done + List.length pre) c) = true ->
    let r := insert_chunks Sim sim_vec (sim_services rejects) doc_id (pre ++ c :: post)
               (Z.of_nat (List.length done)) (total_len done)
               (mkSim scr sl docs rows nid) in
    (exists e, outcome r = Some (Raise e))
    /\ final r = mkSim scr sl docs
                   (rows ++ mapi (chunk_row doc_id chunks) (List.length done) pre) nid.
Proof.
  induction pre as [|p pre IH]; intros done scr sl docs rows nid Hch Hacc Hrej; cbv zeta.
  - cbn [app insert_chunks]. rewrite bind_unfold. unfold request.
    cbn [pg_run sim_services]. unfold sim_pg_run.
    cbn [app List.length] in Hch, Hrej. rewrite Nat.add_0_r in Hrej.
    subst chunks. rewrite chunk_stmt_at in Hrej. rewrite Hrej.
    cbn [outcome final calls mapi]. rewrite app_nil_r. split; eauto.
  - cbn [app insert_chunks]. rewrite bind_unfold. unfold request.
    cbn [pg_run sim_services]. unfold sim_pg_run.
    assert (Hp : rejects (InsertChunk doc_id (Z.of_nat (List.length done))
                            (total_len done) (total_len done + len p) p) = false).
    { specialize (Hacc 0%nat p eq_refl). rewrite Nat.add_0_r in Hacc.
      subst chunks. cbn [app] in Hacc. now rewrite chunk_stmt_at in Hacc. }
    rewrite Hp. cbn [outcome final calls script slept documents doc_chunks next_id].
    specialize (IH (done ++ [p]) scr sl docs
                   (rows ++ [mkChunkRow doc_id (Z.of_nat (List.length done))
                               (total_len done) (total_len done + len p) p]) nid).
    rewrite length_app, total_len_app in IH. cbn [List.length total_len fold_right] in IH.
    replace (Z.of_nat (List.length done + 1)) with (Z.of_nat (List.length done) + 1) in IH by lia.
    replace (total_len done + (len p + 0)) with (total_len done + len p) in IH by lia.
    destruct IH as [[e He] Hf].
    + rewrite <- app_assoc. exact Hch.
    + intros i ci Hi. replace (List.length done + 1 + i)%nat
        with (List.length done + S i)%nat by lia. now apply Hacc.
    + replace (List.length done + 1 + List.length pre)%nat
        with (List.length done + List.length (p :: pre))%nat by (cbn [List.length]; lia).
      exact Hrej.
    + rewrite He, Hf. cbn [outcome final]. split; [eauto|].
      cbn [mapi]. rewrite <- app_assoc. cbn [app].
      replace (List.length done + 1)%nat with (S (List.length done)) by lia.
      subst chunks. cbn [app]. rewrite chunk_row_at. reflexivity.
Qed.




Lemma chunk_rows_ordinals_and_offsets_witness :
  exists t stmts,
    calls (sim_store accept_all (lit "s3://b/k.pdf") [lit "a"; lit "bc"] (sim_start []))
    = PgConnect :: PgRun (InsertDocument (lit "s3://b/k.pdf") t)
        :: map PgRun stmts ++ [PgClose]
    /\ List.length stmts = 2%nat.
Proof.
  destruct (chunk_rows_ordinals_and_offsets Sim sim_vec (sim_services accept_all)
              sim_urlparse_path (lit "s3://b/k.pdf") [lit "a"; lit "bc"] None
              (sim_start []) 1 ltac:(vm_compute; reflexivity))
    as (t & stmts & Hc & Hl & _).
  exists t, stmts. split; [exact Hc | exact Hl].
Defined.

(** *** The poll loop: statement of the whole *)

(** C3 as stated, with [max_wait = 4] and statuses that never become
    terminal: after two polls the loop has slept four seconds and is
    polling a third time; the timeout is raised after that third poll. *)
Lemma timeout_comes_after_third_poll :
  let r := sim_poll 4 3 (sim_start []) in
  polls (calls r) = 3%nat
  /\ outcome r = Some (Raise (timed_out 4 (lit "job-1")))
  /\ polls (calls r) <> 2%nat
  /\ outcome (sim_poll 4 2 (sim_start [])) = None
  /\ polls (calls (sim_poll 4 2 (sim_start []))) = 2%nat.
Proof.
  cbv zeta. repeat split; try (vm_compute; reflexivity). vm_compute. discriminate.
Qed.

(** C3 (amended): the poll loop ends at the first status that is
    [SUCCEEDED] or [FAILED], raising on [FAILED] (provided the ceiling is
    not reached at an earlier poll); for the statuses
    [RUNNING, RUNNING, SUCCEEDED] and a ceiling above 2 there are exactly
    3 polls; with [max_wait = 4] and the two-second sleep, statuses that
    never become terminal give exactly 3 polls (at 0, 2 and 4 seconds)
    and then the timeout error naming 4 seconds and the job; and whatever
    the service answers, the loop ends by itself. *)
Theorem poll_loop_ends
    (max_wait : Z) (pre post : list str) (st : str) (fuel : nat) :
  Forall (fun s => terminal s = false) pre ->
  terminal st = true ->
  (pre <> [] -> 2 * (Z.of_nat (List.length pre) - 1) < max_wait) ->
  (List.length pre < fuel)%nat ->
  (let r := sim_poll max_wait fuel (sim_start (pre ++ st :: post)) in
   polls (calls r) = S (List.length pre)
   /\ script (final r) = post
   /\ outcome r =
        if str_eqb st SUCCEEDED
        then Some (Ok (mkDetection st [] None))
        else Some (Raise (mkExn RuntimeError (lit "Textract job failed: " ++ st))))
  /\ (forall mw f, 2 < mw -> (2 < f)%nat ->
        let r := sim_poll mw f (sim_start [RUNNING; RUNNING; SUCCEEDED]) in
        polls (calls r) = 3%nat
        /\ outcome r = Some (Ok (mkDetection SUCCEEDED [] None)))
  /\ (forall statuses f,
        Forall (fun s => terminal s = false) statuses -> (2 < f)%nat ->
        let r := sim_poll 4 f (sim_start statuses) in
        polls (calls r) = 3%nat
        /\ outcome r = Some (Raise (timed_out 4 (lit "job-1")))
        /\ slept (final r) = 4)
  /\ (forall Ext Vec (svc : Services Ext Vec) cfg repr_detection job_id waited x f,
        (Z.to_nat (TEXTRACT_MAX_POLL_SECONDS cfg - waited) < f)%nat ->
        outcome (poll Ext Vec svc cfg repr_detection f job_id waited x) <> None).
Proof.
  intros Hpre Hst Hwait Hfuel.
  split; [|split; [|split]].
  - destruct (sim_poll_first_terminal max_wait pre st post Hpre Hst fuel 0 0 [] [] 1 Hfuel)
      as (P & F & O); [intros H; specialize (Hwait H); lia|].
    unfold sim_poll, sim_start. unfold sim_poll_from in P, F, O.
    split; [exact P|]. split; [now rewrite F | exact O].
  - intros mw f Hmw Hf.
    destruct (sim_poll_first_terminal mw [RUNNING; RUNNING] SUCCEEDED []
                ltac:(repeat constructor) eq_refl f 0 0 [] [] 1)
      as (P & F & O); [cbn; lia | intros _; cbn; lia|].
    unfold sim_poll, sim_start. unfold sim_poll_from in P, O.
    split; [exact P | exact O].
  - intros statuses f Hall Hf.
    destruct (sim_poll_all_running 4 2 statuses f 0 0 [] [] 1 Hall)
      as (P & O & F); [lia | lia | intros _; lia|].
    unfold sim_poll, sim_start. unfold sim_poll_from in P, O, F.
    split; [exact P|]. split; [exact O | exact F].
  - intros Ext Vec svc cfg repr_detection job_id waited x f Hf.
    now apply poll_finishes.
Qed.

Lemma poll_loop_ends_witness :
  polls (calls (sim_poll 180 5 (sim_start ([RUNNING] ++ FAILED :: [])))) = 2%nat.
Proof.
  refine (proj1 (proj1 (poll_loop_ends 180 [RUNNING] [] FAILED 5 _ _ _ _))).
  - repeat constructor.
  - reflexivity.
  - intros _. cbn. lia.
  - cbn. lia.
Defined.

(** *** The handler against the scripted services *)

Lemma poll_returns_succeeded_witness :
  JobStatus (mkDetection SUCCEEDED [] None) = lit "SUCCEEDED".
Proof.
  apply (poll_returns_succeeded Sim sim_vec (sim_services accept_all) (sim_config 180)
           sim_repr 3%nat (lit "job-1") 0 (sim_start [RUNNING; SUCCEEDED])
           (mkDetection SUCCEEDED [] None)).
  vm_compute. reflexivity.
Defined.

Lemma stored_run_witness :
  exists ex chunks os path,
    sim_urlparse_path (lit "s3://docs/reports/Q3.PDF") = Ok path
    /\ calls (sim_page_handler two_paragraph_page (lit "reports/Q3.PDF") (sim_start []))
       = ex ++ map (InvokeModel sim_vec) chunks
            ++ (PgConnect
                  :: PgRun (InsertDocument (lit "s3://docs/reports/Q3.PDF")
                              (basename path))
                  :: map PgRun (mapi (chunk_stmt 1 chunks) 0 chunks) ++ [PgClose])
            ++ os
    /\ 2 = len chunks
    /\ Forall (fun c => 0 < len c <= 4200) chunks
    /\ Forall (fun c => phase c = Extraction) ex
    /\ Forall (fun c => phase c = Indexing) os.
Proof.
  apply (stored_run Sim sim_vec (sim_page_services two_paragraph_page) sim_page_config
           StructuredFn.sim_unquote sim_urlparse_path sim_repr
           StructuredFn.sim_lower_wide 1%nat (sim_pdf_event (lit "reports/Q3.PDF"))
           (sim_start []) (lit "s3://docs/reports/Q3.PDF") 1 2).
  vm_compute. reflexivity.
Defined.

Lemma skipped_object_costs_nothing_witness :
  calls (sim_pdf_handler 3 (lit "notes/readme.txt") (sim_start [])) = []
  /\ final (sim_pdf_handler 3 (lit "notes/readme.txt") (sim_start [])) = sim_start []
  /\ endswith (lower StructuredFn.sim_lower_wide (lit "notes/readme.txt")) (lit ".pdf")
     = false.
Proof.
  apply (skipped_object_costs_nothing Sim sim_vec (sim_services accept_all)
           (sim_config 180) StructuredFn.sim_unquote sim_urlparse_path sim_repr
           StructuredFn.sim_lower_wide 3%nat (sim_pdf_event (lit "notes/readme.txt"))
           (sim_start []) (lit "notes/readme.txt")).
  vm_compute. reflexivity.
Defined.

End PdfFacts.
